(** * Google-stock-analysis: the analytics pipeline, embedded and verified

    The pipeline of [src/component/GoogleStockAnalysis.jsx] (and its earlier
    copies [src/main.jsx] and [src/app.jsx]): cleaning, technical indicators,
    the closed-form regressors, the evaluator, the 30-step forecast and the
    signal engine.

    Conventions of the embedding.
    - A JavaScript number is a binary64 floating-point value, the primitive
      [float]: arithmetic rounds to nearest-even, overflows to an infinity,
      underflows to subnormals and zero, and has NaN and the two zeros.
      What is proved about arithmetic is proved from the specification of
      these operations ([SpecFloat]).
    - A JavaScript value read from a row is a [JS.value]: [undefined], [null]
      or a number.  A property that is absent reads as [undefined].
    - Row objects live in a [heap] (a list indexed by reference); an array of
      rows is a list of references, so that two arrays may share objects, as
      [[...rawData]] and [filter] make them do.
    - [Math.sqrt] on a positive finite number and [Number::toString] of a
      finite number of magnitude at least 1e21 are parameters of the
      development. *)

From Stdlib Require Import QArith Qabs Qround ZArith Lia Lqa DecimalString
  Sorted Floats.
From Stdlib Require Uint63.
From stdpp Require Import base list strings gmap sorting.

Set Default Proof Using "Type".
Set Warnings "-inexact-float".

(** ** JavaScript numbers and values *)

(** A JavaScript number is an IEEE 754 binary64 value: the operators
    [+ - * /], [Math.abs], unary minus and the comparisons
    [< <= ===] are the primitive operations of [float]. *)
Abbreviation number := float.

Module JS.

Local Open Scope float_scope.

Inductive value : Type :=
| VUndef
| VNull
| VNum (n : number).

Definition zero : number := 0.
Definition one : number := 1.

(** The number of an array length or index; these are below 2^32. *)
Definition of_nat (n : nat) : number :=
  of_uint63 (Uint63.of_Z (Z.of_nat n)).

(** ToNumber: [null] is 0, [undefined] is NaN. *)
Definition toNumber (v : value) : number :=
  match v with
  | VUndef => nan
  | VNull => zero
  | VNum n => n
  end.

(** [x ** 2] and [Math.pow(x, 2)]. *)
Definition sq (x : number) : number := x * x.

Definition gtb (x y : number) : bool := y <? x.
Definition geb (x y : number) : bool := y <=? x.

(** [Math.min] and [Math.max]: NaN as soon as one side is NaN, and -0 below
    +0. *)
Definition min (x y : number) : number :=
  if is_nan x || is_nan y then nan
  else if y <? x then y
  else if x <? y then x
  else if get_sign x then x else y.

Definition max (x y : number) : number :=
  if is_nan x || is_nan y then nan
  else if x <? y then y
  else if y <? x then x
  else if get_sign x then y else x.

(** ToBoolean: NaN, +0 and -0 are falsy. *)
Definition truthy_num (x : number) : bool := negb (is_nan x || is_zero x).

Definition truthy (v : value) : bool :=
  match v with
  | VNum n => truthy_num n
  | _ => false
  end.

(** [v || w] and [v && w] on values. *)
Definition or (v w : value) : value := if truthy v then v else w.
Definition and (v w : value) : value := if truthy v then w else v.

(** [v == null]: true of [null] and of [undefined]. *)
Definition nullish (v : value) : bool :=
  match v with
  | VNum _ => false
  | _ => true
  end.

(** [v === null]. *)
Definition is_null (v : value) : bool :=
  match v with
  | VNull => true
  | _ => false
  end.

Definition finite (x : number) : Prop := is_finite x = true.

(** The magnitude of a finite number, as the rational it denotes. *)
Definition magnitude (x : number) : Q :=
  match Prim2SF x with
  | S754_finite _ m e => (inject_Z (Z.pos m) * 2 ^ e)%Q
  | _ => 0%Q
  end.

(** The number nearest to [n / d], for positive integers [n] and [d]. *)
Definition nearest_quotient (n d : positive) : number :=
  SF2Prim (SF64div (S754_finite false n 0) (S754_finite false d 0)).

Section Builtins.

(** [Math.sqrt] on a finite positive argument. *)
Variable Math_sqrt : number -> number.
(** [Number::toString] of a finite number at or above 1e21. *)
Variable Number_toString : number -> string.

Definition sqrt (x : number) : number :=
  if is_nan x then nan
  else if is_zero x then x
  else if x <? 0 then nan
  else if is_infinity x then x
  else Math_sqrt x.

(** The decimal digits of a non-negative integer, at least [k] of them. *)
Definition digits (k : nat) (n : Z) : string :=
  let m := NilZero.string_of_uint (N.to_uint (Z.to_N n)) in
  String.concat "" (replicate (k - String.length m)%nat "0"%string) +:+ m.

(** The integer [n] for which [n / 10^f] is nearest to the magnitude of [x],
    the larger one of two. *)
Definition scaled (x : number) (f : nat) : Z :=
  Qfloor (magnitude x * inject_Z (10 ^ Z.of_nat f) + (1 # 2))%Q.

(** [x.toFixed(f)]. *)
Definition toFixed (x : number) (f : nat) : string :=
  if is_nan x then "NaN"
  else
    let s := if x <? 0 then "-" else "" in
    if is_infinity x then s +:+ "Infinity"
    else if 1e21 <=? abs x then s +:+ Number_toString (abs x)
    else
      let n := scaled x f in
      match f with
      | O => s +:+ digits 1%nat n
      | _ =>
          let m := digits (f + 1)%nat n in
          let k := (String.length m - f)%nat in
          s +:+ String.substring 0%nat k m +:+ "." +:+ String.substring k f m
      end.

End Builtins.

End JS.

Abbreviation value := JS.value.
Abbreviation VUndef := JS.VUndef.
Abbreviation VNull := JS.VNull.
Abbreviation VNum := JS.VNum.
Abbreviation toNumber := JS.toNumber.

(** [Array.prototype.reduce] with the callback's index argument. *)
Fixpoint reduce_from {A B : Type} (f : B -> A -> nat -> B) (i : nat)
    (l : list A) (acc : B) : B :=
  match l with
  | [] => acc
  | x :: l' => reduce_from f (S i) l' (f acc x i)
  end.

Definition reduce {A B : Type} (f : B -> A -> nat -> B) (l : list A)
    (init : B) : B :=
  reduce_from f 0 l init.

(** [arr[i]]: [undefined] out of range. *)
Definition index (arr : list value) (i : nat) : value :=
  default VUndef (arr !! i).

(** ** Evaluator *)

Record Metrics : Type := {
  mse : string;
  rmse : string;
  r2 : string;
  mae : string
}.

Section Evaluator.

Variable Math_sqrt : number -> number.
Variable Number_toString : number -> string.

Definition squaredError (actual predicted : list value) : number :=
  reduce (fun s v i => s + JS.sq (toNumber v - toNumber (index predicted i)))%float
    actual JS.zero.

Definition mean (actual : list value) : number :=
  (reduce (fun a b _ => a + toNumber b) actual JS.zero
     / JS.of_nat (length actual))%float.

Definition ssTot (actual : list value) : number :=
  let mean := mean actual in
  reduce (fun s v _ => s + JS.sq (toNumber v - mean))%float actual JS.zero.

Definition evaluateModel (actual predicted : list value) : Metrics :=
  let n := JS.of_nat (length actual) in
  let mse := (squaredError actual predicted / n)%float in
  let rmse := JS.sqrt Math_sqrt mse in
  let ssTot := ssTot actual in
  let ssRes := squaredError actual predicted in
  let r2 := (JS.one - ssRes / ssTot)%float in
  let mae :=
    (reduce (fun s v i => s + PrimFloat.abs (toNumber v - toNumber (index predicted i)))
       actual JS.zero / n)%float in
  {| mse := JS.toFixed Number_toString mse 2;
     rmse := JS.toFixed Number_toString rmse 2;
     r2 := JS.toFixed Number_toString r2 4;
     mae := JS.toFixed Number_toString mae 2 |}.

End Evaluator.

(** ** Rows and the object heap *)

(** A row object.  The OHLCV fields come from the data source; the indicator
    fields are absent ([undefined]) until the indicator engine sets them. *)
Record Row : Type := {
  date : string;
  open : value;
  high : value;
  low : value;
  close : value;
  volume : value;
  sma10 : value;
  sma20 : value;
  sma50 : value;
  rsi : value;
  upperBand : value;
  lowerBand : value;
  volatility : value
}.

(** [{date, open, high, low, close, volume}] *)
Definition mkRow (d : string) (o hi lo c v : value) : Row :=
  {| date := d; open := o; high := hi; low := lo; close := c; volume := v;
     sma10 := VUndef; sma20 := VUndef; sma50 := VUndef; rsi := VUndef;
     upperBand := VUndef; lowerBand := VUndef; volatility := VUndef |}.

Definition set_close (c : value) (r : Row) : Row :=
  {| date := date r; open := open r; high := high r; low := low r;
     close := c; volume := volume r;
     sma10 := sma10 r; sma20 := sma20 r; sma50 := sma50 r; rsi := rsi r;
     upperBand := upperBand r; lowerBand := lowerBand r;
     volatility := volatility r |}.

Definition set_volume (v : value) (r : Row) : Row :=
  {| date := date r; open := open r; high := high r; low := low r;
     close := close r; volume := v;
     sma10 := sma10 r; sma20 := sma20 r; sma50 := sma50 r; rsi := rsi r;
     upperBand := upperBand r; lowerBand := lowerBand r;
     volatility := volatility r |}.

(** References to row objects, and the heap that holds the objects. *)
Abbreviation loc := nat (only parsing).
Abbreviation heap := (list Row) (only parsing).

#[global] Instance Row_inhabited : Inhabited Row :=
  populate (mkRow "" VUndef VUndef VUndef VUndef VUndef).

(** The object behind a reference. *)
Definition deref (h : heap) (l : loc) : Row := h !!! l.

(** [obj.field = v] on the object behind [l]. *)
Definition store (h : heap) (l : loc) (f : Row -> Row) : heap :=
  <[l := f (deref h l)]> h.

(** A fresh object. *)
Definition alloc (h : heap) (r : Row) : heap * loc := (h ++ [r], length h).

(** Every reference of an array points into the heap. *)
Definition wf (h : heap) (arr : list loc) : Prop :=
  Forall (fun l => l < length h) arr.

(** ** Cleaning engine: [cleanData] *)

Record Issues : Type := {
  nulls : nat;
  duplicates : nat;
  outliers : nat
}.

Definition incr_nulls (s : Issues) : Issues :=
  {| nulls := S (nulls s); duplicates := duplicates s; outliers := outliers s |}.
Definition incr_duplicates (s : Issues) : Issues :=
  {| nulls := nulls s; duplicates := S (duplicates s); outliers := outliers s |}.
Definition incr_outliers (s : Issues) : Issues :=
  {| nulls := nulls s; duplicates := duplicates s; outliers := S (outliers s) |}.

(** [arr.slice(from, to)] for [0 <= from]. *)
Definition slice {A : Type} (arr : list A) (from to : nat) : list A :=
  take (to - from) (drop from arr).

(** [v === undefined] *)
Definition is_undefined (v : value) : bool :=
  match v with
  | VUndef => true
  | _ => false
  end.

(** Insertion under the comparator [(a, b) => a - b]: [x] goes after the
    elements [y] with [x - y > 0]. *)
Fixpoint insert_sorted (x : value) (l : list value) : list value :=
  match l with
  | [] => [x]
  | y :: l' =>
      if JS.gtb (toNumber x - toNumber y)%float JS.zero
      then y :: insert_sorted x l'
      else x :: y :: l'
  end.

(** [[...xs].sort((a, b) => a - b)].  [undefined] elements go last without
    being compared; the others are ordered by the comparator, stably.  The
    comparator is a total preorder when the numbers are finite; otherwise
    the order is implementation-defined, and this is one admissible order. *)
Definition sortNum (l : list value) : list value :=
  foldr insert_sorted [] (filter (fun v => is_undefined v = false) l)
    ++ filter (fun v => is_undefined v = true) l.

(** [sorted[Math.floor(sorted.length / 2)]] *)
Definition middle (sorted : list value) : value :=
  index sorted (length sorted / 2).

Definition closes (h : heap) (rows : list loc) : list value :=
  map (fun l => close (deref h l)) rows.

Section Cleaning.

(** The test for a missing field in the forward fill: [== null] in
    [component/GoogleStockAnalysis.jsx], [=== null] in [main.jsx].  The two
    copies of [cleanData] differ in nothing else. *)
Variable missing : value -> bool.

(** The callback of [cleaned.filter], with the set of dates seen so far. *)
Fixpoint dedupe (h : heap) (seen : gset string) (rows : list loc)
    (s : Issues) : list loc * Issues :=
  match rows with
  | [] => ([], s)
  | row :: rest =>
      if bool_decide (date (deref h row) ∈ seen)
      then dedupe h seen rest (incr_duplicates s)
      else
        let '(kept, s') := dedupe h ({[date (deref h row)]} ∪ seen) rest s in
        (row :: kept, s')
  end.

(** The body of the forward-fill loop at [cur = cleaned[i]]; [prev] is
    [cleaned[i - 1]], and is absent exactly when [i = 0]. *)
Definition fillStep (prev : option loc) (cur : loc) (st : heap * Issues)
    : heap * Issues :=
  let '(h, s) := st in
  let '(h, s) :=
    match prev with
    | Some p =>
        if missing (close (deref h cur))
        then (store h cur (set_close (close (deref h p))), incr_nulls s)
        else (h, s)
    | None => (h, s)
    end in
  match prev with
  | Some p =>
      if missing (volume (deref h cur))
      then (store h cur (set_volume (volume (deref h p))), incr_nulls s)
      else (h, s)
  | None => (h, s)
  end.

Fixpoint fillLoop (prev : option loc) (rest : list loc) (st : heap * Issues)
    : heap * Issues :=
  match rest with
  | [] => st
  | cur :: rest' => fillLoop (Some cur) rest' (fillStep prev cur st)
  end.

Definition forwardFill (cleaned : list loc) (st : heap * Issues)
    : heap * Issues :=
  fillLoop None cleaned st.

(** The modified z-score of a close. *)
Definition zScore (median mad c : value) : number :=
  PrimFloat.abs ((toNumber c - toNumber median) / toNumber mad)%float.

Definition threshold : number := 3.5%float.

(** [z > 3.5] for the row behind [row]. *)
Definition isOutlier (h : heap) (median mad : value) (row : loc) : bool :=
  JS.gtb (zScore median mad (close (deref h row))) threshold.

(** The median of the window around [idx], read from [cleaned]. *)
Definition windowMedian (h : heap) (cleaned : list loc) (idx : nat) : value :=
  let win :=
    slice cleaned (Nat.max 0 (idx - 2)) (Nat.min (length cleaned) (idx + 3)) in
  middle (sortNum (closes h win)).

(** The callback of the outlier [cleaned.map] at [(row, idx)]. *)
Definition outlierStep (cleaned : list loc) (median mad : value)
    (row : loc) (idx : nat) (st : heap * Issues) : heap * Issues * loc :=
  let '(h, s) := st in
  if isOutlier h median mad row then
    let winMedian := windowMedian h cleaned idx in
    let '(h', fresh) := alloc h (set_close winMedian (deref h row)) in
    (h', incr_outliers s, fresh)
  else (h, s, row).

Fixpoint outlierMap (cleaned : list loc) (median mad : value) (idx : nat)
    (rest : list loc) (st : heap * Issues) : heap * Issues * list loc :=
  match rest with
  | [] => (st, [])
  | row :: rest' =>
      let '(st', row') := outlierStep cleaned median mad row idx st in
      let '(st'', out) := outlierMap cleaned median mad (S idx) rest' st' in
      (st'', row' :: out)
  end.

Definition globalMedian (h : heap) (cleaned : list loc) : value :=
  middle (sortNum (closes h cleaned)).

Definition deviations (median : value) (cs : list value) : list value :=
  map (fun v => VNum (PrimFloat.abs (toNumber v - toNumber median)%float)) cs.

(** The MAD with its guard, [sorted[...] || 1].  ([main.jsx] keeps the raw
    MAD and writes [(mad || 1)] in the division: the same divisor.) *)
Definition globalMad (h : heap) (cleaned : list loc) : value :=
  JS.or (middle (sortNum (deviations (globalMedian h cleaned)
                            (closes h cleaned))))
        (VNum JS.one).

Definition fixOutliers (cleaned : list loc) (st : heap * Issues)
    : heap * Issues * list loc :=
  let median := globalMedian st.1 cleaned in
  let mad := globalMad st.1 cleaned in
  outlierMap cleaned median mad 0 cleaned st.

Definition noIssues : Issues :=
  {| nulls := 0; duplicates := 0; outliers := 0 |}.

(** [cleanData(rawData)]: the heap after the call, the returned array and
    the returned report. *)
Definition cleanData (h : heap) (rawData : list loc)
    : heap * (list loc * Issues) :=
  let '(cleaned, s) := dedupe h ∅ rawData noIssues in
  let '(h, s) := forwardFill cleaned (h, s) in
  let '(h, s, cleaned) := fixOutliers cleaned (h, s) in
  (h, (cleaned, s)).

End Cleaning.

(** ** Indicator engine: [calculateTechnicalIndicators]

    The engine reads the rows of its argument and builds one new object per
    row; it writes to no existing object, so it is a function of the rows'
    contents. *)

(** [rows.reduce((s, d) => s + d.close, 0)] *)
Definition sumClose (rows : list Row) : number :=
  reduce (fun s d _ => s + toNumber (close d))%float rows JS.zero.

(** [xs.reduce((a, b) => a + b, 0)] *)
Definition sum (xs : list number) : number :=
  reduce (fun a b _ => a + b)%float xs JS.zero.

(** [arr.slice(i - (n - 1), i + 1).reduce((s, d) => s + d.close, 0) / n] *)
Definition sma (arr : list Row) (n i : nat) : number :=
  (sumClose (slice arr (i - (n - 1)) (i + 1)) / JS.of_nat n)%float.

(** [win.map((d, j, win) => (j ? d.close - win[j - 1].close : 0))] *)
Definition changes (win : list Row) : list number :=
  imap (fun j d =>
          match j with
          | O => JS.zero
          | S j' => (toNumber (close d) - toNumber (close (win !!! j')))%float
          end) win.

(** [gains.length ? gains.reduce((a, b) => a + b, 0) / 14 : 0] *)
Definition avgGain (changes : list number) : number :=
  let gains := filter (fun c => (0 <? c)%float = true) changes in
  match gains with
  | [] => JS.zero
  | _ => (sum gains / 14)%float
  end.

Definition avgLoss (changes : list number) : number :=
  let losses :=
    map PrimFloat.opp (filter (fun c => (c <? 0)%float = true) changes) in
  match losses with
  | [] => JS.zero
  | _ => (sum losses / 14)%float
  end.

(** [avgLoss === 0 ? 100 : avgGain / avgLoss] *)
Definition relativeStrength (avgGain avgLoss : number) : number :=
  if (avgLoss =? 0)%float then 100%float else (avgGain / avgLoss)%float.

Definition rsi14 (arr : list Row) (i : nat) : number :=
  let changes := changes (slice arr (i - 13) (i + 1)) in
  let rs := relativeStrength (avgGain changes) (avgLoss changes) in
  (100 - 100 / (JS.one + rs))%float.

Section Indicators.

Variable Math_sqrt : number -> number.

(** The standard deviation of the 20 closes that end at [i], around [mu]. *)
Definition std20 (arr : list Row) (mu : number) (i : nat) : number :=
  let vals := map close (slice arr (i - 19) (i + 1)) in
  let variance :=
    (reduce (fun s v _ => s + JS.sq (toNumber v - mu)) vals JS.zero
       / 20)%float in
  JS.sqrt Math_sqrt variance.

(** The callback of [arr.map] at [(row, i)]. *)
Definition indicatorRow (arr : list Row) (i : nat) (row : Row) : Row :=
  let sma10 := if bool_decide (9 <= i) then VNum (sma arr 10 i) else sma10 row in
  let sma20 := if bool_decide (19 <= i) then VNum (sma arr 20 i) else sma20 row in
  let sma50 := if bool_decide (49 <= i) then VNum (sma arr 50 i) else sma50 row in
  let rsi := if bool_decide (14 <= i) then VNum (rsi14 arr i) else rsi row in
  let bands := bool_decide (19 <= i) && JS.truthy sma20 in
  let mu := toNumber sma20 in
  let std := std20 arr mu i in
  {| date := date row; open := open row; high := high row; low := low row;
     close := close row; volume := volume row;
     sma10 := sma10; sma20 := sma20; sma50 := sma50; rsi := rsi;
     upperBand :=
       if bands then VNum (mu + 2 * std)%float else upperBand row;
     lowerBand :=
       if bands then VNum (mu - 2 * std)%float else lowerBand row;
     volatility := if bands then VNum std else volatility row |}.

Definition calculateTechnicalIndicators (arr : list Row) : list Row :=
  imap (indicatorRow arr) arr.

End Indicators.

(** ** Regression trainer *)

Record LinearModel : Type := { slope : number; intercept : number }.
Record PolyModel : Type := { coef_a : number; coef_b : number; coef_c : number }.

(** [model.predict(x)] *)
Definition predict (m : LinearModel) (x : number) : number :=
  (slope m * x + intercept m)%float.

Definition predictPoly (m : PolyModel) (x : number) : number :=
  (coef_a m * x * x + coef_b m * x + coef_c m)%float.

(** [x || d] on numbers. *)
Definition orElse (x d : number) : number :=
  toNumber (JS.or (VNum x) (VNum d)).

Definition sumXY (X : list number) (y : list value) : number :=
  reduce (fun s x i => s + x * toNumber (index y i))%float X JS.zero.

Definition sumX2 (X : list number) : number :=
  reduce (fun s x _ => s + x * x)%float X JS.zero.

Definition sumY (y : list value) : number :=
  reduce (fun a b _ => a + toNumber b)%float y JS.zero.

(** The slope denominator before its guard. *)
Definition olsDenominator (X : list number) : number :=
  (JS.of_nat (length X) * sumX2 X - sum X * sum X)%float.

(** [component/GoogleStockAnalysis.jsx]: the denominator is guarded. *)
Definition trainLinearRegression (X : list number) (y : list value)
    : LinearModel :=
  let n := JS.of_nat (length X) in
  let sumX := sum X in
  let sumY := sumY y in
  let sumXY := sumXY X y in
  let sumX2 := sumX2 X in
  let denom := orElse (n * sumX2 - sumX * sumX)%float JS.one in
  let slope := ((n * sumXY - sumX * sumY) / denom)%float in
  let intercept := ((sumY - slope * sumX) / n)%float in
  {| slope := slope; intercept := intercept |}.

Module Main.

(** [main.jsx]: the earlier copy, without the guard. *)
Definition trainLinearRegression (X : list number) (y : list value)
    : LinearModel :=
  let n := JS.of_nat (length X) in
  let sumX := sum X in
  let sumY := sumY y in
  let sumXY := sumXY X y in
  let sumX2 := sumX2 X in
  let slope :=
    ((n * sumXY - sumX * sumY) / (n * sumX2 - sumX * sumX))%float in
  let intercept := ((sumY - slope * sumX) / n)%float in
  {| slope := slope; intercept := intercept |}.

End Main.

(** ** Forecaster: the 30-step loop of the pipeline *)

Record ForecastPoint : Type := {
  day : nat;
  linear : number;
  polynomial : number;
  ensemble : number
}.

(** The body of the loop at step [i], for a cleaned series of [len] rows. *)
Definition forecastPoint (lin : LinearModel) (poly : PolyModel) (len i : nat)
    : ForecastPoint :=
  let idx := JS.of_nat (len + i - 1) in
  let l := predict lin idx in
  let p := predictPoly poly idx in
  {| day := i; linear := l; polynomial := p;
     ensemble := ((l + p) / 2)%float |}.

Definition forecast (lin : LinearModel) (poly : PolyModel) (len : nat)
    : list ForecastPoint :=
  map (forecastPoint lin poly len) (seq 1 30).

(** ** Signal engine: [generateSignal] *)

Inductive Action : Type := HOLD | BUY | SELL.

Record Notes : Type := {
  note_rsi : option string;
  note_sma20 : option string;
  note_sma50 : option string
}.

Record Signal : Type := {
  action : Action;
  probability : number;
  riskPct : number;
  targetPct : number;
  price : value;
  stop : number;
  target : number;
  notes : Notes
}.

(** [rows[i]] for an integer [i]: [undefined] ([None]) out of range. *)
Definition at_index {A : Type} (rows : list A) (i : Z) : option A :=
  if (i <? 0)%Z then None else rows !! Z.to_nat i.

(** [+x.toFixed(2)]: the number that the two-decimal string denotes. *)
Definition roundFixed2 (x : number) : number :=
  if is_nan x || is_infinity x || (1e21 <=? abs x)%float then x
  else
    let r :=
      match JS.scaled x 2 with
      | Z.pos n => JS.nearest_quotient n 100
      | _ => 0%float
      end in
    if (x <? 0)%float then (- r)%float else r.

Section SignalEngine.

Variable Number_toString : number -> string.

(** [v?.toFixed(f)] *)
Definition toFixedOpt (v : value) (f : nat) : option string :=
  match v with
  | VNum n => Some (JS.toFixed Number_toString n f)
  | _ => None
  end.

(** The truth value of
    [last.sma20 && last.sma50 && here(last.sma20, last.sma50)
       && before(prev.sma20, prev.sma50)];
    [None] is the TypeError of reading a property of [undefined]. *)
Definition crossover (here before : number -> number -> bool)
    (last : Row) (prev : option Row) : option bool :=
  if JS.truthy (sma20 last) && JS.truthy (sma50 last)
     && here (toNumber (sma20 last)) (toNumber (sma50 last))
  then p ← prev; Some (before (toNumber (sma20 p)) (toNumber (sma50 p)))
  else Some false.

Definition countVotes (families : list bool) : nat :=
  length (filter (fun b => b = true) families).

Definition generateSignal (rows : list Row) : option Signal :=
  let n := Z.of_nat (length rows) in
  last ← at_index rows (n - 1);
  let prev := at_index rows (n - 2) in
  let rsiBuy :=
    negb (is_undefined (rsi last))
    && (toNumber (rsi last) <? 35)%float in
  let rsiSell :=
    negb (is_undefined (rsi last))
    && JS.gtb (toNumber (rsi last)) 65%float in
  smaBull ← crossover JS.gtb PrimFloat.leb last prev;
  smaBear ← crossover PrimFloat.ltb JS.geb last prev;
  let action := if smaBull || rsiBuy then BUY else HOLD in
  let action := if smaBear || rsiSell then SELL else action in
  let votes := countVotes [rsiBuy || rsiSell; smaBull || smaBear] in
  let probability :=
    JS.min 90%float (50 + JS.of_nat votes * 20)%float in
  let vol := toNumber (JS.or (volatility last) (VNum JS.one)) in
  let riskPct :=
    JS.min 3%float (JS.max JS.one (vol * 0.5)%float) in
  let targetPct := (riskPct * 2)%float in
  let price := toNumber (close last) in
  let hundred := 100%float in
  let stop :=
    match action with
    | BUY => roundFixed2 (price * (JS.one - riskPct / hundred))%float
    | _ => roundFixed2 (price * (JS.one + riskPct / hundred))%float
    end in
  let target :=
    match action with
    | BUY => roundFixed2 (price * (JS.one + targetPct / hundred))%float
    | _ => roundFixed2 (price * (JS.one - targetPct / hundred))%float
    end in
  Some {| action := action; probability := probability;
          riskPct := riskPct; targetPct := targetPct;
          price := close last; stop := stop; target := target;
          notes := {| note_rsi := toFixedOpt (rsi last) 1;
                      note_sma20 := toFixedOpt (sma20 last) 2;
                      note_sma50 := toFixedOpt (sma50 last) 2 |} |}.

End SignalEngine.

(** ** Quadratic trainer: [trainPolynomialRegression] *)

(** The power sums that the loop accumulates. *)
Record PowerSums : Type := {
  ps_x : number;
  ps_x2 : number;
  ps_x3 : number;
  ps_x4 : number;
  ps_y : number;
  ps_xy : number;
  ps_x2y : number
}.

Definition noSums : PowerSums :=
  {| ps_x := JS.zero; ps_x2 := JS.zero; ps_x3 := JS.zero; ps_x4 := JS.zero;
     ps_y := JS.zero; ps_xy := JS.zero; ps_x2y := JS.zero |}.

(** The body of the loop at [x = X[i]], [yi = y[i]]. *)
Definition powerStep (y : list value) (acc : PowerSums) (x : number) (i : nat)
    : PowerSums :=
  let yi := toNumber (index y i) in
  let x2 := (x * x)%float in
  let x3 := (x2 * x)%float in
  let x4 := (x2 * x2)%float in
  {| ps_x := (ps_x acc + x)%float; ps_x2 := (ps_x2 acc + x2)%float;
     ps_x3 := (ps_x3 acc + x3)%float; ps_x4 := (ps_x4 acc + x4)%float;
     ps_y := (ps_y acc + yi)%float; ps_xy := (ps_xy acc + x * yi)%float;
     ps_x2y := (ps_x2y acc + x2 * yi)%float |}.

Definition powerSums (X : list number) (y : list value) : PowerSums :=
  reduce (powerStep y) X noSums.

(** [component/GoogleStockAnalysis.jsx] ([trainPolynomialRegression] and its
    second copy [trainPoly2]): every denominator but [n] is guarded. *)
Definition trainPolynomialRegression (X : list number) (y : list value)
    : PolyModel :=
  let n := JS.of_nat (length X) in
  let s := powerSums X y in
  let denom := orElse (ps_x2 s * ps_x2 s - n * ps_x4 s)%float JS.one in
  let a := ((ps_x2y s * ps_x2 s - ps_xy s * ps_x3 s) / denom)%float in
  let b := ((ps_xy s - a * ps_x2 s) / orElse (ps_x s) JS.one)%float in
  let c := ((ps_y s - b * ps_x s - a * ps_x2 s) / n)%float in
  {| coef_a := a; coef_b := b; coef_c := c |}.

(** [main.jsx]: the earlier copy of the quadratic trainer.  Its loop writes
    the fourth power as [x * x * x * x]; it tests its first denominator with
    [!== 0] and divides the second numerator by [sumX2]. *)
Module MainPoly.

Definition powerStep (y : list value) (acc : PowerSums) (x : number) (i : nat)
    : PowerSums :=
  let yi := toNumber (index y i) in
  {| ps_x := (ps_x acc + x)%float; ps_x2 := (ps_x2 acc + x * x)%float;
     ps_x3 := (ps_x3 acc + x * x * x)%float;
     ps_x4 := (ps_x4 acc + x * x * x * x)%float;
     ps_y := (ps_y acc + yi)%float; ps_xy := (ps_xy acc + x * yi)%float;
     ps_x2y := (ps_x2y acc + x * x * yi)%float |}.

Definition powerSums (X : list number) (y : list value) : PowerSums :=
  reduce (powerStep y) X noSums.

Definition trainPolynomialRegression (X : list number) (y : list value)
    : PolyModel :=
  let n := JS.of_nat (length X) in
  let s := powerSums X y in
  let denom := (ps_x2 s * ps_x2 s - n * ps_x4 s)%float in
  let a :=
    if negb (denom =? 0)%float
    then ((ps_x2y s * ps_x2 s - ps_xy s * ps_x3 s) / denom)%float
    else JS.zero in
  let b :=
    if negb (ps_x2 s =? 0)%float
    then ((ps_xy s - a * ps_x2 s) / ps_x2 s)%float
    else JS.zero in
  let c := ((ps_y s - b * ps_x s - a * ps_x2 s) / n)%float in
  {| coef_a := a; coef_b := b; coef_c := c |}.

End MainPoly.

(** ** The pipeline: split, fit, evaluate, forecast

    The stages after cleaning read the rows and write to none of them, so
    they are functions of the rows' contents. *)

(** [Math.floor(cleaned.length * 0.8)], with 0.8 the exact rational. *)
Definition splitIdx (len : nat) : nat :=
  Z.to_nat (Qfloor (inject_Z (Z.of_nat len) * (8 # 10))).

(** [train.map((_, i) => i)] and [test.map((_, i) => splitIdx + i)] *)
Definition indexFeature (from : nat) (rows : list Row) : list number :=
  imap (fun i _ => JS.of_nat (from + i)) rows.

(** [arr[i]] on an array of numbers: [undefined], that is NaN in
    arithmetic, out of range. *)
Definition indexNum (arr : list number) (i : nat) : number :=
  default nan (arr !! i).

(** [lin.map((p, i) => (p + poly[i]) / 2)] *)
Definition ensembleOf (lin poly : list number) : list number :=
  imap (fun i p => ((p + indexNum poly i) / 2)%float) lin.

Record SplitMetrics : Type := {
  onTrain : Metrics;
  onTest : Metrics
}.

Record PipelineResult : Type := {
  res_splitIdx : nat;
  res_linearModel : LinearModel;
  res_polyModel : PolyModel;
  res_linear : SplitMetrics;
  res_polynomial : SplitMetrics;
  res_ensemble : SplitMetrics;
  res_testLinear : list number;
  res_testPolynomial : list number;
  res_future : list ForecastPoint
}.

Section Pipeline.

Variable Math_sqrt : number -> number.
Variable Number_toString : number -> string.

(** The modelling part of the effect, from the cleaned rows on. *)
Definition runModels (cleaned : list Row) : PipelineResult :=
  let splitIdx := splitIdx (length cleaned) in
  let train := slice cleaned 0 splitIdx in
  let test := drop splitIdx cleaned in
  let Xtr := indexFeature 0 train in
  let Ytr := map close train in
  let Xte := indexFeature splitIdx test in
  let Yte := map close test in
  let lin := trainLinearRegression Xtr Ytr in
  let poly := trainPolynomialRegression Xtr Ytr in
  let trLin := map (predict lin) Xtr in
  let teLin := map (predict lin) Xte in
  let trPoly := map (predictPoly poly) Xtr in
  let tePoly := map (predictPoly poly) Xte in
  let ensTrain := ensembleOf trLin trPoly in
  let ensTest := ensembleOf teLin tePoly in
  let evaluate := fun actual predicted =>
    evaluateModel Math_sqrt Number_toString actual (map VNum predicted) in
  {| res_splitIdx := splitIdx;
     res_linearModel := lin;
     res_polyModel := poly;
     res_linear :=
       {| onTrain := evaluate Ytr trLin; onTest := evaluate Yte teLin |};
     res_polynomial :=
       {| onTrain := evaluate Ytr trPoly; onTest := evaluate Yte tePoly |};
     res_ensemble :=
       {| onTrain := evaluate Ytr ensTrain; onTest := evaluate Yte ensTest |};
     res_testLinear := teLin;
     res_testPolynomial := tePoly;
     res_future := forecast lin poly (length cleaned) |}.

End Pipeline.

(** ** The indicator engine of the live-data component: [sma], [indicators] *)

Module Live.

(** [i >= n - 1 ? arr.slice(i - (n - 1), i + 1).reduce((s, v) => s + v, 0) / n
              : undefined] *)
Definition sma (arr : list value) (n i : nat) : value :=
  if bool_decide (n - 1 <= i)
  then VNum (reduce (fun s v _ => s + toNumber v)%float
               (slice arr (i - (n - 1)) (i + 1)) JS.zero
             / JS.of_nat n)%float
  else VUndef.

Section Indicators.

Variable Math_sqrt : number -> number.

(** The callback of [data.map] at [(row, i)]. *)
Definition indicatorRow (data : list Row) (i : nat) (row : Row) : Row :=
  let closes := map close data in
  let sma10 := sma closes 10 i in
  let sma20 := sma closes 20 i in
  let sma50 := sma closes 50 i in
  let rsi := if bool_decide (14 <= i) then VNum (rsi14 data i) else rsi row in
  let bands := bool_decide (19 <= i) && JS.truthy sma20 in
  let mu := toNumber sma20 in
  let std := std20 Math_sqrt data mu i in
  {| date := date row; open := open row; high := high row; low := low row;
     close := close row; volume := volume row;
     sma10 := sma10; sma20 := sma20; sma50 := sma50; rsi := rsi;
     upperBand :=
       if bands then VNum (mu + 2 * std)%float else upperBand row;
     lowerBand :=
       if bands then VNum (mu - 2 * std)%float else lowerBand row;
     volatility := if bands then VNum std else volatility row |}.

Definition indicators (data : list Row) : list Row :=
  imap (indicatorRow data) data.

End Indicators.

End Live.

(** ** The first version of the cleaner: [cleanData] of [app.jsx]

    Deduplication and forward fill as above (with [=== null]); the outliers
    are found with the interquartile range and replaced by the mean of the
    two neighbours. *)

Module App.

(** [cleaned.indexOf(row)]: the first position of the object, or -1. *)
Definition indexOf (rows : list loc) (row : loc) : Z :=
  match list_find (fun x => x = row) rows with
  | Some (i, _) => Z.of_nat i
  | None => (-1)%Z
  end.

(** [closes[Math.floor(closes.length * 0.25)]] and
    [closes[Math.floor(closes.length * 0.75)]] of the sorted closes. *)
Definition q1 (sorted : list value) : value :=
  index sorted
    (Z.to_nat (Qfloor (inject_Z (Z.of_nat (length sorted)) * (25 # 100)))).

Definition q3 (sorted : list value) : value :=
  index sorted
    (Z.to_nat (Qfloor (inject_Z (Z.of_nat (length sorted)) * (75 # 100)))).

Definition lowerBound (h : heap) (cleaned : list loc) : number :=
  let sorted := sortNum (closes h cleaned) in
  let iqr := (toNumber (q3 sorted) - toNumber (q1 sorted))%float in
  (toNumber (q1 sorted) - 1.5 * iqr)%float.

Definition upperBound (h : heap) (cleaned : list loc) : number :=
  let sorted := sortNum (closes h cleaned) in
  let iqr := (toNumber (q3 sorted) - toNumber (q1 sorted))%float in
  (toNumber (q3 sorted) + 1.5 * iqr)%float.

(** [row.close < lowerBound || row.close > upperBound] *)
Definition isOutlier (lower upper : number) (h : heap) (row : loc) : bool :=
  (toNumber (close (deref h row)) <? lower)%float
  || JS.gtb (toNumber (close (deref h row))) upper.

(** [(cleaned[idx - 1].close + cleaned[idx + 1].close) / 2] *)
Definition neighbourMean (h : heap) (cleaned : list loc) (idx : Z) : number :=
  ((toNumber (close (deref h (cleaned !!! Z.to_nat (idx - 1))))
    + toNumber (close (deref h (cleaned !!! Z.to_nat (idx + 1)))))
   / 2)%float.

(** The callback of the outlier [cleaned.map] at [row]. *)
Definition outlierStep (cleaned : list loc) (lower upper : number)
    (row : loc) (st : heap * Issues) : heap * Issues * loc :=
  let '(h, s) := st in
  if isOutlier lower upper h row then
    let s := incr_outliers s in
    let idx := indexOf cleaned row in
    if (0 <? idx)%Z && (idx <? Z.of_nat (length cleaned) - 1)%Z then
      let '(h', fresh) :=
        alloc h (set_close (VNum (neighbourMean h cleaned idx)) (deref h row)) in
      (h', s, fresh)
    else (h, s, row)
  else (h, s, row).

Fixpoint outlierMap (cleaned : list loc) (lower upper : number)
    (rest : list loc) (st : heap * Issues) : heap * Issues * list loc :=
  match rest with
  | [] => (st, [])
  | row :: rest' =>
      let '(st', row') := outlierStep cleaned lower upper row st in
      let '(st'', out) := outlierMap cleaned lower upper rest' st' in
      (st'', row' :: out)
  end.

Definition fixOutliers (cleaned : list loc) (st : heap * Issues)
    : heap * Issues * list loc :=
  outlierMap cleaned (lowerBound st.1 cleaned) (upperBound st.1 cleaned)
    cleaned st.

Definition cleanData (h : heap) (rawData : list loc)
    : heap * (list loc * Issues) :=
  let '(cleaned, s) := dedupe h ∅ rawData noIssues in
  let '(h, s) := forwardFill JS.is_null cleaned (h, s) in
  let '(h, s, cleaned) := fixOutliers cleaned (h, s) in
  (h, (cleaned, s)).

End App.

(** ** The data source helper [stooqTicker] *)

Section DataSources.

(** [String.prototype.toLowerCase] *)
Variable toLowerCase : string -> string.

Definition stooqTicker (symbol : string) : string :=
  if String.eqb (toLowerCase symbol) "googl" then "googl.us"
  else toLowerCase symbol +:+ ".us".

End DataSources.

(** ** Instances of the parameters

    Used to run the model on concrete inputs: the correctly rounded square
    root [PrimFloat.sqrt], and the integer part in decimal digits. *)

Definition toString_integer (x : number) : string :=
  JS.digits 1 (Qfloor (JS.magnitude x)).

(** ** Numbers as the format specifies them *)

(** The exponent of the format for a number of the given magnitude. *)
Abbreviation fexp64 := (fexp prec emax).

(** The sign of a number that is not NaN. *)
Definition has_sign (s : bool) (x : spec_float) : Prop :=
  match x with
  | S754_nan => False
  | S754_zero s' | S754_infinity s' | S754_finite s' _ _ => s' = s
  end.

(** NaN, or a number whose sign bit is clear. *)
Definition nonneg_or_nan (x : spec_float) : Prop :=
  match x with
  | S754_nan => True
  | S754_zero s | S754_infinity s | S754_finite s _ _ => s = false
  end.

Section Values.

Local Open Scope Z_scope.

(** Every exponent met in the operations is above [- scale_exp]. *)
Definition scale_exp : Z := 2200.

(** [pow2 e] is [2 ^ (e + scale_exp)]: the value of one unit of exponent
    [e], in units of [2 ^ - scale_exp]. *)
Definition pow2 (e : Z) : Z := 2 ^ (e + scale_exp).

(** The value of a number in these units; the infinities are placed beyond
    every finite number of the format. *)
Definition SF2Z (x : spec_float) : Z :=
  match x with
  | S754_zero _ | S754_nan => 0
  | S754_infinity s => cond_Zopp s (pow2 1100)
  | S754_finite s m e => cond_Zopp s (Z.pos m * pow2 e)
  end.

Definition F2Z (x : float) : Z := SF2Z (Prim2SF x).

(** [b] is [a] shifted by [k] bits: the mantissa is divided by [2 ^ k], and
    [b] records no lost bit exactly when [a] recorded none and the division
    is exact. *)
Definition shifted (k : Z) (a b : shr_record) : Prop :=
  shr_m b = shr_m a / 2 ^ k
  /\ (loc_of_shr_record b = loc_Exact
      <-> loc_of_shr_record a = loc_Exact /\ shr_m a = shr_m b * 2 ^ k).

(** A number of the format that is zero or finite. *)
Definition SFfinite (x : spec_float) : Prop :=
  valid_binary x = true
  /\ match x with S754_zero _ | S754_finite _ _ _ => True | _ => False end.

End Values.

(** A number that is not NaN and whose sign bit is clear. *)
Definition nonneg (x : number) : Prop := has_sign false (Prim2SF x).

(** NaN, or such a number. *)
Definition nonneg_nan (x : number) : Prop := nonneg_or_nan (Prim2SF x).

(** ** The specification's wording, for comparison with the code *)

(** A value that reads as a finite number: a finite number, or [null]. *)
Definition numeric (v : value) : Prop := JS.finite (toNumber v).

(** Signal engine: the RSI rule family has a vote when RSI < 35 or RSI > 65;
    the crossover family has a vote when SMA20 crosses SMA50 between the
    previous and the current record, upwards or downwards. *)
Definition spec_rsiVote (last : Row) : bool :=
  (toNumber (rsi last) <? 35)%float || (65 <? toNumber (rsi last))%float.

Definition spec_crossoverVote (prev last : Row) : bool :=
  ((toNumber (sma20 prev) <=? toNumber (sma50 prev))%float
   && (toNumber (sma50 last) <? toNumber (sma20 last))%float)
  || ((toNumber (sma50 prev) <=? toNumber (sma20 prev))%float
      && (toNumber (sma20 last) <? toNumber (sma50 last))%float).

(** Confidence = 50 + 20 x (families with a vote), capped at 90. *)
Definition spec_confidence (prev last : Row) : nat :=
  Nat.min 90
    (50 + 20 * (Nat.b2n (spec_rsiVote last)
                + Nat.b2n (spec_crossoverVote prev last))).

(** The same count when a crossing is looked for only if the current record
    has a truthy SMA20 and a truthy SMA50. *)
Definition guarded_crossoverVote (prev last : Row) : bool :=
  JS.truthy (sma20 last) && JS.truthy (sma50 last)
  && spec_crossoverVote prev last.

Definition guarded_confidence (prev last : Row) : nat :=
  Nat.min 90
    (50 + 20 * (Nat.b2n (spec_rsiVote last)
                + Nat.b2n (guarded_crossoverVote prev last))).

(** Sums as a loop computes them: from 0, left to right, each addition
    rounded. *)
Definition spec_sum (xs : list number) : number :=
  foldl PrimFloat.add 0%float xs.

(** Regression trainer: the closed form, each operation rounded, with [d]
    the slope denominator in use. *)
Definition spec_denominator (xs : list number) : number :=
  (JS.of_nat (length xs) * spec_sum (map (fun x => x * x) xs)
   - spec_sum xs * spec_sum xs)%float.

Definition spec_slope (xs ys : list number) (d : number) : number :=
  ((JS.of_nat (length xs) * spec_sum (zip_with PrimFloat.mul xs ys)
    - spec_sum xs * spec_sum ys) / d)%float.

Definition spec_intercept (xs ys : list number) (slope : number) : number :=
  ((spec_sum ys - slope * spec_sum xs) / JS.of_nat (length xs))%float.

(** Cleaning engine: the number of fields of the object behind [l] that the
    forward fill finds missing, and the report's count for a series whose
    first row has no predecessor. *)
Definition missingFields (missing : value -> bool) (h : heap) (l : loc) : nat :=
  Nat.b2n (missing (close (deref h l))) + Nat.b2n (missing (volume (deref h l))).

Definition spec_nullsFilled (missing : value -> bool) (h : heap)
    (cleaned : list loc) : nat :=
  sum_list_with (missingFields missing h) (tail cleaned).

Definition dates (h : heap) (rows : list loc) : list string :=
  map (fun l => date (deref h l)) rows.



Definition spec_zScore (median mad c : number) : number :=
  (abs (c - median) / mad)%float.

Definition spec_isOutlier (median mad c : number) : bool :=
  (3.5 <? spec_zScore median mad c)%float.



(** The order of the sorted copy. *)
Definition value_le (a b : value) : Prop :=
  (F2Z (toNumber a) <= F2Z (toNumber b))%Z.




(** Indicator engine: the closes of the 20-row window that ends at [i], and
    the population mean and variance of 20 closes. *)
Definition window20 (arr : list Row) (i : nat) : list number :=
  map (fun r => toNumber (close r)) (slice arr (i - 19) (i + 1)).

Definition spec_mean20 (cs : list number) : number :=
  (spec_sum cs / 20)%float.

Definition spec_variance20 (cs : list number) (mu : number) : number :=
  (spec_sum (map (fun c => (c - mu) * (c - mu)) cs) / 20)%float.

(** Indicator engine: the changes between consecutive closes, for the rows
    [from + 1 .. from + n]. *)
Definition spec_changes (arr : list Row) (from n : nat) : list number :=
  map (fun j => (toNumber (close (arr !!! j))
                 - toNumber (close (arr !!! (j - 1)%nat)))%float)
      (seq (from + 1) n).

(** The sum of the changes that pass [keep], as magnitudes, over 14. *)
Definition spec_average (keep : number -> bool) (cs : list number) : number :=
  match filter (fun c => keep c = true) cs with
  | [] => 0%float
  | kept => (spec_sum (map abs kept) / 14)%float
  end.

(** ** Sample data *)

Definition day_name (k : nat) : string :=
  String.append "day-" (NilZero.string_of_uint (Nat.to_uint k)).

(** A series of fifty-two rows; row [k] closes at [100 + k mod 7 - k mod 3]. *)
Definition sample_close (k : nat) : number :=
  JS.of_nat (100 + k mod 7 - k mod 3).

Definition sample_series : list Row :=
  map (fun k =>
         mkRow (day_name k) VNull VNull VNull (VNum (sample_close k))
           (VNum 1000%float))
      (seq 0 52).

(** A raw series of three rows; the second one has neither close nor
    volume. *)
Definition sample_heap : heap :=
  [ mkRow "2024-01-02" (VNum 10%float) (VNum 11%float) (VNum 9%float)
      (VNum 10%float) (VNum 500%float);
    mkRow "2024-01-03" (VNum 10%float) (VNum 12%float) (VNum 10%float)
      VNull VNull;
    mkRow "2024-01-04" (VNum 11%float) (VNum 13%float) (VNum 11%float)
      (VNum 12%float) (VNum 700%float) ].

Definition sample_raw : list loc := [0; 1; 2].

(** The specification's end-to-end scenario: ten rows with closes
    10, 11, 12, null, 14, 15, 16, 17, 18, 100, and the row of index 5 passed
    a second time. *)
Definition scenario_heap : heap :=
  imap (fun k c => mkRow (day_name k) VNull VNull VNull c (VNum 1000%float))
    [VNum 10%float; VNum 11%float; VNum 12%float; VNull; VNum 14%float;
     VNum 15%float; VNum 16%float; VNum 17%float; VNum 18%float;
     VNum 100%float].

Definition scenario_raw : list loc := seq 0 10 ++ [5].

(** Series with a prescribed close per row. *)
Definition series_of (f : nat -> number) (n : nat) : list Row :=
  map (fun k => mkRow (day_name k) VNull VNull VNull (VNum (f k))
                  (VNum 1000%float))
      (seq 0 n).

Definition rising_series : list Row :=
  series_of (fun k => JS.of_nat (100 + k)) 20.

(** Twenty rows whose closes alternate between 0 and 1.7e308. *)
Definition overflowing_series : list Row :=
  series_of (fun k => if Nat.even k then 0%float else 1.7e308%float) 20.

(** The metrics of an evaluation in which every quantity is NaN. *)
Definition nanMetrics : Metrics :=
  {| mse := "NaN"; rmse := "NaN"; r2 := "NaN"; mae := "NaN" |}.

(** The action of the RSI family alone: SELL above 65, BUY below 35. *)
Definition spec_rsiAction (last : Row) : Action :=
  if (65 <? toNumber (rsi last))%float then SELL
  else if (toNumber (rsi last) <? 35)%float then BUY
  else HOLD.

(** ** The index feature, checked by computation *)

(** The number of an integer below 2^63. *)
Definition of_Z (z : Z) : number := PrimFloat.of_uint63 (Uint63.of_Z z).

(** The sums of the indices [0 .. n-1] and of their squares, as a loop adds
    them up: from 0, in order, each operation rounded. *)
Fixpoint indexSums (n : nat) : number * number :=
  match n with
  | O => (0%float, 0%float)
  | S k =>
      let s := indexSums k in
      ((s.1 + JS.of_nat k)%float, (s.2 + JS.of_nat k * JS.of_nat k)%float)
  end.

(** For [m] indices with the sums [s], the slope denominator is the number
    m^2 (m^2 - 1) / 12, and it is not zero. *)
Definition denominator_ok (m : Z) (s : number * number) : bool :=
  let d := (of_Z m * s.2 - s.1 * s.1)%float in
  (d =? of_Z (m * m * (m * m - 1) / 12))%float && negb (PrimFloat.is_zero d).

(** The same test for every length from 2 to [n], in one pass that counts
    the indices as it adds them up. *)
Fixpoint indexCheck (n : nat) : (Z * (number * number)) * bool :=
  match n with
  | O => ((0%Z, (0%float, 0%float)), true)
  | S k =>
      let r := indexCheck k in
      let z := r.1.1 in
      let s := ((r.1.2.1 + of_Z z)%float, (r.1.2.2 + of_Z z * of_Z z)%float) in
      ((z + 1)%Z, s, r.2 && ((z + 1 <=? 1)%Z || denominator_ok (z + 1) s))
  end.

(** [Math.floor] of a number that is finite and not negative, as an
    integer. *)
Definition floorZ (x : number) : Z :=
  match Prim2SF x with
  | S754_finite false m (Z.neg e) => (Z.pos m / 2 ^ Z.pos e)%Z
  | S754_finite false m e => (Z.pos m * 2 ^ e)%Z
  | _ => 0%Z
  end.

(** * Binary64 arithmetic *)

(** ** The specification view of a number *)

Lemma has_sign_nonneg x : has_sign false x -> nonneg_or_nan x.
Proof. by destruct x. Qed.

(** *** Shifting keeps a mantissa non-negative *)

Lemma shr_1_nonneg mrs : (0 <= shr_m mrs)%Z -> (0 <= shr_m (shr_1 mrs))%Z.
Proof.
  destruct mrs as [m r s]. simpl.
  destruct m as [|[p|p|]|p]; simpl; lia.
Qed.

Lemma iter_pos_nonneg p mrs :
  (0 <= shr_m mrs)%Z -> (0 <= shr_m (SpecFloat.iter_pos shr_1 p mrs))%Z.
Proof.
  revert mrs. induction p as [p IH|p IH|]; intros mrs H; simpl.
  - apply IH, IH. by apply shr_1_nonneg.
  - by apply IH, IH.
  - by apply shr_1_nonneg.
Qed.

Lemma shr_record_of_loc_m m l : shr_m (shr_record_of_loc m l) = m.
Proof. by destruct l as [|[]]. Qed.

Lemma shr_nonneg mrs e n :
  (0 <= shr_m mrs)%Z -> (0 <= shr_m (shr mrs e n).1)%Z.
Proof.
  intros H. destruct n; simpl; try done. by apply iter_pos_nonneg.
Qed.

Lemma shr_fexp_nonneg m e l :
  (0 <= m)%Z -> (0 <= shr_m (shr_fexp prec emax m e l).1)%Z.
Proof.
  intros H. unfold shr_fexp. apply shr_nonneg. by rewrite shr_record_of_loc_m.
Qed.

Lemma round_nearest_even_bounds m l :
  (m <= round_nearest_even m l <= m + 1)%Z.
Proof.
  destruct l as [|[]]; simpl; try lia. destruct (Z.even m); lia.
Qed.

(** Rounding a non-negative mantissa gives the sign it is told, never NaN. *)
Lemma binary_round_aux_sign s m e l :
  (0 <= m)%Z -> has_sign s (binary_round_aux prec emax s m e l).
Proof.
  intros Hm. unfold binary_round_aux.
  pose proof (shr_fexp_nonneg m e l Hm) as H1.
  destruct (shr_fexp prec emax m e l) as [mrs' e'].
  pose proof (round_nearest_even_bounds (shr_m mrs') (loc_of_shr_record mrs')) as Hr.
  simpl in H1.
  pose proof (shr_fexp_nonneg (round_nearest_even (shr_m mrs') (loc_of_shr_record mrs'))
                e' loc_Exact ltac:(lia)) as H2.
  destruct (shr_fexp prec emax _ e' loc_Exact) as [mrs'' e''].
  simpl in H2.
  destruct (shr_m mrs''); [done| |lia].
  by destruct (e'' <=? emax - prec)%Z.
Qed.

Lemma binary_round_sign s m e : has_sign s (binary_round prec emax s m e).
Proof.
  unfold binary_round. destruct (shl_align _ _ _) as [mz ez].
  by apply binary_round_aux_sign.
Qed.

Lemma binary_normalize_sign m e :
  (0 <= m)%Z -> has_sign false (binary_normalize prec emax m e false).
Proof.
  intros H. destruct m; [done| |lia]. apply binary_round_sign.
Qed.

(** ** Classes of the results of the operations *)

Lemma SFadd_nonneg x y :
  nonneg_or_nan x -> nonneg_or_nan y -> nonneg_or_nan (SF64add x y).
Proof.
  destruct x as [[]|[]| |[] mx ex], y as [[]|[]| |[] my ey]; simpl; try done.
  intros _ _. apply has_sign_nonneg, binary_round_sign.
Qed.

Lemma SFmul_self_nonneg x : nonneg_or_nan (SF64mul x x).
Proof.
  destruct x as [[]|[]| |s mx ex]; simpl; try done.
  apply has_sign_nonneg.
  assert (xorb s s = false) as -> by by destruct s.
  by apply binary_round_aux_sign.
Qed.

Lemma SFabs_nonneg x : nonneg_or_nan (SFabs x).
Proof. by destruct x. Qed.

Lemma div_eucl_nonneg a b : (0 <= a)%Z -> (0 < b)%Z -> (0 <= (Z.div_eucl a b).1)%Z.
Proof.
  intros Ha Hb. change ((Z.div_eucl a b).1) with (a / b)%Z.
  apply Z.div_pos; lia.
Qed.

Lemma SFdiv_core_nonneg m1 e1 m2 e2 :
  (0 <= (SFdiv_core_binary prec emax (Z.pos m1) e1 (Z.pos m2) e2).1.1)%Z.
Proof.
  unfold SFdiv_core_binary.
  set (s := (e1 - e2 - _)%Z).
  set (m' := match s with Z.pos _ => Z.shiftl (Z.pos m1) s | 0%Z => Z.pos m1 | _ => 0%Z end).
  assert (0 <= m')%Z as Hm'.
  { unfold m'. destruct s; try lia. apply Z.shiftl_nonneg. lia. }
  pose proof (div_eucl_nonneg m' (Z.pos m2) Hm' ltac:(lia)) as H.
  destruct (Z.div_eucl m' (Z.pos m2)) as [q r]. done.
Qed.

Lemma SFdiv_sign sx mx ex sy my ey :
  has_sign (xorb sx sy)
    (SF64div (S754_finite sx mx ex) (S754_finite sy my ey)).
Proof.
  unfold SF64div, SFdiv.
  pose proof (SFdiv_core_nonneg mx ex my ey) as H.
  destruct (SFdiv_core_binary _ _ _ _ _ _) as [[mz ez] lz].
  by apply binary_round_aux_sign.
Qed.

Lemma SFdiv_nonneg x y :
  nonneg_or_nan x -> nonneg_or_nan y -> nonneg_or_nan (SF64div x y).
Proof.
  destruct x as [[]|[]| |[] mx ex], y as [[]|[]| |[] my ey]; try done.
  intros _ _. apply has_sign_nonneg. apply (SFdiv_sign false _ _ false).
Qed.

Section Binary64.

Local Open Scope Z_scope.

(** ** The value of a number, on a fixed integer scale *)

Lemma pow2_pos e : - scale_exp <= e -> 0 < pow2 e.
Proof. intros H. unfold pow2. apply Z.pow_pos_nonneg; lia. Qed.

Lemma pow2_add e n :
  - scale_exp <= e -> 0 <= n -> pow2 (e + n) = pow2 e * 2 ^ n.
Proof.
  intros He Hn. unfold pow2.
  replace (e + n + scale_exp) with (e + scale_exp + n) by lia.
  apply Z.pow_add_r; lia.
Qed.

Lemma pow2_le e e' : - scale_exp <= e -> e <= e' -> pow2 e <= pow2 e'.
Proof. intros He H. unfold pow2. apply Z.pow_le_mono_r; lia. Qed.

Lemma pow2_succ e : - scale_exp <= e -> pow2 (e + 1) = 2 * pow2 e.
Proof. intros He. rewrite pow2_add by lia. simpl. lia. Qed.

Lemma pow2_lt e e' : - scale_exp <= e -> e < e' -> 2 * pow2 e <= pow2 e'.
Proof.
  intros He H. rewrite <- pow2_succ by done. apply pow2_le; lia.
Qed.

(** *** The number of bits of a mantissa *)

Lemma digits2_pos_bounds m :
  2 ^ (Z.pos (digits2_pos m) - 1) <= Z.pos m < 2 ^ Z.pos (digits2_pos m).
Proof.
  induction m as [m IH|m IH|]; simpl digits2_pos.
  - rewrite Pos2Z.inj_succ.
    replace (Z.succ (Z.pos (digits2_pos m)) - 1) with (Z.succ (Z.pos (digits2_pos m) - 1)) by lia.
    rewrite !Z.pow_succ_r by lia. lia.
  - rewrite Pos2Z.inj_succ.
    replace (Z.succ (Z.pos (digits2_pos m)) - 1) with (Z.succ (Z.pos (digits2_pos m) - 1)) by lia.
    rewrite !Z.pow_succ_r by lia. lia.
  - simpl. lia.
Qed.

Lemma Zdigits2_bounds m :
  0 < m -> 2 ^ (Zdigits2 m - 1) <= m < 2 ^ Zdigits2 m.
Proof. destruct m; try lia. intros _. apply digits2_pos_bounds. Qed.

(** A mantissa below [2 ^ k] has at most [k] bits, and conversely. *)
Lemma digits2_pos_le m k :
  0 <= k -> Z.pos m < 2 ^ k -> Z.pos (digits2_pos m) <= k.
Proof.
  intros Hk H. destruct (Z_le_gt_dec (Z.pos (digits2_pos m)) k) as [|Hgt]; [done|].
  pose proof (digits2_pos_bounds m) as [Hlo _].
  assert (2 ^ k <= 2 ^ (Z.pos (digits2_pos m) - 1)) by (apply Z.pow_le_mono_r; lia).
  lia.
Qed.

Lemma digits2_pos_ge m k :
  2 ^ k <= Z.pos m -> k < Z.pos (digits2_pos m).
Proof.
  intros H. destruct (Z_lt_le_dec k (Z.pos (digits2_pos m))) as [|Hle]; [done|].
  pose proof (digits2_pos_bounds m) as [_ Hhi].
  assert (2 ^ Z.pos (digits2_pos m) <= 2 ^ k) by (apply Z.pow_le_mono_r; lia).
  lia.
Qed.

(** *** The numbers of the format *)

Lemma bounded_inv m e :
  bounded prec emax m e = true ->
  -1074 <= e <= 971
  /\ Z.pos (digits2_pos m) <= 53
  /\ (-1074 < e -> Z.pos (digits2_pos m) = 53).
Proof.
  unfold bounded, canonical_mantissa, fexp, SpecFloat.emin, prec, emax.
  intros [H1 H2]%andb_prop. apply Z.eqb_eq in H1. apply Z.leb_le in H2. lia.
Qed.

Lemma bounded_mantissa m e :
  bounded prec emax m e = true ->
  Z.pos m < 2 ^ 53 /\ (-1074 < e -> 2 ^ 52 <= Z.pos m).
Proof.
  intros (He & Hd & Hn)%bounded_inv.
  pose proof (digits2_pos_bounds m) as [Hlo Hhi].
  split.
  - eapply Z.lt_le_trans; [exact Hhi|]. apply Z.pow_le_mono_r; lia.
  - intros H. rewrite (Hn H) in Hlo. exact Hlo.
Qed.

(** Finite numbers of the format are below the place of the infinities. *)
Lemma bounded_value m e :
  bounded prec emax m e = true -> 0 < Z.pos m * pow2 e < pow2 1100.
Proof.
  intros Hb. pose proof (bounded_inv _ _ Hb) as (He & _ & _).
  pose proof (bounded_mantissa _ _ Hb) as [Hm _].
  pose proof (pow2_pos e ltac:(unfold scale_exp; lia)) as Hp.
  split; [lia|].
  assert (pow2 (e + 53) <= pow2 1100) as Hle
    by (apply pow2_le; unfold scale_exp; lia).
  rewrite pow2_add in Hle by (unfold scale_exp; lia). nia.
Qed.

(** The order of two numbers of the format with the same sign is the order
    of their values. *)
Lemma compare_bounded m1 e1 m2 e2 :
  bounded prec emax m1 e1 = true -> bounded prec emax m2 e2 = true ->
  match e1 ?= e2 with
  | Lt => Lt
  | Gt => Gt
  | Eq => Pos.compare_cont Eq m1 m2
  end = (Z.pos m1 * pow2 e1 ?= Z.pos m2 * pow2 e2).
Proof.
  intros H1 H2.
  pose proof (bounded_inv _ _ H1) as (He1 & _ & _).
  pose proof (bounded_inv _ _ H2) as (He2 & _ & _).
  pose proof (bounded_mantissa _ _ H1) as [Hm1 Hn1].
  pose proof (bounded_mantissa _ _ H2) as [Hm2 Hn2].
  pose proof (pow2_pos e1 ltac:(unfold scale_exp; lia)) as Hp1.
  pose proof (pow2_pos e2 ltac:(unfold scale_exp; lia)) as Hp2.
  destruct (Z.compare_spec e1 e2) as [->|Hlt|Hgt].
  - change (Pos.compare_cont Eq m1 m2) with (Z.pos m1 ?= Z.pos m2).
    symmetry. destruct (Z.compare_spec (Z.pos m1) (Z.pos m2)) as [E|E|E].
    + rewrite E. apply Z.compare_refl.
    + apply Z.compare_lt_iff. nia.
    + apply Z.compare_gt_iff. nia.
  - symmetry. apply Z.compare_lt_iff.
    pose proof (pow2_lt e1 e2 ltac:(unfold scale_exp; lia) Hlt).
    specialize (Hn2 ltac:(lia)). nia.
  - symmetry. apply Z.compare_gt_iff.
    pose proof (pow2_lt e2 e1 ltac:(unfold scale_exp; lia) ltac:(lia)).
    specialize (Hn1 ltac:(lia)). nia.
Qed.

Lemma SFcompare_value x y :
  valid_binary x = true -> valid_binary y = true ->
  x <> S754_nan -> y <> S754_nan ->
  SFcompare x y = Some (SF2Z x ?= SF2Z y).
Proof.
  intros Hx Hy Nx Ny.
  assert (0 < pow2 1100) as Hinf by (apply pow2_pos; unfold scale_exp; lia).
  destruct x as [sx|sx| |sx mx ex], y as [sy|sy| |sy my ey]; try done;
    cbn [SFcompare SF2Z]; f_equal; symmetry;
    try (pose proof (bounded_value _ _ Hx) as Bx);
    try (pose proof (bounded_value _ _ Hy) as By).
  all: try (destruct sx; cbn [cond_Zopp];
              first [apply Z.compare_lt_iff; lia | apply Z.compare_gt_iff; lia
                    | apply Z.compare_eq_iff; lia]).
  all: try (destruct sy; cbn [cond_Zopp];
              first [apply Z.compare_lt_iff; lia | apply Z.compare_gt_iff; lia
                    | apply Z.compare_eq_iff; lia]).
  all: try (destruct sx, sy; cbn [cond_Zopp];
              first [apply Z.compare_lt_iff; lia | apply Z.compare_gt_iff; lia
                    | apply Z.compare_eq_iff; lia]).
  destruct sx, sy; cbn [cond_Zopp].
  - assert (match ex ?= ey with
            | Lt => Gt | Gt => Lt
            | Eq => CompOpp (Pos.compare_cont Eq mx my)
            end
            = CompOpp (match ex ?= ey with
                       | Lt => Lt | Gt => Gt
                       | Eq => Pos.compare_cont Eq mx my
                       end)) as -> by (by destruct (ex ?= ey)).
    rewrite (compare_bounded _ _ _ _ Hx Hy).
    destruct (Z.compare_spec (Z.pos mx * pow2 ex) (Z.pos my * pow2 ey)) as [E|E|E];
      cbn [CompOpp].
    + apply Z.compare_eq_iff. lia.
    + apply Z.compare_gt_iff. lia.
    + apply Z.compare_lt_iff. lia.
  - apply Z.compare_lt_iff; lia.
  - apply Z.compare_gt_iff; lia.
  - by rewrite (compare_bounded _ _ _ _ Hx Hy).
Qed.

(** ** Comparisons and classes of numbers, through their values *)

Lemma SFcompare_refl x : x <> S754_nan -> SFcompare x x = Some Eq.
Proof.
  destruct x as [[]|[]| |[] m e]; try done; intros _; simpl;
    by rewrite Z.compare_refl, ?Pos.compare_cont_refl.
Qed.

Lemma is_nan_spec x :
  is_nan x = match Prim2SF x with S754_nan => true | _ => false end.
Proof.
  unfold is_nan. rewrite FloatAxioms.eqb_spec. unfold SFeqb.
  destruct (Prim2SF x) eqn:E; try done;
    by rewrite SFcompare_refl.
Qed.

Lemma is_nan_false x : is_nan x = false <-> Prim2SF x <> S754_nan.
Proof. rewrite is_nan_spec. by destruct (Prim2SF x). Qed.

Lemma is_nan_true x : is_nan x = true <-> x = nan.
Proof.
  split; [|by intros ->].
  rewrite is_nan_spec. intros H. apply Prim2SF_inj.
  by destruct (Prim2SF x).
Qed.

Lemma Prim2SF_nan x : Prim2SF x = S754_nan -> x = nan.
Proof. intros H. apply Prim2SF_inj. by rewrite H. Qed.

Lemma compare_value x y :
  is_nan x = false -> is_nan y = false ->
  SFcompare (Prim2SF x) (Prim2SF y) = Some (F2Z x ?= F2Z y).
Proof.
  intros Hx%is_nan_false Hy%is_nan_false.
  apply SFcompare_value; auto using Prim2SF_valid.
Qed.

Lemma ltb_value x y :
  is_nan x = false -> is_nan y = false -> (x <? y)%float = (F2Z x <? F2Z y).
Proof.
  intros Hx Hy. rewrite FloatAxioms.ltb_spec. unfold SFltb. by rewrite compare_value.
Qed.

Lemma leb_value x y :
  is_nan x = false -> is_nan y = false -> (x <=? y)%float = (F2Z x <=? F2Z y).
Proof.
  intros Hx Hy. rewrite FloatAxioms.leb_spec. unfold SFleb, Z.leb. rewrite compare_value by done.
  by destruct (F2Z x ?= F2Z y).
Qed.

Lemma eqb_value x y :
  is_nan x = false -> is_nan y = false -> (x =? y)%float = (F2Z x =? F2Z y).
Proof.
  intros Hx Hy. rewrite FloatAxioms.eqb_spec. unfold SFeqb.
  rewrite compare_value by done.
  destruct (Z.eqb_spec (F2Z x) (F2Z y)) as [->|Hne].
  - by rewrite Z.compare_refl.
  - by destruct (Z.compare_spec (F2Z x) (F2Z y)).
Qed.

(** A comparison with NaN is false. *)
Lemma SFcompare_nan_l y : SFcompare S754_nan y = None.
Proof. done. Qed.

Lemma SFcompare_nan_r x : SFcompare x S754_nan = None.
Proof. by destruct x. Qed.

Lemma ltb_true_not_nan x y :
  (x <? y)%float = true -> is_nan x = false /\ is_nan y = false.
Proof.
  rewrite FloatAxioms.ltb_spec, !is_nan_spec. unfold SFltb.
  destruct (Prim2SF x), (Prim2SF y); try done.
Qed.

Lemma leb_true_not_nan x y :
  (x <=? y)%float = true -> is_nan x = false /\ is_nan y = false.
Proof.
  rewrite FloatAxioms.leb_spec, !is_nan_spec. unfold SFleb.
  destruct (Prim2SF x), (Prim2SF y); try done.
Qed.

Lemma eqb_true_not_nan x y :
  (x =? y)%float = true -> is_nan x = false /\ is_nan y = false.
Proof.
  rewrite FloatAxioms.eqb_spec, !is_nan_spec. unfold SFeqb.
  destruct (Prim2SF x), (Prim2SF y); try done.
Qed.

Lemma ltb_true x y : (x <? y)%float = true <-> is_nan x = false /\ is_nan y = false /\ F2Z x < F2Z y.
Proof.
  split.
  - intros H. destruct (ltb_true_not_nan _ _ H) as [Hx Hy].
    rewrite ltb_value in H by done. apply Z.ltb_lt in H. done.
  - intros (Hx & Hy & H). rewrite ltb_value by done. by apply Z.ltb_lt.
Qed.

Lemma leb_true x y : (x <=? y)%float = true <-> is_nan x = false /\ is_nan y = false /\ F2Z x <= F2Z y.
Proof.
  split.
  - intros H. destruct (leb_true_not_nan _ _ H) as [Hx Hy].
    rewrite leb_value in H by done. apply Z.leb_le in H. done.
  - intros (Hx & Hy & H). rewrite leb_value by done. by apply Z.leb_le.
Qed.

Lemma eqb_true x y : (x =? y)%float = true <-> is_nan x = false /\ is_nan y = false /\ F2Z x = F2Z y.
Proof.
  split.
  - intros H. destruct (eqb_true_not_nan _ _ H) as [Hx Hy].
    rewrite eqb_value in H by done. apply Z.eqb_eq in H. done.
  - intros (Hx & Hy & H). rewrite eqb_value by done. by apply Z.eqb_eq.
Qed.

(** The classes of a number. *)
Lemma is_zero_spec x :
  PrimFloat.is_zero x = match Prim2SF x with S754_zero _ => true | _ => false end.
Proof.
  unfold PrimFloat.is_zero. rewrite FloatAxioms.eqb_spec. unfold SFeqb.
  change (Prim2SF zero) with (S754_zero false).
  by destruct (Prim2SF x) as [[]|[]| |[] m e].
Qed.

Lemma is_infinity_spec x :
  is_infinity x = match Prim2SF x with S754_infinity _ => true | _ => false end.
Proof.
  unfold is_infinity. rewrite FloatAxioms.eqb_spec, abs_spec. unfold SFeqb.
  change (Prim2SF infinity) with (S754_infinity false).
  by destruct (Prim2SF x) as [[]|[]| |[] m e].
Qed.

Lemma is_finite_spec x :
  is_finite x
  = match Prim2SF x with S754_zero _ | S754_finite _ _ _ => true | _ => false end.
Proof.
  unfold is_finite. rewrite is_nan_spec, is_infinity_spec.
  by destruct (Prim2SF x).
Qed.

Lemma get_sign_spec x :
  is_nan x = false -> has_sign (get_sign x) (Prim2SF x).
Proof.
  rewrite is_nan_spec. unfold get_sign. rewrite is_zero_spec.
  destruct (Prim2SF x) as [s|s| |s m e] eqn:E; try done; intros _.
  - rewrite FloatAxioms.ltb_spec, div_spec, E.
    change (Prim2SF one) with (S754_finite false 4503599627370496 (-52)).
    change (Prim2SF zero) with (S754_zero false). by destruct s.
  - rewrite FloatAxioms.ltb_spec, E. change (Prim2SF zero) with (S754_zero false).
    by destruct s.
  - rewrite FloatAxioms.ltb_spec, E. change (Prim2SF zero) with (S754_zero false).
    by destruct s.
Qed.

Lemma finite_not_nan x : is_finite x = true -> is_nan x = false.
Proof. unfold is_finite. by destruct (is_nan x). Qed.

(** Numbers with the same value are the same number, zeros apart. *)
Lemma value_inj x y :
  is_nan x = false -> is_nan y = false ->
  F2Z x = F2Z y -> F2Z x <> 0 -> x = y.
Proof.
  intros Hx Hy E Hnz. pose proof (compare_value x y Hx Hy) as Hc.
  rewrite E, Z.compare_refl in Hc.
  apply Prim2SF_inj. unfold F2Z in Hnz.
  pose proof (Prim2SF_valid x) as Vx. pose proof (Prim2SF_valid y) as Vy.
  assert (F2Z y <> 0) as Hnz' by (by rewrite <- E).
  unfold F2Z in Hnz'.
  destruct (Prim2SF x) as [sx|sx| |sx mx ex], (Prim2SF y) as [sy|sy| |sy my ey];
    try done; simpl in Hc.
  - by destruct sx, sy.
  - by destruct sx.
  - by destruct sy.
  - assert (sx = sy /\ ex = ey /\ Pos.compare_cont Eq mx my = Eq) as (-> & -> & Hm).
    { destruct sx, sy; try done;
        destruct (Z.compare_spec ex ey) as [->| |]; try done;
        destruct (Pos.compare_cont Eq mx my); try done. }
    apply Pos.compare_eq in Hm. by subst.
Qed.

(** ** Rounding to the format *)

(** *** Shifting a mantissa to the right *)

Lemma loc_Exact_iff mrs :
  loc_of_shr_record mrs = loc_Exact <-> shr_r mrs = false /\ shr_s mrs = false.
Proof. destruct mrs as [m [] []]; simpl; split; try done; by intros []. Qed.

Lemma shr_1_shifted a : 0 <= shr_m a -> shifted 1 a (shr_1 a).
Proof.
  destruct a as [m r s]. unfold shifted. rewrite !loc_Exact_iff. simpl.
  intros Hm. change (2 ^ 1) with 2.
  destruct m as [|[p|p|]|p]; try lia; simpl shr_m; simpl shr_r; simpl shr_s.
  - split; [done|]. destruct r, s; simpl; split; try done; by intros [[] ?].
  - split.
    + rewrite Pos2Z.inj_xI. apply (Z.div_unique _ _ _ 1); lia.
    + split; [by intros []|]. intros [_ H]. lia.
  - split.
    + rewrite Pos2Z.inj_xO. apply (Z.div_unique _ _ _ 0); lia.
    + destruct r, s; simpl; split; try done; try (by intros [[] ?]).
      intros _. split; [done|lia].
  - split; [done|]. split; [by intros []|]. intros [_ H]. lia.
Qed.

Lemma shifted_trans j k a b c :
  0 <= j -> 0 <= k -> 0 <= shr_m a ->
  shifted j a b -> shifted k b c -> shifted (j + k) a c.
Proof.
  intros Hj Hk Ha [Hb Eb] [Hc Ec].
  assert (0 < 2 ^ j) by (apply Z.pow_pos_nonneg; lia).
  assert (0 < 2 ^ k) by (apply Z.pow_pos_nonneg; lia).
  split.
  - rewrite Hc, Hb, Z.pow_add_r by done. apply Z.div_div; lia.
  - rewrite Ec, Eb, Z.pow_add_r by done. split.
    + intros [[Ea E1] E2]. split; [done|]. rewrite E1, E2. lia.
    + intros [Ea E]. 
      assert (shr_m b = shr_m c * 2 ^ k) as E2.
      { rewrite Hb, E. replace (shr_m c * (2 ^ j * 2 ^ k)) with (shr_m c * 2 ^ k * 2 ^ j) by lia.
        rewrite Z.div_mul by lia. done. }
      split; [|done]. split; [done|]. rewrite E, E2. lia.
Qed.

Lemma shifted_nonneg k a b : 0 <= k -> 0 <= shr_m a -> shifted k a b -> 0 <= shr_m b.
Proof.
  intros Hk Ha [-> _]. apply Z.div_pos; [done|]. apply Z.pow_pos_nonneg; lia.
Qed.

Lemma iter_pos_shifted p a :
  0 <= shr_m a -> shifted (Z.pos p) a (SpecFloat.iter_pos shr_1 p a).
Proof.
  revert a. induction p as [p IH|p IH|]; intros a Ha; simpl SpecFloat.iter_pos.
  - pose proof (shr_1_shifted a Ha) as H1.
    pose proof (shifted_nonneg 1 _ _ ltac:(lia) Ha H1) as Ha1.
    pose proof (IH _ Ha1) as H2.
    pose proof (shifted_nonneg (Z.pos p) _ _ ltac:(lia) Ha1 H2) as Ha2.
    pose proof (IH _ Ha2) as H3.
    pose proof (shifted_trans 1 (Z.pos p) _ _ _ ltac:(lia) ltac:(lia) Ha H1 H2) as H12.
    pose proof (shifted_trans (1 + Z.pos p) (Z.pos p) _ _ _
                  ltac:(lia) ltac:(lia) Ha H12 H3) as H.
    replace (Z.pos p~1) with (1 + Z.pos p + Z.pos p) by lia. exact H.
  - pose proof (IH _ Ha) as H2.
    pose proof (shifted_nonneg (Z.pos p) _ _ ltac:(lia) Ha H2) as Ha2.
    pose proof (IH _ Ha2) as H3.
    pose proof (shifted_trans (Z.pos p) (Z.pos p) _ _ _
                  ltac:(lia) ltac:(lia) Ha H2 H3) as H.
    replace (Z.pos p~0) with (Z.pos p + Z.pos p) by lia. exact H.
  - by apply shr_1_shifted.
Qed.

Lemma loc_of_record_of_loc m l :
  loc_of_shr_record (shr_record_of_loc m l) = l.
Proof. by destruct l as [|[]]. Qed.

Lemma fexp64_eq z : fexp64 z = Z.max (z - 53) (-1074).
Proof. done. Qed.

(** The shift that [shr_fexp] makes. *)
Lemma shr_fexp_spec m e l :
  0 <= m ->
  let mrs := (shr_fexp prec emax m e l).1 in
  let e1 := (shr_fexp prec emax m e l).2 in
  e1 = Z.max e (fexp64 (Zdigits2 m + e))
  /\ shr_m mrs = m / 2 ^ (e1 - e)
  /\ (loc_of_shr_record mrs = loc_Exact
      <-> l = loc_Exact /\ m = shr_m mrs * 2 ^ (e1 - e)).
Proof.
  intros Hm. unfold shr_fexp, shr.
  destruct (fexp64 (Zdigits2 m + e) - e) as [|p|p] eqn:En; cbn [fst snd].
  - rewrite Z.sub_diag, shr_record_of_loc_m, loc_of_record_of_loc.
    change (2 ^ 0) with 1. rewrite Z.div_1_r. split; [lia|]. split; [done|].
    split; [intros ->; split; [done|lia]|by intros []].
  - pose proof (iter_pos_shifted p (shr_record_of_loc m l)
                  ltac:(by rewrite shr_record_of_loc_m)) as [H1 H2].
    rewrite shr_record_of_loc_m in H1, H2.
    rewrite loc_of_record_of_loc in H2.
    replace (e + Z.pos p - e) with (Z.pos p) by lia.
    split; [lia|]. done.
  - rewrite Z.sub_diag, shr_record_of_loc_m, loc_of_record_of_loc.
    change (2 ^ 0) with 1. rewrite Z.div_1_r. split; [lia|]. split; [done|].
    split; [intros ->; split; [done|lia]|by intros []].
Qed.

(** The same, on the values. *)
Lemma shr_fexp_value m e l :
  0 <= m -> - scale_exp <= e ->
  let mrs := (shr_fexp prec emax m e l).1 in
  let e1 := (shr_fexp prec emax m e l).2 in
  e <= e1
  /\ e1 = Z.max e (fexp64 (Zdigits2 m + e))
  /\ 0 <= shr_m mrs
  /\ shr_m mrs * pow2 e1 <= m * pow2 e < (shr_m mrs + 1) * pow2 e1
  /\ (loc_of_shr_record mrs = loc_Exact
      <-> l = loc_Exact /\ shr_m mrs * pow2 e1 = m * pow2 e)
  /\ shr_m mrs = m / 2 ^ (e1 - e).
Proof.
  intros Hm He mrs e1.
  destruct (shr_fexp_spec m e l Hm) as (E1 & E2 & E3).
  fold mrs in E2, E3. fold e1 in E1, E2, E3.
  assert (e <= e1) as Hle by lia.
  set (n := e1 - e) in *.
  assert (0 < 2 ^ n) as Hp by (apply Z.pow_pos_nonneg; lia).
  assert (pow2 e1 = pow2 e * 2 ^ n) as Epow.
  { replace e1 with (e + n) by (unfold n; lia). apply pow2_add; lia. }
  pose proof (pow2_pos e He) as Hpe.
  pose proof (Z.div_mod m (2 ^ n) ltac:(lia)) as Hdm.
  pose proof (Z.mod_pos_bound m (2 ^ n) Hp) as Hmod.
  rewrite <- E2 in Hdm.
  assert (0 <= shr_m mrs) as Hm1 by (rewrite E2; apply Z.div_pos; lia).
  split; [done|]. split; [done|]. split; [done|].
  rewrite Epow. split; [nia|]. split.
  - rewrite E3. split; intros [-> H]; (split; [done|]); nia.
  - done.
Qed.

(** When the exponent is the one of the format and above the least one, the
    shifted mantissa has its 53 bits. *)
Lemma shr_fexp_normal m e e1 :
  0 <= m -> e1 = fexp64 (Zdigits2 m + e) -> e <= e1 -> -1074 < e1 ->
  2 ^ 52 <= m / 2 ^ (e1 - e) < 2 ^ 53.
Proof.
  intros Hm E Hle Hn. rewrite fexp64_eq in E.
  destruct (Z.eq_dec m 0) as [->|Hnz]; [simpl in E; lia|].
  pose proof (Zdigits2_bounds m ltac:(lia)) as [Hlo Hhi].
  set (d := Zdigits2 m) in *.
  assert (e1 - e = d - 53) as -> by lia.
  assert (0 <= d - 53) by lia.
  assert (0 < 2 ^ (d - 53)) as Hp by (apply Z.pow_pos_nonneg; lia).
  assert (2 ^ (d - 1) = 2 ^ 52 * 2 ^ (d - 53)) as E1.
  { rewrite <- Z.pow_add_r by lia. f_equal. lia. }
  assert (2 ^ d = 2 ^ 53 * 2 ^ (d - 53)) as E2.
  { rewrite <- Z.pow_add_r by lia. f_equal. lia. }
  split.
  - apply Z.div_le_lower_bound; lia.
  - apply Z.div_lt_upper_bound; lia.
Qed.

(** *** Rounding is monotone

    The result of rounding lies on the same side of a number of the format
    as the value that is rounded. *)

Lemma pow2_53 e : - scale_exp <= e -> pow2 (e + 53) = 9007199254740992 * pow2 e.
Proof. intros He. rewrite pow2_add by lia. change (2 ^ 53) with 9007199254740992. lia. Qed.

(** One shift, from below: [A] is the value of a number of the format. *)
Lemma shr_fexp_lower m e l ma ea :
  0 <= m -> - scale_exp <= e -> bounded prec emax ma ea = true ->
  (l = loc_Exact /\ Z.pos ma * pow2 ea <= m * pow2 e)
  \/ (e <= fexp64 (Zdigits2 m + e) /\ Z.pos ma * pow2 ea < (m + 1) * pow2 e) ->
  Z.pos ma * pow2 ea
  <= shr_m (shr_fexp prec emax m e l).1 * pow2 (shr_fexp prec emax m e l).2.
Proof.
  intros Hm He Hb H.
  destruct (shr_fexp_value m e l Hm He) as (Hle & E1 & Hm1 & [Hlo Hhi] & _ & Em1).
  set (m1 := shr_m (shr_fexp prec emax m e l).1) in *.
  set (e1 := (shr_fexp prec emax m e l).2) in *.
  pose proof (bounded_inv _ _ Hb) as (Hea & _ & _).
  pose proof (bounded_mantissa _ _ Hb) as [Hma _].
  change (2 ^ 53) with 9007199254740992 in Hma.
  set (A := Z.pos ma * pow2 ea) in *.
  pose proof (pow2_pos e He) as Hpe.
  pose proof (pow2_pos e1 ltac:(lia)) as Hpe1.
  pose proof (pow2_pos ea ltac:(unfold scale_exp; lia)) as Hpa.
  assert (pow2 e1 = pow2 e * 2 ^ (e1 - e)) as Epow.
  { replace e1 with (e + (e1 - e)) at 1 by lia. apply pow2_add; lia. }
  assert (0 < 2 ^ (e1 - e)) as Hp by (apply Z.pow_pos_nonneg; lia).
  destruct (Z.eq_dec e1 e) as [Ee|Hne].
  { assert (m1 = m) as Em.
    { rewrite Em1, Ee, Z.sub_diag. change (2 ^ 0) with 1. apply Z.div_1_r. }
    destruct H as [[_ H]|[Hf H]].
    - rewrite Em, Ee. exact H.
    - assert (e1 = fexp64 (Zdigits2 m + e)) as Ef by lia.
      rewrite Em, Ee.
      destruct (Z_le_gt_dec e ea) as [Hge|Hlt].
      + assert (pow2 ea = pow2 e * 2 ^ (ea - e)) as Ea.
        { replace ea with (e + (ea - e)) at 1 by lia. apply pow2_add; lia. }
        unfold A in *. rewrite Ea in *.
        assert (0 < 2 ^ (ea - e)) by (apply Z.pow_pos_nonneg; lia).
        assert (Z.pos ma * 2 ^ (ea - e) < m + 1) by nia. nia.
      + pose proof (shr_fexp_normal m e e1 Hm Ef Hle ltac:(lia)) as [Hn _].
        rewrite <- Em1, Em in Hn. change (2 ^ 52) with 4503599627370496 in Hn.
        pose proof (pow2_lt ea e ltac:(unfold scale_exp; lia) ltac:(lia)).
        unfold A. nia. }
  assert (e1 = fexp64 (Zdigits2 m + e)) as Ef by lia.
  assert (A < (m1 + 1) * pow2 e1) as HA.
  { destruct H as [[_ H]|[_ H]]; [lia|].
    rewrite Epow in Hhi |- *.
    assert (m < (m1 + 1) * 2 ^ (e1 - e)) by nia. nia. }
  destruct (Z_le_gt_dec e1 ea) as [Hge|Hlt].
  - assert (pow2 ea = pow2 e1 * 2 ^ (ea - e1)) as Ea.
    { replace ea with (e1 + (ea - e1)) at 1 by lia. apply pow2_add; lia. }
    unfold A in *. rewrite Ea in *.
    assert (0 < 2 ^ (ea - e1)) by (apply Z.pow_pos_nonneg; lia).
    assert (Z.pos ma * 2 ^ (ea - e1) < m1 + 1) by nia. nia.
  - pose proof (shr_fexp_normal m e e1 Hm Ef Hle ltac:(lia)) as [Hn _].
    rewrite <- Em1 in Hn. change (2 ^ 52) with 4503599627370496 in Hn.
    pose proof (pow2_lt ea e1 ltac:(unfold scale_exp; lia) ltac:(lia)).
    unfold A. nia.
Qed.

Lemma pow2_nonneg e : 0 <= pow2 e.
Proof. unfold pow2. apply Z.pow_nonneg. lia. Qed.

Lemma abs_cond_Zopp s z : 0 <= z -> Z.abs (cond_Zopp s z) = z.
Proof. destruct s; simpl; lia. Qed.

Lemma SF2Z_sign s x :
  has_sign s x -> SF2Z x = cond_Zopp s (Z.abs (SF2Z x)).
Proof.
  destruct x as [s'|s'| |s' m e]; cbn [has_sign SF2Z]; try done; intros ->.
  - by destruct s.
  - pose proof (pow2_nonneg 1100). destruct s; cbn [cond_Zopp]; lia.
  - pose proof (pow2_nonneg e). destruct s; cbn [cond_Zopp]; lia.
Qed.

(** Rounding, from below. *)
Lemma binary_round_aux_lower s m e l ma ea :
  0 <= m -> - scale_exp <= e -> bounded prec emax ma ea = true ->
  (l = loc_Exact /\ Z.pos ma * pow2 ea <= m * pow2 e)
  \/ (e <= fexp64 (Zdigits2 m + e) /\ Z.pos ma * pow2 ea < (m + 1) * pow2 e) ->
  Z.pos ma * pow2 ea <= Z.abs (SF2Z (binary_round_aux prec emax s m e l)).
Proof.
  intros Hm He Hb H.
  pose proof (bounded_value _ _ Hb) as [HA HAinf].
  unfold binary_round_aux.
  pose proof (shr_fexp_lower m e l ma ea Hm He Hb H) as H1.
  destruct (shr_fexp_value m e l Hm He) as (Hle1 & _ & Hm1 & _).
  destruct (shr_fexp prec emax m e l) as [mrs1 e1]. cbn [fst snd] in *.
  pose proof (round_nearest_even_bounds (shr_m mrs1) (loc_of_shr_record mrs1))
    as [Hr _].
  set (m2 := round_nearest_even (shr_m mrs1) (loc_of_shr_record mrs1)) in *.
  pose proof (pow2_pos e1 ltac:(lia)) as Hp1.
  assert (Z.pos ma * pow2 ea <= m2 * pow2 e1) as H2 by nia.
  pose proof (shr_fexp_lower m2 e1 loc_Exact ma ea ltac:(lia) ltac:(lia) Hb
                (or_introl (conj eq_refl H2))) as H3.
  destruct (shr_fexp_value m2 e1 loc_Exact ltac:(lia) ltac:(lia))
    as (Hle3 & _ & Hm3 & _).
  destruct (shr_fexp prec emax m2 e1 loc_Exact) as [mrs3 e3].
  cbn [fst snd] in *.
  pose proof (pow2_pos e3 ltac:(lia)) as Hp3.
  destruct (shr_m mrs3) as [|p|p] eqn:E3; [lia| |lia].
  destruct (e3 <=? emax - prec); cbn [SF2Z].
  - rewrite abs_cond_Zopp by lia. done.
  - rewrite abs_cond_Zopp by lia. lia.
Qed.

(** Rounding, from above: the result does not overflow either. *)
Lemma binary_round_aux_upper s m e l mb eb :
  0 <= m -> - scale_exp <= e -> bounded prec emax mb eb = true ->
  e <= 971 \/ e <= fexp64 (Zdigits2 m + e) ->
  (l = loc_Exact /\ m * pow2 e <= Z.pos mb * pow2 eb)
  \/ (e <= fexp64 (Zdigits2 m + e) /\ m * pow2 e < Z.pos mb * pow2 eb) ->
  Z.abs (SF2Z (binary_round_aux prec emax s m e l)) <= Z.pos mb * pow2 eb.
Proof.
  intros Hm He Hb Hexp H.
  pose proof (bounded_value _ _ Hb) as [HB HBinf].
  pose proof (bounded_inv _ _ Hb) as (Heb & _ & _).
  pose proof (bounded_mantissa _ _ Hb) as [Hmb _].
  change (2 ^ 53) with 9007199254740992 in Hmb.
  pose proof (pow2_pos eb ltac:(unfold scale_exp; lia)) as Hpb.
  set (B := Z.pos mb * pow2 eb) in *.
  unfold binary_round_aux.
  destruct (shr_fexp_value m e l Hm He)
    as (Hle1 & E1 & Hm1 & [Hlo1 Hhi1] & Hex1 & Em1).
  pose proof (shr_fexp_normal m e (shr_fexp prec emax m e l).2 Hm) as Hnorm1.
  destruct (shr_fexp prec emax m e l) as [mrs1 e1]. cbn [fst snd] in *.
  rewrite <- Em1 in Hnorm1. change (2 ^ 52) with 4503599627370496 in Hnorm1.
  set (m1 := shr_m mrs1) in *.
  pose proof (pow2_pos e He) as Hpe.
  pose proof (pow2_pos e1 ltac:(lia)) as Hp1.
  pose proof (round_nearest_even_bounds m1 (loc_of_shr_record mrs1)) as [Hr1 Hr2].
  set (m2 := round_nearest_even m1 (loc_of_shr_record mrs1)) in *.
  assert (m1 * pow2 e1 <= B) as HmB by (destruct H as [[_ ?]|[_ ?]]; lia).
  assert (m2 * pow2 e1 <= B) as H2.
  { destruct (loc_of_shr_record mrs1) eqn:El1.
    { subst m2. simpl. done. }
    assert (m1 * pow2 e1 < B) as Hstrict.
    { destruct H as [[-> H]|[_ H]]; [|lia].
      destruct (Z.eq_dec (m1 * pow2 e1) (m * pow2 e)) as [E|]; [|lia].
      assert (loc_Inexact c = loc_Exact) by (by apply Hex1). done. }
    assert (e1 = fexp64 (Zdigits2 m + e)) as Ef.
    { destruct H as [[-> H]|[? H]]; [|lia].
      destruct (Z.eq_dec e1 e) as [Ee|]; [|lia].
      assert (m1 = m) as Em.
      { rewrite Em1, Ee, Z.sub_diag. change (2 ^ 0) with 1. apply Z.div_1_r. }
      assert (loc_Inexact c = loc_Exact); [|done].
      apply Hex1. split; [done|]. by rewrite Em, Ee. }
    assert ((m1 + 1) * pow2 e1 <= B); [|nia].
    destruct (Z_le_gt_dec e1 eb) as [Hge|Hlt].
    - assert (pow2 eb = pow2 e1 * 2 ^ (eb - e1)) as Eb.
      { replace eb with (e1 + (eb - e1)) at 1 by lia. apply pow2_add; lia. }
      unfold B in *. rewrite Eb in *.
      assert (0 < 2 ^ (eb - e1)) by (apply Z.pow_pos_nonneg; lia).
      assert (m1 < Z.pos mb * 2 ^ (eb - e1)) by nia. nia.
    - destruct (Hnorm1 Ef Hle1 ltac:(lia)) as [Hn _].
      pose proof (pow2_lt eb e1 ltac:(unfold scale_exp; lia) ltac:(lia)).
      unfold B in *. nia. }
  destruct (shr_fexp_value m2 e1 loc_Exact ltac:(lia) ltac:(lia))
    as (Hle3 & E3 & Hm3 & [Hlo3 _] & _ & Em3).
  pose proof (shr_fexp_normal m2 e1 (shr_fexp prec emax m2 e1 loc_Exact).2
                ltac:(lia)) as Hnorm3.
  destruct (shr_fexp prec emax m2 e1 loc_Exact) as [mrs3 e3].
  cbn [fst snd] in *.
  rewrite <- Em3 in Hnorm3. change (2 ^ 52) with 4503599627370496 in Hnorm3.
  pose proof (pow2_pos e3 ltac:(lia)) as Hp3.
  assert (e3 <= 971) as Hno.
  { destruct (Z_le_gt_dec e3 971) as [|Hgt]; [done|exfalso].
    pose proof (pow2_le eb 971 ltac:(unfold scale_exp; lia) ltac:(lia)) as Hb1.
    pose proof (pow2_succ 971 ltac:(unfold scale_exp; lia)) as Hb2.
    change (971 + 1) with 972 in Hb2.
    destruct (Z.eq_dec e3 e1) as [E31|].
    - assert (e1 = fexp64 (Zdigits2 m + e)) as Ef by lia.
      destruct (Hnorm1 Ef Hle1 ltac:(lia)) as [Hn _].
      pose proof (pow2_le 972 e1 ltac:(unfold scale_exp; lia) ltac:(lia)).
      unfold B in *. nia.
    - assert (e3 = fexp64 (Zdigits2 m2 + e1)) as Ef by lia.
      destruct (Hnorm3 Ef Hle3 ltac:(lia)) as [Hn _].
      pose proof (pow2_le 972 e3 ltac:(unfold scale_exp; lia) ltac:(lia)).
      unfold B in *. nia. }
  destruct (shr_m mrs3) as [|p|p] eqn:Em; [simpl; lia| |lia].
  assert ((e3 <=? emax - prec) = true) as -> by (apply Z.leb_le; unfold emax, prec; lia).
  cbn [SF2Z]. rewrite abs_cond_Zopp by lia. lia.
Qed.

(** *** Aligning a mantissa to a lower exponent *)

Lemma iter_xO m d : Z.pos (Pos.iter xO m d) = Z.pos m * 2 ^ Z.pos d.
Proof.
  induction d as [|d IH] using Pos.peano_ind.
  - simpl. lia.
  - rewrite Pos.iter_succ, Pos2Z.inj_xO, IH, Pos2Z.inj_succ, Z.pow_succ_r by lia.
    lia.
Qed.

Lemma shl_align_spec mx ex ex' :
  - scale_exp <= ex -> - scale_exp <= ex' ->
  let mz := (shl_align mx ex ex').1 in
  let ez := (shl_align mx ex ex').2 in
  ez = Z.min ex ex'
  /\ Z.pos mz = Z.pos mx * 2 ^ (ex - ez)
  /\ Z.pos mz * pow2 ez = Z.pos mx * pow2 ex.
Proof.
  intros He He'. unfold shl_align.
  destruct (ex' - ex) as [|d|d] eqn:E; cbn [fst snd].
  - rewrite Z.sub_diag. change (2 ^ 0) with 1. lia.
  - rewrite Z.sub_diag. change (2 ^ 0) with 1. lia.
  - rewrite iter_xO. replace (ex - ex') with (Z.pos d) by lia.
    split; [lia|]. split; [done|].
    assert (pow2 ex = pow2 ex' * 2 ^ Z.pos d) as ->.
    { replace ex with (ex' + Z.pos d) by lia. apply pow2_add; lia. }
    lia.
Qed.

Lemma digits2_pos_shift m k :
  0 <= k -> forall mz, Z.pos mz = Z.pos m * 2 ^ k ->
  Z.pos (digits2_pos mz) = Z.pos (digits2_pos m) + k.
Proof.
  intros Hk mz E.
  pose proof (digits2_pos_bounds m) as [Hlo Hhi].
  assert (0 < 2 ^ k) as Hp by (apply Z.pow_pos_nonneg; lia).
  assert (Z.pos (digits2_pos mz) <= Z.pos (digits2_pos m) + k).
  { apply digits2_pos_le; [lia|]. rewrite E, Z.pow_add_r by lia. nia. }
  assert (Z.pos (digits2_pos m) - 1 + k < Z.pos (digits2_pos mz)).
  { apply digits2_pos_ge. rewrite E, Z.pow_add_r by lia. nia. }
  lia.
Qed.

(** *** Rounding an integer mantissa: [binary_round], [binary_normalize] *)

Lemma binary_round_aligned mx ex :
  - scale_exp <= ex ->
  let mz := (shl_align mx ex (fexp64 (Z.pos (digits2_pos mx) + ex))).1 in
  let ez := (shl_align mx ex (fexp64 (Z.pos (digits2_pos mx) + ex))).2 in
  - scale_exp <= ez
  /\ Z.pos mz * pow2 ez = Z.pos mx * pow2 ex
  /\ ez <= fexp64 (Zdigits2 (Z.pos mz) + ez).
Proof.
  intros He mz ez.
  assert (- scale_exp <= fexp64 (Z.pos (digits2_pos mx) + ex)) as Hf.
  { rewrite fexp64_eq. unfold scale_exp. lia. }
  destruct (shl_align_spec mx ex _ He Hf) as (E1 & E2 & E3).
  fold mz in E2, E3. fold ez in E1, E2, E3.
  split; [lia|]. split; [done|].
  pose proof (digits2_pos_shift mx (ex - ez) ltac:(lia) mz E2) as Hd.
  cbn [Zdigits2]. rewrite Hd.
  replace (Z.pos (digits2_pos mx) + (ex - ez) + ez)
    with (Z.pos (digits2_pos mx) + ex) by lia.
  lia.
Qed.

Lemma binary_round_lower s mx ex ma ea :
  - scale_exp <= ex -> bounded prec emax ma ea = true ->
  Z.pos ma * pow2 ea <= Z.pos mx * pow2 ex ->
  Z.pos ma * pow2 ea <= Z.abs (SF2Z (binary_round prec emax s mx ex)).
Proof.
  intros He Hb H. unfold binary_round.
  destruct (binary_round_aligned mx ex He) as (Hez & Ev & Hf).
  destruct (shl_align mx ex _) as [mz ez]. cbn [fst snd] in *.
  apply binary_round_aux_lower; [lia|done|done|]. left. split; [done|lia].
Qed.

Lemma binary_round_upper s mx ex mb eb :
  - scale_exp <= ex -> bounded prec emax mb eb = true ->
  Z.pos mx * pow2 ex <= Z.pos mb * pow2 eb ->
  Z.abs (SF2Z (binary_round prec emax s mx ex)) <= Z.pos mb * pow2 eb.
Proof.
  intros He Hb H. unfold binary_round.
  destruct (binary_round_aligned mx ex He) as (Hez & Ev & Hf).
  destruct (shl_align mx ex _) as [mz ez]. cbn [fst snd] in *.
  apply binary_round_aux_upper; [lia|done|done|by right|].
  left. split; [done|lia].
Qed.

Lemma binary_normalize_not_nan D e :
  binary_normalize prec emax D e false <> S754_nan.
Proof.
  destruct D as [|p|p]; simpl; [done| |].
  - pose proof (binary_round_sign false p e) as H. intros E. by rewrite E in H.
  - pose proof (binary_round_sign true p e) as H. intros E. by rewrite E in H.
Qed.

Lemma binary_normalize_lower D e a :
  - scale_exp <= e -> SFfinite a -> SF2Z a <= D * pow2 e ->
  SF2Z a <= SF2Z (binary_normalize prec emax D e false).
Proof.
  intros He [Va Fa] H. pose proof (pow2_pos e He) as Hp.
  destruct D as [|p|p]; cbn [binary_normalize].
  - simpl in *. lia.
  - pose proof (binary_round_sign false p e) as Hs.
    rewrite (SF2Z_sign _ _ Hs). cbn [cond_Zopp].
    destruct a as [sa|sa| |sa ma ea]; try done; cbn [SF2Z] in *; [lia|].
    destruct sa; cbn [cond_Zopp] in *.
    + pose proof (bounded_value _ _ Va). lia.
    + by apply binary_round_lower.
  - pose proof (binary_round_sign true p e) as Hs.
    rewrite (SF2Z_sign _ _ Hs). cbn [cond_Zopp].
    destruct a as [sa|sa| |sa ma ea]; try done; cbn [SF2Z] in *; [lia|].
    pose proof (bounded_value _ _ Va).
    destruct sa; cbn [cond_Zopp] in *; [|lia].
    pose proof (binary_round_upper true p e ma ea He Va ltac:(lia)). lia.
Qed.

Lemma binary_normalize_upper D e b :
  - scale_exp <= e -> SFfinite b -> D * pow2 e <= SF2Z b ->
  SF2Z (binary_normalize prec emax D e false) <= SF2Z b.
Proof.
  intros He [Vb Fb] H. pose proof (pow2_pos e He) as Hp.
  destruct D as [|p|p]; cbn [binary_normalize].
  - simpl in *. lia.
  - pose proof (binary_round_sign false p e) as Hs.
    rewrite (SF2Z_sign _ _ Hs). cbn [cond_Zopp].
    destruct b as [sb|sb| |sb mb eb]; try done; cbn [SF2Z] in *; [lia|].
    pose proof (bounded_value _ _ Vb).
    destruct sb; cbn [cond_Zopp] in *; [lia|].
    by apply binary_round_upper.
  - pose proof (binary_round_sign true p e) as Hs.
    rewrite (SF2Z_sign _ _ Hs). cbn [cond_Zopp].
    destruct b as [sb|sb| |sb mb eb]; try done; cbn [SF2Z] in *; [lia|].
    pose proof (bounded_value _ _ Vb).
    destruct sb; cbn [cond_Zopp] in *; [|lia].
    pose proof (binary_round_lower true p e mb eb He Vb ltac:(lia)). lia.
Qed.

(** *** Addition and subtraction *)

Lemma aligned_value s mx ex ez :
  -1074 <= ex -> -1074 <= ez -> ez <= ex ->
  cond_Zopp s (Z.pos (shl_align mx ex ez).1) * pow2 ez
  = cond_Zopp s (Z.pos mx * pow2 ex).
Proof.
  intros He Hez Hle.
  destruct (shl_align_spec mx ex ez ltac:(unfold scale_exp; lia)
              ltac:(unfold scale_exp; lia)) as (E1 & _ & E3).
  replace (Z.min ex ez) with ez in E1 by lia. rewrite E1 in E3.
  destruct s; cbn [cond_Zopp]; lia.
Qed.

Lemma SFadd_finite sx mx ex sy my ey :
  bounded prec emax mx ex = true -> bounded prec emax my ey = true ->
  exists D e,
    - scale_exp <= e
    /\ SF64add (S754_finite sx mx ex) (S754_finite sy my ey)
       = binary_normalize prec emax D e false
    /\ D * pow2 e
       = SF2Z (S754_finite sx mx ex) + SF2Z (S754_finite sy my ey).
Proof.
  intros Hx Hy.
  pose proof (bounded_inv _ _ Hx) as (Hex & _). pose proof (bounded_inv _ _ Hy) as (Hey & _).
  eexists _, (Z.min ex ey). split; [unfold scale_exp; lia|]. split; [reflexivity|].
  rewrite Z.mul_add_distr_r, !aligned_value by lia. done.
Qed.

Lemma SFsub_finite sx mx ex sy my ey :
  bounded prec emax mx ex = true -> bounded prec emax my ey = true ->
  exists D e,
    - scale_exp <= e
    /\ SF64sub (S754_finite sx mx ex) (S754_finite sy my ey)
       = binary_normalize prec emax D e false
    /\ D * pow2 e
       = SF2Z (S754_finite sx mx ex) - SF2Z (S754_finite sy my ey).
Proof.
  intros Hx Hy.
  pose proof (bounded_inv _ _ Hx) as (Hex & _). pose proof (bounded_inv _ _ Hy) as (Hey & _).
  eexists _, (Z.min ex ey). split; [unfold scale_exp; lia|]. split; [reflexivity|].
  rewrite Z.mul_sub_distr_r, !aligned_value by lia. done.
Qed.

Lemma is_finite_SFfinite x : is_finite x = true <-> SFfinite (Prim2SF x).
Proof.
  rewrite is_finite_spec. unfold SFfinite.
  pose proof (Prim2SF_valid x) as V.
  destruct (Prim2SF x); split; try done; by intros [].
Qed.

(** The sum of two finite numbers is not NaN, and lies on the same side of
    a finite number as the exact sum. *)
Lemma add_finite x y :
  is_finite x = true -> is_finite y = true ->
  is_nan (x + y) = false
  /\ (forall a, is_finite a = true ->
        F2Z a <= F2Z x + F2Z y -> F2Z a <= F2Z (x + y))
  /\ (forall b, is_finite b = true ->
        F2Z x + F2Z y <= F2Z b -> F2Z (x + y) <= F2Z b).
Proof.
  intros Hx Hy. rewrite is_nan_spec. unfold F2Z.
  setoid_rewrite is_finite_SFfinite.
  rewrite add_spec.
  apply is_finite_SFfinite in Hx as [Vx Fx], Hy as [Vy Fy].
  destruct (Prim2SF x) as [sx|sx| |sx mx ex], (Prim2SF y) as [sy|sy| |sy my ey];
    try done.
  all: try (unfold SF64add; cbn [SFadd SF2Z];
            split; [done|]; split; intros a _ H; lia).
  all: try (split; [by destruct sx, sy|]; split; intros a _ H;
            by destruct sx, sy).
  destruct (SFadd_finite sx mx ex sy my ey Vx Vy) as (D & e & He & -> & Ev).
  rewrite <- Ev.
  pose proof (binary_normalize_not_nan D e).
  split; [by destruct (binary_normalize prec emax D e false)|].
  split; intros a Fa H'.
  - by apply binary_normalize_lower.
  - by apply binary_normalize_upper.
Qed.

Lemma sub_finite x y :
  is_finite x = true -> is_finite y = true ->
  is_nan (x - y) = false
  /\ (forall a, is_finite a = true ->
        F2Z a <= F2Z x - F2Z y -> F2Z a <= F2Z (x - y))
  /\ (forall b, is_finite b = true ->
        F2Z x - F2Z y <= F2Z b -> F2Z (x - y) <= F2Z b).
Proof.
  intros Hx Hy. rewrite is_nan_spec. unfold F2Z.
  setoid_rewrite is_finite_SFfinite.
  rewrite sub_spec.
  apply is_finite_SFfinite in Hx as [Vx Fx], Hy as [Vy Fy].
  destruct (Prim2SF x) as [sx|sx| |sx mx ex], (Prim2SF y) as [sy|sy| |sy my ey];
    try done.
  all: try (unfold SF64sub; cbn [SFsub SF2Z];
            split; [done|]; split; intros a _ H;
            try destruct sy; cbn [negb cond_Zopp] in *; lia).
  all: try (split; [by destruct sx, sy|]; split; intros a _ H;
            by destruct sx, sy).
  destruct (SFsub_finite sx mx ex sy my ey Vx Vy) as (D & e & He & -> & Ev).
  rewrite <- Ev.
  pose proof (binary_normalize_not_nan D e).
  split; [by destruct (binary_normalize prec emax D e false)|].
  split; intros a Fa H'.
  - by apply binary_normalize_lower.
  - by apply binary_normalize_upper.
Qed.

(** *** Division *)

Lemma new_location_Exact nb k : new_location nb k = loc_Exact <-> k = 0.
Proof.
  unfold new_location, new_location_even, new_location_odd.
  destruct (Z.even nb); destruct (Z.eqb_spec k 0); split; try done.
Qed.

Lemma Zdigits2_nonneg m : 0 <= Zdigits2 m.
Proof. by destruct m. Qed.

Lemma Zdigits2_ge m k : 0 <= k -> 2 ^ k <= m -> k < Zdigits2 m.
Proof.
  intros Hk H. assert (0 < 2 ^ k) by (apply Z.pow_pos_nonneg; lia).
  destruct m as [|p|p]; try lia. by apply digits2_pos_ge.
Qed.

(** The quotient that is rounded: [q] is the integer part of
    [mx * 2 ^ s / my], for the shift [s] that gives it enough bits. *)
Lemma SFdiv_core_spec mx ex my ey :
  -1074 <= ex <= 971 -> -1074 <= ey <= 971 ->
  let q := (SFdiv_core_binary prec emax (Z.pos mx) ex (Z.pos my) ey).1.1 in
  let e' := (SFdiv_core_binary prec emax (Z.pos mx) ex (Z.pos my) ey).1.2 in
  let l := (SFdiv_core_binary prec emax (Z.pos mx) ex (Z.pos my) ey).2 in
  let s := ex - ey - e' in
  0 <= q /\ 0 <= s /\ - scale_exp <= e'
  /\ e' <= fexp64 (Zdigits2 q + e')
  /\ q * Z.pos my <= Z.pos mx * 2 ^ s < (q + 1) * Z.pos my
  /\ (l = loc_Exact <-> q * Z.pos my = Z.pos mx * 2 ^ s).
Proof.
  intros Hex Hey. unfold SFdiv_core_binary.
  set (d1 := Zdigits2 (Z.pos mx)). set (d2 := Zdigits2 (Z.pos my)).
  set (e' := Z.min (fexp64 (d1 + ex - (d2 + ey))) (ex - ey)).
  set (s := ex - ey - e').
  assert (0 <= s) as Hs by (unfold s, e'; lia).
  assert (- scale_exp <= e') as He'.
  { unfold e'. rewrite fexp64_eq. unfold scale_exp. lia. }
  set (m' := match s with
             | 0 => Z.pos mx
             | Z.pos _ => Z.shiftl (Z.pos mx) s
             | Z.neg _ => 0
             end).
  assert (m' = Z.pos mx * 2 ^ s) as Em'.
  { unfold m'. destruct s; [simpl; lia| |lia]. apply Z.shiftl_mul_pow2. lia. }
  assert (0 < 2 ^ s) as Hp by (apply Z.pow_pos_nonneg; lia).
  pose proof (Z.div_mod m' (Z.pos my) ltac:(lia)) as Hdm.
  pose proof (Z.mod_pos_bound m' (Z.pos my) ltac:(lia)) as Hmod.
  unfold Z.div, Z.modulo in Hdm, Hmod.
  destruct (Z.div_eucl m' (Z.pos my)) as [q r]. cbn [fst snd].
  assert (0 <= q) as Hq by nia.
  split; [done|]. split; [done|]. split; [done|].
  fold s. split; [|split; [rewrite <- Em'; nia|rewrite new_location_Exact, <- Em'; lia]].
  (* the exponent is at most the one of the format *)
  pose proof (digits2_pos_bounds mx) as [Hlo1 _].
  pose proof (digits2_pos_bounds my) as [_ Hhi2].
  fold (Zdigits2 (Z.pos mx)) in Hlo1. fold (Zdigits2 (Z.pos my)) in Hhi2.
  fold d1 in Hlo1. fold d2 in Hhi2.
  assert (1 <= d1) by (unfold d1; simpl; lia).
  assert (1 <= d2) by (unfold d2; simpl; lia).
  assert (d1 - d2 + s <= Zdigits2 q) as Hd.
  { destruct (Z_le_gt_dec (d1 - d2 + s) 0) as [|Hgt].
    { pose proof (Zdigits2_nonneg q). lia. }
    assert (d1 - d2 + s - 1 < Zdigits2 q); [|lia].
    apply Zdigits2_ge; [lia|].
    assert (2 ^ (d1 - 1) * 2 ^ s = 2 ^ (d1 - d2 + s - 1) * 2 ^ d2) as E.
    { rewrite <- !Z.pow_add_r by lia. f_equal. lia. }
    assert (0 < 2 ^ (d1 - d2 + s - 1)) by (apply Z.pow_pos_nonneg; lia).
    assert (2 ^ (d1 - d2 + s - 1) * Z.pos my <= m') by nia.
    nia. }
  assert (e' <= fexp64 (d1 + ex - (d2 + ey))) as Hf by (unfold e'; lia).
  rewrite fexp64_eq in Hf |- *. unfold s in Hd. lia.
Qed.

Lemma pow2_mul e e' :
  - scale_exp <= e -> - scale_exp <= e' ->
  pow2 e * pow2 e' = pow2 (e + e' + scale_exp).
Proof.
  intros He He'. unfold pow2. rewrite <- Z.pow_add_r by lia. f_equal. lia.
Qed.

(** The quotient of two positive finite numbers lies on the same side of a
    positive finite number as the exact quotient. *)
Lemma SFdiv_bracket mx ex my ey :
  bounded prec emax mx ex = true -> bounded prec emax my ey = true ->
  let r := SF64div (S754_finite false mx ex) (S754_finite false my ey) in
  let X := Z.pos mx * pow2 ex in
  let Y := Z.pos my * pow2 ey in
  has_sign false r
  /\ (forall ma ea, bounded prec emax ma ea = true ->
        Z.pos ma * pow2 ea * Y <= X * 2 ^ scale_exp ->
        Z.pos ma * pow2 ea <= SF2Z r)
  /\ (forall mb eb, bounded prec emax mb eb = true ->
        X * 2 ^ scale_exp <= Z.pos mb * pow2 eb * Y ->
        SF2Z r <= Z.pos mb * pow2 eb).
Proof.
  intros Hx Hy r X Y.
  pose proof (SFdiv_sign false mx ex false my ey) as Hs. cbn [xorb] in Hs.
  fold r in Hs. split; [done|].
  rewrite (SF2Z_sign _ _ Hs). cbn [cond_Zopp].
  pose proof (bounded_inv _ _ Hx) as (Hex & _). pose proof (bounded_inv _ _ Hy) as (Hey & _).
  destruct (SFdiv_core_spec mx ex my ey Hex Hey) as (Hq & Hsh & He' & Hf & [Hlo Hhi] & Hl).
  unfold r, SF64div, SFdiv. cbn [xorb].
  destruct (SFdiv_core_binary prec emax (Z.pos mx) ex (Z.pos my) ey) as [[q e'] l].
  cbn [fst snd] in *.
  set (s := ex - ey - e') in *.
  pose proof (pow2_pos ex ltac:(unfold scale_exp; lia)) as Hpx.
  pose proof (pow2_pos ey ltac:(unfold scale_exp; lia)) as Hpy.
  pose proof (pow2_pos e' He') as Hpe.
  assert (0 < 2 ^ s) as Hps by (apply Z.pow_pos_nonneg; lia).
  assert (2 ^ s * (pow2 e' * pow2 ey) = pow2 ex * 2 ^ scale_exp) as Eid.
  { unfold pow2. rewrite <- !Z.pow_add_r by (unfold scale_exp in *; lia).
    f_equal. unfold s. lia. }
  assert (0 < Y) as HY by (unfold Y; lia).
  assert (X * 2 ^ scale_exp = Z.pos mx * 2 ^ s * (pow2 e' * pow2 ey)) as EX.
  { unfold X. rewrite <- !Z.mul_assoc. by rewrite Eid. }
  assert (q * pow2 e' * Y <= X * 2 ^ scale_exp) as Hle.
  { rewrite EX. unfold Y.
    replace (q * pow2 e' * (Z.pos my * pow2 ey))
      with (q * Z.pos my * (pow2 e' * pow2 ey)) by lia.
    apply Z.mul_le_mono_nonneg_r; lia. }
  assert (X * 2 ^ scale_exp < (q + 1) * pow2 e' * Y) as Hlt.
  { rewrite EX. unfold Y.
    replace ((q + 1) * pow2 e' * (Z.pos my * pow2 ey))
      with ((q + 1) * Z.pos my * (pow2 e' * pow2 ey)) by lia.
    apply Z.mul_lt_mono_pos_r; lia. }
  split.
  - intros ma ea Ha H.
    apply binary_round_aux_lower; [done|done|done|]. right. split; [done|].
    assert (Z.pos ma * pow2 ea * Y < (q + 1) * pow2 e' * Y) by lia.
    nia.
  - intros mb eb Hb H.
    apply binary_round_aux_upper; [done|done|done|by right|].
    destruct (Z.eq_dec (q * Z.pos my) (Z.pos mx * 2 ^ s)) as [E|Hne].
    + left. split; [by apply Hl|].
      assert (q * pow2 e' * Y <= Z.pos mb * pow2 eb * Y) by lia. nia.
    + right. split; [done|].
      assert (q * pow2 e' * Y < X * 2 ^ scale_exp).
      { rewrite EX. unfold Y.
        replace (q * pow2 e' * (Z.pos my * pow2 ey))
          with (q * Z.pos my * (pow2 e' * pow2 ey)) by lia.
        apply Z.mul_lt_mono_pos_r; lia. }
      assert (q * pow2 e' * Y < Z.pos mb * pow2 eb * Y) by lia. nia.
Qed.

(** ** Numbers of the program *)

(** *** NaN *)

Lemma add_nan_l y : (nan + y)%float = nan.
Proof. apply Prim2SF_inj. by rewrite add_spec. Qed.

Lemma add_nan_r x : (x + nan)%float = nan.
Proof. apply Prim2SF_inj. rewrite add_spec. by destruct (Prim2SF x) as [[]|[]| |]. Qed.

Lemma sub_nan_l y : (nan - y)%float = nan.
Proof. apply Prim2SF_inj. by rewrite sub_spec. Qed.

Lemma sub_nan_r x : (x - nan)%float = nan.
Proof. apply Prim2SF_inj. rewrite sub_spec. by destruct (Prim2SF x) as [[]|[]| |]. Qed.

Lemma mul_nan_l y : (nan * y)%float = nan.
Proof. apply Prim2SF_inj. by rewrite mul_spec. Qed.

Lemma mul_nan_r x : (x * nan)%float = nan.
Proof. apply Prim2SF_inj. rewrite mul_spec. by destruct (Prim2SF x) as [[]|[]| |]. Qed.

Lemma div_nan_l y : (nan / y)%float = nan.
Proof. apply Prim2SF_inj. by rewrite div_spec. Qed.

Lemma div_nan_r x : (x / nan)%float = nan.
Proof. apply Prim2SF_inj. rewrite div_spec. by destruct (Prim2SF x) as [[]|[]| |]. Qed.

Lemma ltb_nan_l y : (nan <? y)%float = false.
Proof. by rewrite FloatAxioms.ltb_spec. Qed.

Lemma ltb_nan_r x : (x <? nan)%float = false.
Proof. rewrite FloatAxioms.ltb_spec. unfold SFltb. by rewrite SFcompare_nan_r. Qed.

Lemma leb_nan_l y : (nan <=? y)%float = false.
Proof. by rewrite FloatAxioms.leb_spec. Qed.

Lemma leb_nan_r x : (x <=? nan)%float = false.
Proof. rewrite FloatAxioms.leb_spec. unfold SFleb. by rewrite SFcompare_nan_r. Qed.

Lemma eqb_nan_l y : (nan =? y)%float = false.
Proof. by rewrite FloatAxioms.eqb_spec. Qed.

Lemma eqb_nan_r x : (x =? nan)%float = false.
Proof. rewrite FloatAxioms.eqb_spec. unfold SFeqb. by rewrite SFcompare_nan_r. Qed.

(** *** Signs *)

Lemma nonneg_nonneg_nan x : nonneg x -> nonneg_nan x.
Proof. apply has_sign_nonneg. Qed.

Lemma nonneg_not_nan x : nonneg x -> is_nan x = false.
Proof. unfold nonneg. rewrite is_nan_spec. by destruct (Prim2SF x). Qed.

Lemma nonneg_nan_inv x : nonneg_nan x -> is_nan x = false -> nonneg x.
Proof. unfold nonneg, nonneg_nan. rewrite is_nan_spec. by destruct (Prim2SF x). Qed.

Lemma nonneg_value x : nonneg x -> 0 <= F2Z x.
Proof.
  unfold nonneg, F2Z. intros H. rewrite (SF2Z_sign _ _ H). simpl. lia.
Qed.

Lemma add_nonneg_nan x y : nonneg_nan x -> nonneg_nan y -> nonneg_nan (x + y).
Proof. unfold nonneg_nan. rewrite add_spec. apply SFadd_nonneg. Qed.

Lemma add_nonneg x y : nonneg x -> nonneg y -> nonneg (x + y).
Proof.
  unfold nonneg. rewrite add_spec.
  destruct (Prim2SF x) as [[]|[]| |[] mx ex], (Prim2SF y) as [[]|[]| |[] my ey];
    try done.
  intros _ _. apply binary_round_sign.
Qed.

Lemma sq_nonneg_nan x : nonneg_nan (JS.sq x).
Proof. unfold nonneg_nan, JS.sq. rewrite mul_spec. apply SFmul_self_nonneg. Qed.

Lemma abs_nonneg_nan x : nonneg_nan (abs x).
Proof. unfold nonneg_nan. rewrite abs_spec. apply SFabs_nonneg. Qed.

Lemma div_nonneg_nan x y : nonneg_nan x -> nonneg_nan y -> nonneg_nan (x / y).
Proof. unfold nonneg_nan. rewrite div_spec. apply SFdiv_nonneg. Qed.

Lemma mul_nonneg x y :
  nonneg x -> nonneg y -> is_finite x = true -> PrimFloat.is_zero x = false ->
  nonneg (x * y).
Proof.
  unfold nonneg. rewrite is_finite_spec, is_zero_spec, mul_spec.
  destruct (Prim2SF x) as [[]|[]| |[] mx ex], (Prim2SF y) as [[]|[]| |[] my ey];
    try done.
  intros _ _ _ _. by apply binary_round_aux_sign.
Qed.

(** The absolute value of a number with a clear sign bit is the number. *)
Lemma abs_nonneg x : nonneg x -> abs x = x.
Proof.
  unfold nonneg. intros H. apply Prim2SF_inj. rewrite abs_spec.
  destruct (Prim2SF x); simpl in *; by subst.
Qed.

(** *** Array lengths as numbers *)

Lemma of_nat_spec n :
  Z.of_nat n < 2 ^ 32 ->
  Prim2SF (JS.of_nat n) = binary_normalize prec emax (Z.of_nat n) 0 false.
Proof.
  intros Hn. unfold JS.of_nat. rewrite of_uint63_spec. f_equal.
  change Uint63Axioms.to_Z with Uint63.to_Z.
  rewrite Uint63.of_Z_spec. apply Z.mod_small.
  change Uint63.wB with (2 ^ 63). split; [lia|].
  eapply Z.lt_trans; [exact Hn|done].
Qed.

(** The number of a positive length is at least 1: it is neither NaN nor
    zero. *)
Lemma of_nat_pos n :
  (0 < n)%nat -> Z.of_nat n < 2 ^ 32 ->
  nonneg (JS.of_nat n) /\ F2Z 1 <= F2Z (JS.of_nat n).
Proof.
  intros Hpos Hn. unfold nonneg, F2Z. rewrite of_nat_spec by done.
  destruct (Z.of_nat n) as [|p|p] eqn:E; [lia| |lia].
  cbn [binary_normalize].
  pose proof (binary_round_sign false p 0) as Hs. split; [done|].
  rewrite (SF2Z_sign _ _ Hs). cbn [cond_Zopp].
  change (Prim2SF 1) with (S754_finite false 4503599627370496 (-52)).
  cbn [SF2Z cond_Zopp].
  apply (binary_round_lower false p 0 4503599627370496 (-52));
    [done|done|].
  assert (4503599627370496 * pow2 (-52) = pow2 0) as ->.
  { pose proof (pow2_add (-52) 52 ltac:(done) ltac:(done)) as E52.
    change (-52 + 52) with 0 in E52. change (2 ^ 52) with 4503599627370496 in E52.
    lia. }
  pose proof (pow2_pos 0 ltac:(done)). nia.
Qed.

Lemma of_nat_truthy n :
  (0 < n)%nat -> Z.of_nat n < 2 ^ 32 ->
  is_nan (JS.of_nat n) = false /\ PrimFloat.is_zero (JS.of_nat n) = false.
Proof.
  intros Hpos Hn. destruct (of_nat_pos n Hpos Hn) as [Hs Hle].
  split; [by apply nonneg_not_nan|].
  assert (0 < F2Z 1) as H1 by (by vm_compute).
  unfold F2Z in *. rewrite is_zero_spec.
  destruct (Prim2SF (JS.of_nat n)); try done; simpl in Hle; lia.
Qed.

(** *** Finite numbers and zeros *)

Lemma finite_value x : is_finite x = true -> - pow2 1100 < F2Z x < pow2 1100.
Proof.
  rewrite is_finite_spec. unfold F2Z. pose proof (Prim2SF_valid x) as V.
  assert (0 < pow2 1100) by (by apply pow2_pos).
  destruct (Prim2SF x) as [s|s| |s m e]; try done; intros _; cbn [SF2Z];
    try lia.
  pose proof (bounded_value _ _ V). destruct s; cbn [cond_Zopp]; lia.
Qed.

Lemma value_finite x :
  is_nan x = false -> - pow2 1100 < F2Z x < pow2 1100 -> is_finite x = true.
Proof.
  rewrite is_nan_spec, is_finite_spec. unfold F2Z.
  destruct (Prim2SF x) as [s|s| |s m e]; try done. intros _.
  destruct s; cbn [SF2Z cond_Zopp]; lia.
Qed.

Lemma value_zero x : is_nan x = false -> F2Z x = 0 -> PrimFloat.is_zero x = true.
Proof.
  rewrite is_nan_spec, is_zero_spec. unfold F2Z. pose proof (Prim2SF_valid x) as V.
  assert (0 < pow2 1100) by (by apply pow2_pos).
  destruct (Prim2SF x) as [s|s| |s m e]; try done; intros _.
  all: try (destruct s; cbn [SF2Z cond_Zopp]; lia).
  all: pose proof (bounded_value _ _ V); destruct s; cbn [SF2Z cond_Zopp]; lia.
Qed.

Lemma zero_value x : PrimFloat.is_zero x = true -> is_nan x = false /\ F2Z x = 0.
Proof.
  rewrite is_nan_spec, is_zero_spec. unfold F2Z. by destruct (Prim2SF x).
Qed.

Lemma is_zero_false x :
  is_nan x = false -> PrimFloat.is_zero x = false <-> F2Z x <> 0.
Proof.
  intros Hn. split.
  - intros Hz E. by rewrite (value_zero x Hn E) in Hz.
  - intros Hne. destruct (PrimFloat.is_zero x) eqn:E; [|done].
    by apply zero_value in E as [_ ?].
Qed.

(** The square of a zero is +0. *)
Lemma sq_zero x : PrimFloat.is_zero x = true -> JS.sq x = 0%float.
Proof.
  rewrite is_zero_spec. intros H. apply Prim2SF_inj. unfold JS.sq.
  rewrite mul_spec. destruct (Prim2SF x) as [[]| | |]; done.
Qed.

(** The difference of two finite numbers with the same value is a zero. *)
Lemma sub_same x y :
  is_finite x = true -> (x =? y)%float = true ->
  PrimFloat.is_zero (x - y) = true.
Proof.
  intros Hx (Nx & Ny & E)%eqb_true.
  assert (is_finite y = true) as Hy.
  { apply value_finite; [done|]. rewrite <- E. by apply finite_value. }
  destruct (sub_finite x y Hx Hy) as (Hn & Hlo & Hhi).
  apply value_zero; [done|].
  specialize (Hlo 0%float eq_refl). specialize (Hhi 0%float eq_refl).
  change (F2Z 0) with 0 in Hlo, Hhi. lia.
Qed.

(** *** Division by +0 *)

Lemma div_zero e :
  nonneg_nan e ->
  (e / 0)%float = if is_nan e || PrimFloat.is_zero e then nan else infinity.
Proof.
  unfold nonneg_nan. rewrite is_nan_spec, is_zero_spec. intros H.
  apply Prim2SF_inj. rewrite div_spec.
  change (Prim2SF 0) with (S754_zero false).
  destruct (Prim2SF e) as [[]|[]| |[] m ex]; done.
Qed.

(** *** Truthiness *)

Lemma orElse_spec x d :
  orElse x d = if is_nan x || PrimFloat.is_zero x then d else x.
Proof.
  unfold orElse, JS.or. cbn [JS.truthy]. unfold JS.truthy_num.
  by destruct (is_nan x || PrimFloat.is_zero x).
Qed.

(** *** Reductions *)

Lemma reduce_from_nonneg_nan {A : Type} (g : A -> nat -> number) (l : list A)
    (i : nat) (acc : number) :
  nonneg_nan acc -> (forall x k, nonneg_nan (g x k)) ->
  nonneg_nan (reduce_from (fun s x k => s + g x k)%float i l acc).
Proof.
  revert i acc. induction l as [|x l IH]; intros i acc Ha Hg; [done|].
  simpl. apply IH; [|done]. by apply add_nonneg_nan.
Qed.

Lemma reduce_from_nonneg {A : Type} (g : A -> nat -> number) (l : list A)
    (i : nat) (acc : number) :
  nonneg acc -> (forall j x, l !! j = Some x -> nonneg (g x (i + j)%nat)) ->
  nonneg (reduce_from (fun s x k => s + g x k)%float i l acc).
Proof.
  revert i acc. induction l as [|x l IH]; intros i acc Ha Hg; [done|].
  simpl. apply IH.
  - apply add_nonneg; [done|]. specialize (Hg 0%nat x eq_refl).
    by rewrite Nat.add_0_r in Hg.
  - intros j y Hy. replace (S i + j)%nat with (i + S j)%nat by lia. by apply Hg.
Qed.

Lemma reduce_from_zero {A : Type} (g : A -> nat -> number) (l : list A)
    (i : nat) :
  (forall j x, l !! j = Some x -> g x (i + j)%nat = 0%float) ->
  reduce_from (fun s x k => s + g x k)%float i l 0%float = 0%float.
Proof.
  revert i. induction l as [|x l IH]; intros i Hg; [done|].
  simpl. pose proof (Hg 0%nat x eq_refl) as H0. rewrite Nat.add_0_r in H0.
  rewrite H0. change (0 + 0)%float with 0%float.
  apply IH. intros j y Hy. replace (S i + j)%nat with (i + S j)%nat by lia.
  by apply Hg.
Qed.

(** A reduction that adds one term per element is the sum of the terms. *)
Lemma reduce_from_sum {A : Type} (g : A -> nat -> number) (l : list A)
    (i : nat) (acc : number) :
  reduce_from (fun s x k => s + g x k)%float i l acc
  = foldl PrimFloat.add acc (imap (fun j x => g x (i + j)%nat) l).
Proof.
  revert i acc. induction l as [|x l IH]; intros i acc; [done|].
  simpl. rewrite IH, Nat.add_0_r. f_equal. apply imap_ext.
  intros j y _. simpl. f_equal. lia.
Qed.

Lemma imap_const {A B : Type} (f : A -> B) (l : list A) :
  imap (fun _ x => f x) l = map f l.
Proof.
  induction l as [|x l IH]; [done|]. simpl. f_equal. exact IH.
Qed.

Lemma imap_index_zip (X : list number) (y : list value) :
  (length X <= length y)%nat ->
  imap (fun j x => (x * toNumber (index y j))%float) X
  = zip_with PrimFloat.mul X (map toNumber y).
Proof.
  revert y. induction X as [|x X IH]; intros y Hlen; [done|].
  destruct y as [|v y]; [simpl in Hlen; lia|].
  simpl. f_equal. rewrite <- IH by (simpl in Hlen; lia).
  apply imap_ext. done.
Qed.

(** *** Magnitudes *)

Lemma abs_not_nan x : is_nan x = false -> nonneg (abs x).
Proof.
  rewrite is_nan_spec. unfold nonneg. rewrite abs_spec.
  by destruct (Prim2SF x).
Qed.

Lemma positive_nonneg x : (0 <? x)%float = true -> nonneg x.
Proof.
  intros (_ & Hn & H)%ltb_true. change (F2Z 0) with 0 in H.
  pose proof (get_sign_spec x Hn) as Hs. unfold nonneg.
  destruct (get_sign x); [|done].
  unfold F2Z in H. rewrite (SF2Z_sign _ _ Hs) in H. simpl in H. lia.
Qed.

Lemma negative_sign x : (x <? 0)%float = true -> has_sign true (Prim2SF x).
Proof.
  intros (Hn & _ & H)%ltb_true. change (F2Z 0) with 0 in H.
  pose proof (get_sign_spec x Hn) as Hs.
  destruct (get_sign x); [done|].
  unfold F2Z in H. rewrite (SF2Z_sign _ _ Hs) in H. simpl in H. lia.
Qed.

Lemma abs_positive x : (0 <? x)%float = true -> abs x = x.
Proof. intros H. by apply abs_nonneg, positive_nonneg. Qed.

Lemma abs_negative x : (x <? 0)%float = true -> abs x = (- x)%float.
Proof.
  intros H%negative_sign. apply Prim2SF_inj. rewrite abs_spec, opp_spec.
  destruct (Prim2SF x); simpl in *; by subst.
Qed.



(** *** Quotients of non-negative numbers *)

(** A non-negative number over a positive finite one is non-negative. *)
Lemma div_nonneg x y :
  nonneg x -> nonneg y -> is_finite y = true -> PrimFloat.is_zero y = false ->
  nonneg (x / y).
Proof.
  unfold nonneg. rewrite is_finite_spec, is_zero_spec, div_spec.
  destruct (Prim2SF x) as [[]|[]| |[] mx ex], (Prim2SF y) as [[]|[]| |[] my ey];
    try done.
  intros _ _ _ _. apply (SFdiv_sign false _ _ false).
Qed.

(** A non-negative number over a non-negative one that is not zero is
    non-negative, unless both are infinite. *)
Lemma div_nonneg_or_nan x y :
  nonneg x -> nonneg y -> PrimFloat.is_zero y = false ->
  if is_infinity x && is_infinity y then (x / y)%float = nan
  else nonneg (x / y).
Proof.
  unfold nonneg. rewrite !is_infinity_spec, is_zero_spec.
  intros Hx Hy Hz.
  destruct (Prim2SF x) as [[]|[]| |[] mx ex] eqn:Ex,
           (Prim2SF y) as [[]|[]| |[] my ey] eqn:Ey;
    try done; cbn [andb]; rewrite ?div_spec, ?Ex, ?Ey; try done.
  - apply Prim2SF_inj. by rewrite div_spec, Ex, Ey.
  - apply (SFdiv_sign false _ _ false).
Qed.

Lemma nonneg_finite_pos x :
  nonneg x -> is_finite x = true -> PrimFloat.is_zero x = false ->
  exists m e, Prim2SF x = S754_finite false m e
              /\ bounded prec emax m e = true
              /\ F2Z x = Z.pos m * pow2 e.
Proof.
  unfold nonneg, F2Z. rewrite is_finite_spec, is_zero_spec.
  pose proof (Prim2SF_valid x) as V.
  destruct (Prim2SF x) as [[]|[]| |[] m e]; try done. intros _ _ _. eauto.
Qed.

(** The quotient of two positive finite numbers is at most a positive
    finite number that the exact quotient does not exceed. *)
Lemma div_upper x y b :
  nonneg x -> is_finite x = true -> PrimFloat.is_zero x = false ->
  nonneg y -> is_finite y = true -> PrimFloat.is_zero y = false ->
  nonneg b -> is_finite b = true -> PrimFloat.is_zero b = false ->
  F2Z x * 2 ^ scale_exp <= F2Z b * F2Z y ->
  nonneg (x / y) /\ F2Z (x / y) <= F2Z b.
Proof.
  intros Hx Fx Zx Hy Fy Zy Hb Fb Zb H.
  destruct (nonneg_finite_pos x Hx Fx Zx) as (mx & ex & Ex & Vx & Exv).
  destruct (nonneg_finite_pos y Hy Fy Zy) as (my & ey & Ey & Vy & Eyv).
  destruct (nonneg_finite_pos b Hb Fb Zb) as (mb & eb & Eb & Vb & Ebv).
  destruct (SFdiv_bracket mx ex my ey Vx Vy) as (Hs & _ & Hup).
  unfold nonneg, F2Z at 1. rewrite div_spec, Ex, Ey. split; [done|].
  rewrite Ebv. apply Hup; [done|]. by rewrite <- Exv, <- Eyv, <- Ebv.
Qed.

(** *** The oscillator *)

Lemma F2Z_one : F2Z 1 = 2 ^ scale_exp.
Proof. by vm_compute. Qed.

(** [100 - 100 / (1 + rs)] lies between 0 and 100 for every non-negative
    [rs], finite or not. *)
Lemma oscillator_bounds rs :
  nonneg rs ->
  let r := (100 - 100 / (1 + rs))%float in
  ((0 <=? r)%float && (r <=? 100)%float) = true.
Proof.
  intros Hrs r.
  destruct (is_finite rs) eqn:Frs; cycle 1.
  { assert (rs = infinity) as ->; [|by vm_compute].
    apply Prim2SF_inj. unfold nonneg in Hrs. rewrite is_finite_spec in Frs.
    destruct (Prim2SF rs) as [[]|[]| |[] m e]; done. }
  destruct (add_finite 1 rs eq_refl Frs) as (Nd & Hlo & _).
  specialize (Hlo 1%float eq_refl).
  pose proof (nonneg_value rs Hrs) as Hv.
  specialize (Hlo ltac:(lia)).
  assert (nonneg (1 + rs)%float) as Hd by (by apply add_nonneg).
  set (d := (1 + rs)%float) in *.
  destruct (is_finite d) eqn:Fd; cycle 1.
  { assert (d = infinity) as Ed.
    { apply Prim2SF_inj. unfold nonneg in Hd. rewrite is_finite_spec in Fd.
      destruct (Prim2SF d) as [[]|[]| |[] m e]; done. }
    unfold r. fold d. rewrite Ed. by vm_compute. }
  assert (0 < F2Z 1) as H1 by (by vm_compute).
  assert (PrimFloat.is_zero d = false) as Zd by (apply is_zero_false; [done|lia]).
  destruct (div_upper 100 d 100) as [Hq Hqle]; try done.
  { rewrite F2Z_one in Hlo. assert (0 < F2Z 100) by (by vm_compute). nia. }
  set (q := (100 / d)%float) in *.
  pose proof (nonneg_value q Hq) as Hq0.
  assert (is_finite q = true) as Fq.
  { apply value_finite; [by apply nonneg_not_nan|].
    pose proof (finite_value 100 eq_refl). lia. }
  destruct (sub_finite 100 q eq_refl Fq) as (Nr & Hrlo & Hrhi).
  specialize (Hrlo 0%float eq_refl). specialize (Hrhi 100%float eq_refl).
  change (F2Z 0) with 0 in Hrlo.
  apply andb_true_intro. split; apply leb_true; repeat split; try done.
  - change (F2Z 0) with 0. apply Hrlo. lia.
  - apply Hrhi. lia.
Qed.

(** *** Sums of non-negative numbers *)

Lemma foldl_add_nonneg (xs : list number) (acc : number) :
  nonneg acc -> Forall nonneg xs -> nonneg (foldl PrimFloat.add acc xs).
Proof.
  revert acc. induction xs as [|x xs IH]; intros acc Ha Hxs; [done|].
  apply Forall_cons in Hxs as [Hx Hxs]. simpl. apply IH; [|done].
  by apply add_nonneg.
Qed.

Lemma spec_sum_nonneg (xs : list number) : Forall nonneg xs -> nonneg (spec_sum xs).
Proof. by apply foldl_add_nonneg. Qed.

(** *** Differences and squares *)

Lemma sub_not_nan x y :
  is_finite x = true -> is_nan y = false -> is_nan (x - y) = false.
Proof.
  rewrite is_finite_spec, !is_nan_spec, sub_spec.
  destruct (Prim2SF x) as [sx|sx| |sx mx ex] eqn:Ex,
           (Prim2SF y) as [sy|sy| |sy my ey] eqn:Ey; try done.
  - by destruct sx, sy.
  - intros _ _. pose proof (Prim2SF_valid x) as Vx. pose proof (Prim2SF_valid y) as Vy.
    rewrite Ex in Vx. rewrite Ey in Vy.
    destruct (SFsub_finite sx mx ex sy my ey Vx Vy) as (D & e & _ & -> & _).
    pose proof (binary_normalize_not_nan D e).
    by destruct (binary_normalize prec emax D e false).
Qed.

Lemma mul_self_nonneg x : is_nan x = false -> nonneg (x * x).
Proof.
  rewrite is_nan_spec. unfold nonneg. rewrite mul_spec.
  destruct (Prim2SF x) as [[]|[]| |s m e]; try done. intros _.
  unfold SF64mul, SFmul.
  assert (xorb s s = false) as -> by (by destruct s).
  by apply binary_round_aux_sign.
Qed.

(** *** Adding and subtracting a non-negative number *)

Lemma infinity_value x :
  nonneg x -> is_finite x = false -> x = infinity.
Proof.
  unfold nonneg. rewrite is_finite_spec. intros H F. apply Prim2SF_inj.
  destruct (Prim2SF x) as [[]|[]| |[] m e]; done.
Qed.

Lemma add_nonneg_ge x t :
  is_finite x = true -> nonneg t -> (x <=? x + t)%float = true.
Proof.
  intros Fx Ht. pose proof (finite_not_nan x Fx) as Nx.
  destruct (is_finite t) eqn:Ft.
  - destruct (add_finite x t Fx Ft) as (Ns & Hlo & _).
    apply leb_true. split; [done|]. split; [done|].
    apply Hlo; [done|]. pose proof (nonneg_value t Ht). lia.
  - rewrite (infinity_value t Ht Ft).
    assert ((x + infinity)%float = infinity) as ->.
    { apply Prim2SF_inj. rewrite add_spec. rewrite is_finite_spec in Fx.
      by destruct (Prim2SF x) as [[]|[]| |[] m e]. }
    apply leb_true. split; [done|]. split; [done|].
    pose proof (finite_value x Fx). change (F2Z infinity) with (pow2 1100). lia.
Qed.

Lemma sub_nonneg_le x t :
  is_finite x = true -> nonneg t -> (x - t <=? x)%float = true.
Proof.
  intros Fx Ht. pose proof (finite_not_nan x Fx) as Nx.
  destruct (is_finite t) eqn:Ft.
  - destruct (sub_finite x t Fx Ft) as (Ns & _ & Hhi).
    apply leb_true. split; [done|]. split; [done|].
    apply Hhi; [done|]. pose proof (nonneg_value t Ht). lia.
  - rewrite (infinity_value t Ht Ft).
    assert ((x - infinity)%float = neg_infinity) as ->.
    { apply Prim2SF_inj. rewrite sub_spec. rewrite is_finite_spec in Fx.
      by destruct (Prim2SF x) as [[]|[]| |[] m e]. }
    apply leb_true. split; [done|]. split; [done|].
    pose proof (finite_value x Fx).
    change (F2Z neg_infinity) with (- pow2 1100). lia.
Qed.

(** *** Square roots *)

Lemma JS_sqrt_nonneg (Math_sqrt : number -> number) (v : number) :
  (forall x, nonneg x -> is_finite x = true -> PrimFloat.is_zero x = false ->
             nonneg (Math_sqrt x)) ->
  nonneg v -> nonneg (JS.sqrt Math_sqrt v).
Proof.
  intros Hsqrt Hv. unfold JS.sqrt.
  rewrite (nonneg_not_nan v Hv).
  destruct (PrimFloat.is_zero v) eqn:Zv; [done|].
  destruct (v <? 0)%float eqn:Lv.
  { apply ltb_true in Lv as (_ & _ & H). change (F2Z 0) with 0 in H.
    pose proof (nonneg_value v Hv). lia. }
  destruct (is_infinity v) eqn:Iv; [done|].
  apply Hsqrt; [done| |done].
  unfold is_finite. by rewrite (nonneg_not_nan v Hv), Iv.
Qed.

(** The correctly rounded square root is non-negative. *)
Lemma sqrt_nonneg x : nonneg x -> nonneg (PrimFloat.sqrt x).
Proof.
  unfold nonneg. rewrite sqrt_spec.
  destruct (Prim2SF x) as [[]|[]| |[] m e]; try done. intros _.
  unfold SF64sqrt, SFsqrt, SFsqrt_core_binary.
  set (m' := match _ with 0 => Z.pos m | Z.pos _ => _ | Z.neg _ => 0 end).
  assert (0 <= m') as Hm'.
  { unfold m'. destruct (e - 2 * _); try lia. apply Z.shiftl_nonneg. lia. }
  pose proof (Z.sqrtrem_spec m' Hm') as Hspec.
  destruct (Z.sqrtrem m') as [q r].
  apply binary_round_aux_sign. lia.
Qed.

(** *** The comparator [(a, b) => a - b] *)

(** The value of a finite number is a multiple of the least positive
    number of the format. *)
Lemma finite_multiple x :
  is_finite x = true -> exists k, F2Z x = k * pow2 (-1074).
Proof.
  rewrite is_finite_spec. unfold F2Z. pose proof (Prim2SF_valid x) as V.
  destruct (Prim2SF x) as [s|s| |s m e]; try done; intros _.
  - by exists 0.
  - pose proof (bounded_inv _ _ V) as (He & _).
    assert (pow2 e = pow2 (-1074) * 2 ^ (e + 1074)) as E.
    { replace e with (-1074 + (e + 1074)) at 1 by lia.
      apply pow2_add; [done|lia]. }
    cbn [SF2Z]. rewrite E.
    destruct s; cbn [cond_Zopp].
    + exists (- (Z.pos m * 2 ^ (e + 1074))). lia.
    + exists (Z.pos m * 2 ^ (e + 1074)). lia.
Qed.


(** *** Magnitudes *)

Lemma F2Z_abs x : F2Z (abs x) = Z.abs (F2Z x).
Proof.
  unfold F2Z. rewrite abs_spec.
  destruct (Prim2SF x) as [s|s| |s m e]; try done; cbn [SFabs SF2Z].
  - pose proof (pow2_nonneg 1100). destruct s; cbn [cond_Zopp]; lia.
  - pose proof (pow2_nonneg e). destruct s; cbn [cond_Zopp]; lia.
Qed.

Lemma is_nan_abs x : is_nan (abs x) = is_nan x.
Proof. rewrite !is_nan_spec, abs_spec. by destruct (Prim2SF x). Qed.

Lemma is_finite_abs x : is_finite (abs x) = is_finite x.
Proof. rewrite !is_finite_spec, abs_spec. by destruct (Prim2SF x). Qed.


Lemma sub_negative x y :
  is_finite x = true -> is_finite y = true ->
  (x - y <? 0)%float = (x <? y)%float.
Proof.
  intros Fx Fy.
  destruct (sub_finite x y Fx Fy) as (Nd & Hlo & Hhi).
  rewrite !ltb_value by auto using finite_not_nan.
  change (F2Z 0) with 0.
  destruct (Z.ltb_spec (F2Z x) (F2Z y)) as [Hlt|Hge].
  - apply Z.ltb_lt.
    destruct (finite_multiple x Fx) as [kx Ex].
    destruct (finite_multiple y Fy) as [ky Ey].
    assert (0 < pow2 (-1074)) as Hp by (by apply pow2_pos).
    specialize (Hhi (-0x1p-1074)%float eq_refl).
    change (F2Z (-0x1p-1074)) with (- (1 * pow2 (-1074))) in Hhi.
    assert (F2Z x - F2Z y <= - (1 * pow2 (-1074))); [|lia].
    rewrite Ex, Ey in Hlt |- *. assert (kx < ky) by nia. nia.
  - apply Z.ltb_ge. specialize (Hlo 0%float eq_refl).
    change (F2Z 0) with 0 in Hlo. lia.
Qed.

(** The magnitude of a zero is +0. *)
Lemma abs_zero x : PrimFloat.is_zero x = true -> abs x = 0%float.
Proof.
  rewrite is_zero_spec. intros H. apply Prim2SF_inj. rewrite abs_spec.
  by destruct (Prim2SF x).
Qed.

(** +0 over a number that is not negative, not zero and not NaN is +0. *)
Lemma zero_div n :
  nonneg n -> PrimFloat.is_zero n = false -> (0 / n)%float = 0%float.
Proof.
  unfold nonneg. rewrite is_zero_spec. intros Hn Hz.
  apply Prim2SF_inj. rewrite div_spec.
  change (Prim2SF 0) with (S754_zero false).
  by destruct (Prim2SF n) as [[]|[]| |[] m e].
Qed.

(** +0 over a sum of squares: NaN when the sum is NaN or zero. *)
Lemma zero_div_nonneg_nan t :
  nonneg_nan t ->
  (0 / t)%float = if is_nan t || PrimFloat.is_zero t then nan else 0%float.
Proof.
  unfold nonneg_nan. rewrite is_nan_spec, is_zero_spec. intros Ht.
  apply Prim2SF_inj. rewrite div_spec.
  change (Prim2SF 0) with (S754_zero false).
  by destruct (Prim2SF t) as [[]|[]| |[] m e].
Qed.

(** A number that is not NaN times a finite number that is not zero is not
    NaN. *)
Lemma mul_not_nan x y :
  is_nan x = false -> is_finite y = true -> PrimFloat.is_zero y = false ->
  is_nan (x * y) = false.
Proof.
  rewrite !is_nan_spec, is_finite_spec, is_zero_spec, mul_spec.
  destruct (Prim2SF x) as [sx|sx| |sx mx ex], (Prim2SF y) as [sy|sy| |sy my ey];
    try done.
  intros _ _ _. unfold SF64mul, SFmul.
  pose proof (binary_round_aux_sign (xorb sx sy) (Z.pos (mx * my)) (ex + ey)
                loc_Exact ltac:(done)) as H.
  by destruct (binary_round_aux _ _ _ _ _ _).
Qed.

End Binary64.

(** * Properties *)

(** ** Forecaster *)

Lemma forecast_length lin poly len : length (forecast lin poly len) = 30.
Proof. reflexivity. Qed.

Lemma forecast_lookup lin poly len s :
  1 <= s <= 30 ->
  forecast lin poly len !! (s - 1) = Some (forecastPoint lin poly len s).
Proof.
  intros Hs. unfold forecast. rewrite list_lookup_fmap.
  rewrite (lookup_seq_lt 1 30 (s - 1)) by lia. simpl.
  do 2 f_equal. lia.
Qed.

(** C8.  For every pair of fitted models and every non-empty cleaned series
    with last observed index [L], the first forecast point has the linear
    value [predict lin (L + 1)], and the point of step [s] (1 to 30) is at
    position [s - 1], evaluates both models at index [L + s] and has their
    average as its ensemble value. *)
Theorem forecast_continuity lin poly (cleaned : list Row) (L : nat) :
  length cleaned = S L ->
  linear <$> forecast lin poly (length cleaned) !! 0
    = Some (predict lin (JS.of_nat (L + 1)))
  /\ forall s, 1 <= s <= 30 ->
       exists pt,
         forecast lin poly (length cleaned) !! (s - 1) = Some pt
         /\ day pt = s
         /\ linear pt = predict lin (JS.of_nat (L + s))
         /\ polynomial pt = predictPoly poly (JS.of_nat (L + s))
         /\ ensemble pt = ((linear pt + polynomial pt) / 2)%float.
Proof.
  intros Hlen. rewrite Hlen. split.
  - simpl. do 3 f_equal. lia.
  - intros s Hs. exists (forecastPoint lin poly (S L) s).
    split; [by apply forecast_lookup|].
    unfold forecastPoint; simpl. by rewrite Nat.sub_0_r.
Qed.

Lemma forecast_continuity_witness :
  let cleaned := [mkRow "2024-01-02" VUndef VUndef VUndef (VNum 10%float) VNull;
                  mkRow "2024-01-03" VUndef VUndef VUndef (VNum 12%float) VNull] in
  let lin := {| slope := 2%float; intercept := 10%float |} in
  let poly := {| coef_a := 0%float; coef_b := 2%float; coef_c := 10%float |} in
  linear <$> forecast lin poly (length cleaned) !! 0
    = Some (predict lin (JS.of_nat (1 + 1))).
Proof.
  intros cleaned lin poly.
  exact (proj1 (forecast_continuity lin poly cleaned 1 eq_refl)).
Defined.

(** ** Signal engine *)

Lemma at_index_nat {A : Type} (rows : list A) (i : nat) :
  at_index rows (Z.of_nat i) = rows !! i.
Proof.
  unfold at_index. destruct (Z.ltb_spec (Z.of_nat i) 0); [lia|].
  by rewrite Nat2Z.id.
Qed.

Lemma crossover_Some here before last prev :
  crossover here before last (Some prev)
  = Some (JS.truthy (sma20 last) && JS.truthy (sma50 last)
          && here (toNumber (sma20 last)) (toNumber (sma50 last))
          && before (toNumber (sma20 prev)) (toNumber (sma50 prev))).
Proof.
  unfold crossover.
  destruct (JS.truthy (sma20 last) && JS.truthy (sma50 last)
            && here (toNumber (sma20 last)) (toNumber (sma50 last))); done.
Qed.

(** An [undefined] RSI fails both comparisons of the RSI rule, as NaN. *)
Lemma rsi_rule_undefined (last : Row) (test : number -> bool) :
  test nan = false ->
  negb (is_undefined (rsi last)) && test (toNumber (rsi last))
  = test (toNumber (rsi last)).
Proof. intros H. destruct (rsi last); simpl; by rewrite ?H. Qed.

Lemma confidence_votes (a b : bool) :
  JS.min 90 (50 + JS.of_nat (countVotes [a; b]) * 20)%float
  = JS.of_nat (Nat.min 90 (50 + 20 * (Nat.b2n a + Nat.b2n b))).
Proof. by destruct a, b. Qed.

(** C9 (as the code has it).  For every indicator series of at least two
    records, the signal is produced and its confidence is 50 + 20 x (the
    number of rule families with a vote) capped at 90, where the crossover
    family votes only if the current record has a truthy SMA20 and a truthy
    SMA50 (neither absent, nor NaN, nor 0); it is one of 50, 70 and 90.
    When both averages are truthy this is the count of the specification. *)
Theorem generateSignal_confidence Number_toString (rows : list Row)
    (prev last : Row) :
  2 <= length rows ->
  rows !! (length rows - 2) = Some prev ->
  rows !! (length rows - 1) = Some last ->
  exists sig,
    generateSignal Number_toString rows = Some sig
    /\ probability sig = JS.of_nat (guarded_confidence prev last)
    /\ (JS.truthy (sma20 last) = true -> JS.truthy (sma50 last) = true ->
        probability sig = JS.of_nat (spec_confidence prev last))
    /\ (probability sig = 50%float \/ probability sig = 70%float
        \/ probability sig = 90%float).
Proof.
  intros Hn Hprev Hlast. unfold generateSignal.
  replace (Z.of_nat (length rows) - 1)%Z with (Z.of_nat (length rows - 1))
    by lia.
  replace (Z.of_nat (length rows) - 2)%Z with (Z.of_nat (length rows - 2))
    by lia.
  rewrite !at_index_nat, Hprev, Hlast. cbn [mbind option_bind].
  rewrite !crossover_Some. cbn [mbind option_bind].
  eexists; split; [reflexivity|]. cbn [probability].
  rewrite (rsi_rule_undefined last (fun r => (r <? 35)%float))
    by apply ltb_nan_l.
  rewrite (rsi_rule_undefined last (fun r => JS.gtb r 65%float))
    by apply ltb_nan_r.
  rewrite confidence_votes.
  change ((toNumber (rsi last) <? 35)%float || JS.gtb (toNumber (rsi last)) 65)
    with (spec_rsiVote last).
  assert (JS.truthy (sma20 last) && JS.truthy (sma50 last)
            && JS.gtb (toNumber (sma20 last)) (toNumber (sma50 last))
            && (toNumber (sma20 prev) <=? toNumber (sma50 prev))%float
          || JS.truthy (sma20 last) && JS.truthy (sma50 last)
             && (toNumber (sma20 last) <? toNumber (sma50 last))%float
             && JS.geb (toNumber (sma20 prev)) (toNumber (sma50 prev))
          = guarded_crossoverVote prev last) as ->.
  { unfold guarded_crossoverVote, spec_crossoverVote, JS.gtb, JS.geb.
    destruct (JS.truthy (sma20 last)), (JS.truthy (sma50 last)); try done.
    cbn [andb]. f_equal; apply andb_comm. }
  fold (guarded_confidence prev last).
  split; [done|]. split.
  - intros H20 H50. unfold guarded_confidence, guarded_crossoverVote.
    by rewrite H20, H50.
  - unfold guarded_confidence.
    destruct (spec_rsiVote last), (guarded_crossoverVote prev last);
      [right; right|right; left|right; left|left]; reflexivity.
Qed.

Lemma generateSignal_confidence_witness :
  let prev := {| date := "2024-03-01"; open := VNull; high := VNull;
                 low := VNull; close := VNum 100%float; volume := VNull;
                 sma10 := VUndef; sma20 := VNum 99%float;
                 sma50 := VNum 101%float; rsi := VNum 30%float;
                 upperBand := VUndef; lowerBand := VUndef;
                 volatility := VNum 2%float |} in
  let last := {| date := "2024-03-04"; open := VNull; high := VNull;
                 low := VNull; close := VNum 100%float; volume := VNull;
                 sma10 := VUndef; sma20 := VNum 99%float;
                 sma50 := VNum 101%float; rsi := VNum 28%float;
                 upperBand := VUndef; lowerBand := VUndef;
                 volatility := VNum 2%float |} in
  exists sig,
    generateSignal toString_integer [prev; last] = Some sig
    /\ probability sig = JS.of_nat (guarded_confidence prev last)
    /\ (JS.truthy (sma20 last) = true -> JS.truthy (sma50 last) = true ->
        probability sig = JS.of_nat (spec_confidence prev last))
    /\ (probability sig = 50%float \/ probability sig = 70%float
        \/ probability sig = 90%float).
Proof.
  intros prev last.
  apply (generateSignal_confidence toString_integer [prev; last] prev last);
    [simpl; lia | reflexivity | reflexivity].
Defined.

(** C9 (as stated) fails when the current record has an SMA20 that is
    defined and equal to 0: SMA20 crosses SMA50 upwards between the two
    records (-2 <= -1, then 0 > -1), the RSI is neutral, one family has a
    vote and the claimed confidence is 70; the code tests the truthiness of
    [last.sma20], skips the crossing and reports 50 with HOLD. *)
Lemma generateSignal_confidence_zero_sma20 :
  let prev := {| date := "2024-03-01"; open := VNull; high := VNull;
                 low := VNull; close := VNum 100%float; volume := VNull;
                 sma10 := VUndef; sma20 := VNum (-2)%float;
                 sma50 := VNum (-1)%float; rsi := VNum 50%float;
                 upperBand := VUndef; lowerBand := VUndef;
                 volatility := VNum 2%float |} in
  let last := {| date := "2024-03-04"; open := VNull; high := VNull;
                 low := VNull; close := VNum 100%float; volume := VNull;
                 sma10 := VUndef; sma20 := VNum 0%float;
                 sma50 := VNum (-1)%float; rsi := VNum 50%float;
                 upperBand := VUndef; lowerBand := VUndef;
                 volatility := VNum 2%float |} in
  spec_rsiVote last = false
  /\ spec_crossoverVote prev last = true
  /\ JS.of_nat (spec_confidence prev last) = 70%float
  /\ (fun sig => (action sig, probability sig))
       <$> generateSignal toString_integer [prev; last]
     = Some (HOLD, 50%float).
Proof. repeat split; vm_compute; reflexivity. Qed.

(** The specification's signal scenario: rsi 30 then 28, sma20 below sma50
    throughout; the RSI family alone votes. *)
Lemma generateSignal_scenario :
  let row := fun r =>
    {| date := "2024-03-01"; open := VNull; high := VNull; low := VNull;
       close := VNum 100%float; volume := VNull; sma10 := VUndef;
       sma20 := VNum 99%float; sma50 := VNum 101%float; rsi := VNum r;
       upperBand := VUndef; lowerBand := VUndef;
       volatility := VNum 2%float |} in
  (fun sig => (action sig, probability sig, stop sig, target sig))
    <$> generateSignal toString_integer [row 30%float; row 28%float]
  = Some (BUY, 70%float, 99%float, 102%float).
Proof. vm_compute. reflexivity. Qed.

(** ** Heap *)

Lemma deref_store_eq (h : heap) l f :
  l < length h -> deref (store h l f) l = f (deref h l).
Proof. intros H. unfold deref, store. by rewrite list_lookup_total_insert_eq. Qed.

Lemma deref_store_ne (h : heap) l l' f :
  l <> l' -> deref (store h l f) l' = deref h l'.
Proof. intros H. unfold deref, store. by rewrite list_lookup_total_insert_ne. Qed.

Lemma length_store (h : heap) l f : length (store h l f) = length h.
Proof. unfold store. apply length_insert. Qed.

Lemma store_dangling (h : heap) l f : length h <= l -> store h l f = h.
Proof. intros H. unfold store. by apply list_insert_ge. Qed.

Lemma deref_alloc_old (h : heap) r l :
  l < length h -> deref (alloc h r).1 l = deref h l.
Proof. intros H. unfold deref, alloc. simpl. by rewrite lookup_total_app_l. Qed.

Lemma deref_alloc_new (h : heap) r : deref (alloc h r).1 (alloc h r).2 = r.
Proof.
  unfold deref, alloc. simpl.
  rewrite lookup_total_app_r by lia. by rewrite Nat.sub_diag.
Qed.

(** A store to one field leaves the other fields of the object alone. *)
Lemma volume_store_close (h : heap) l l' c :
  volume (deref (store h l (set_close c)) l') = volume (deref h l').
Proof.
  destruct (decide (l = l')) as [<-|Hne]; [|by rewrite deref_store_ne].
  destruct (decide (l < length h)) as [Hlt|Hge].
  - by rewrite deref_store_eq.
  - rewrite store_dangling by lia. done.
Qed.

Lemma date_store (h : heap) l l' f :
  (forall r, date (f r) = date r) ->
  date (deref (store h l f) l') = date (deref h l').
Proof.
  intros Hf. destruct (decide (l = l')) as [<-|Hne]; [|by rewrite deref_store_ne].
  destruct (decide (l < length h)) as [Hlt|Hge].
  - by rewrite deref_store_eq, Hf.
  - rewrite store_dangling by lia. done.
Qed.

(** ** Cleaning engine: deduplication *)

Lemma dedupe_spec (h : heap) (rows : list loc) (seen : gset string) (s : Issues) :
  let out := (dedupe h seen rows s).1 in
  NoDup (dates h out)
  /\ (forall l, l ∈ out -> l ∈ rows /\ date (deref h l) ∉ seen).
Proof.
  revert seen s. induction rows as [|row rows IH]; intros seen s; simpl.
  { split; [constructor|]. intros l Hl. by apply elem_of_nil in Hl. }
  case_bool_decide as Hseen.
  - destruct (IH seen (incr_duplicates s)) as [Hnd Hin]. split; [done|].
    intros l Hl. destruct (Hin l Hl). split; [by right|done].
  - specialize (IH ({[date (deref h row)]} ∪ seen) s).
    destruct (dedupe h ({[date (deref h row)]} ∪ seen) rows s) as [kept s'].
    simpl in *. destruct IH as [Hnd Hin]. split.
    + constructor; [|done]. intros Hd.
      apply list_elem_of_fmap in Hd as (l & Hdate & Hl).
      destruct (Hin l Hl) as [_ Hfresh]. apply Hfresh.
      apply elem_of_union_l, elem_of_singleton. by symmetry.
    + intros l Hl. apply elem_of_cons in Hl as [->|Hl]; [split; [by left|done]|].
      destruct (Hin l Hl) as [? Hfresh]. split; [by right|].
      intros Hs. by apply Hfresh, elem_of_union_r.
Qed.

Lemma dates_NoDup (h : heap) (rows : list loc) :
  NoDup (dates h rows) -> NoDup rows.
Proof. apply NoDup_fmap_1. Qed.

(** ** Cleaning engine: forward fill *)

Lemma sum_list_with_ext (f g : loc -> nat) (l : list loc) :
  (forall x, x ∈ l -> f x = g x) -> sum_list_with f l = sum_list_with g l.
Proof.
  induction l as [|x l IH]; intros H; [done|]. simpl.
  rewrite (H x) by by left. rewrite IH; [done|]. intros y Hy. apply H. by right.
Qed.

Lemma sum_list_with_zero (f : loc -> nat) (l : list loc) :
  (forall x, x ∈ l -> f x = 0) -> sum_list_with f l = 0.
Proof.
  induction l as [|x l IH]; intros H; [done|]. simpl.
  rewrite (H x) by by left. rewrite IH; [done|]. intros y Hy. apply H. by right.
Qed.

Section ForwardFill.

Variable missing : value -> bool.

Lemma fillStep_None cur st : fillStep missing None cur st = st.
Proof. by destruct st. Qed.

Lemma fillStep_length prev cur (h : heap) s :
  length (fillStep missing prev cur (h, s)).1 = length h.
Proof.
  unfold fillStep. destruct prev as [p|]; [|done].
  destruct (missing (close _)); destruct (missing (volume _)); simpl;
    by rewrite ?length_store.
Qed.

(** The step writes to the current object only. *)
Lemma fillStep_other prev cur (h : heap) s l :
  l <> cur -> deref (fillStep missing prev cur (h, s)).1 l = deref h l.
Proof.
  intros Hne. unfold fillStep. destruct prev as [p|]; [|done].
  destruct (missing (close _)); destruct (missing (volume _)); simpl;
    by rewrite ?deref_store_ne.
Qed.

Lemma fillStep_close p cur (h : heap) s :
  p <> cur -> cur < length h ->
  close (deref (fillStep missing (Some p) cur (h, s)).1 cur)
  = if missing (close (deref h cur)) then close (deref h p)
    else close (deref h cur).
Proof.
  intros Hne Hlt. unfold fillStep.
  destruct (missing (close (deref h cur))) eqn:Hc.
  - destruct (missing (volume _)); simpl.
    + rewrite deref_store_eq by by rewrite length_store.
      simpl. by rewrite deref_store_eq.
    + by rewrite deref_store_eq.
  - destruct (missing (volume _)); simpl; [|done].
    by rewrite deref_store_eq.
Qed.

Lemma fillStep_volume p cur (h : heap) s :
  p <> cur -> cur < length h ->
  volume (deref (fillStep missing (Some p) cur (h, s)).1 cur)
  = if missing (volume (deref h cur)) then volume (deref h p)
    else volume (deref h cur).
Proof.
  intros Hne Hlt. unfold fillStep.
  destruct (missing (close (deref h cur))) eqn:Hc; cbn beta iota zeta.
  - rewrite !volume_store_close.
    destruct (missing (volume (deref h cur))); simpl.
    + rewrite deref_store_eq by by rewrite length_store. done.
    + by rewrite ?volume_store_close.
  - destruct (missing (volume (deref h cur))); simpl; [|done].
    by rewrite deref_store_eq.
Qed.

(** The step counts the fields it finds missing, one by one. *)
Lemma fillStep_nulls p cur (h : heap) s :
  nulls (fillStep missing (Some p) cur (h, s)).2
  = nulls s + missingFields missing h cur.
Proof.
  unfold fillStep, missingFields.
  destruct (missing (close (deref h cur))) eqn:Hc; cbn beta iota zeta.
  - rewrite volume_store_close.
    destruct (missing (volume (deref h cur))); simpl; lia.
  - destruct (missing (volume (deref h cur))); simpl; lia.
Qed.

Lemma fillLoop_length rest prev (h : heap) s :
  length (fillLoop missing prev rest (h, s)).1 = length h.
Proof.
  revert prev h s. induction rest as [|cur rest IH]; intros prev h s; [done|].
  cbn [fillLoop]. destruct (fillStep missing prev cur (h, s)) as [h1 s1] eqn:E.
  rewrite IH. by rewrite <- (fillStep_length prev cur h s), E.
Qed.

(** The loop writes to the objects of its array only. *)
Lemma fillLoop_other rest prev (h : heap) s l :
  l ∉ rest -> deref (fillLoop missing prev rest (h, s)).1 l = deref h l.
Proof.
  revert prev h s. induction rest as [|cur rest IH]; intros prev h s Hl; [done|].
  cbn [fillLoop]. apply not_elem_of_cons in Hl as [Hne Hl].
  destruct (fillStep missing prev cur (h, s)) as [h1 s1] eqn:E.
  rewrite IH by done. by rewrite <- (fillStep_other prev cur h s l Hne), E.
Qed.

Lemma missingFields_fillStep prev cur (h : heap) s l :
  l <> cur ->
  missingFields missing (fillStep missing prev cur (h, s)).1 l
  = missingFields missing h l.
Proof. intros Hne. unfold missingFields. by rewrite fillStep_other. Qed.

Lemma fillLoop_nulls rest prev (h : heap) s :
  NoDup rest ->
  nulls (fillLoop missing prev rest (h, s)).2
  = nulls s
    + sum_list_with (missingFields missing h)
        (match prev with Some _ => rest | None => tail rest end).
Proof.
  revert prev h s. induction rest as [|cur rest IH]; intros prev h s Hnd.
  { destruct prev; simpl; lia. }
  apply NoDup_cons in Hnd as [Hcur Hnd]. cbn [fillLoop].
  destruct (fillStep missing prev cur (h, s)) as [h1 s1] eqn:E.
  rewrite IH by done.
  assert (sum_list_with (missingFields missing h1) rest
          = sum_list_with (missingFields missing h) rest) as ->.
  { apply sum_list_with_ext. intros l Hl.
    rewrite <- (missingFields_fillStep prev cur h s l); [by rewrite E|].
    intros ->. done. }
  destruct prev as [p|].
  - pose proof (fillStep_nulls p cur h s) as Hn. rewrite E in Hn. simpl in *.
    lia.
  - rewrite fillStep_None in E. injection E as <- <-. done.
Qed.

(** What the loop leaves in the object at position [i]: a missing field is
    the predecessor's final field; a present one is kept. *)
Lemma fillLoop_spec rest prev (h : heap) s :
  NoDup (option_list prev ++ rest) ->
  wf h (option_list prev ++ rest) ->
  let h' := (fillLoop missing prev rest (h, s)).1 in
  forall i cur, rest !! i = Some cur ->
    match (match i with O => prev | S j => rest !! j end) with
    | None => deref h' cur = deref h cur
    | Some p =>
        close (deref h' cur)
        = (if missing (close (deref h cur)) then close (deref h' p)
           else close (deref h cur))
        /\ volume (deref h' cur)
           = (if missing (volume (deref h cur)) then volume (deref h' p)
              else volume (deref h cur))
    end.
Proof.
  revert prev h s. induction rest as [|x rest IH]; intros prev h s Hnd Hwf;
    [done|].
  intros h' i cur Hi. subst h'. cbn [fillLoop].
  destruct (fillStep missing prev x (h, s)) as [h1 s1] eqn:E.
  assert (h1 = (fillStep missing prev x (h, s)).1) as Eh1 by by rewrite E.
  assert ((x ∉ rest) /\ NoDup rest
          /\ (forall p, prev = Some p -> p <> x /\ (p ∉ rest)))
    as (Hx & Hnd' & Hprev).
  { destruct prev as [p|]; simpl in Hnd.
    - apply NoDup_cons in Hnd as [Hp Hnd]. apply NoDup_cons in Hnd as [? ?].
      apply not_elem_of_cons in Hp as [? ?].
      split; [done|]. split; [done|]. by intros q [= <-].
    - apply NoDup_cons in Hnd as [? ?]. done. }
  assert (x < length h) as Hxlt.
  { unfold wf in Hwf. rewrite Forall_app, Forall_cons in Hwf. tauto. }
  destruct i as [|i].
  - (* the head of the array *)
    injection Hi as <-. rewrite fillLoop_other by done.
    destruct prev as [p|].
    + destruct (Hprev p eq_refl) as [Hpx Hp].
      rewrite fillLoop_other by done.
      rewrite Eh1, (fillStep_other _ _ _ _ p Hpx).
      split; [by apply fillStep_close|by apply fillStep_volume].
    + rewrite fillStep_None in E. by injection E as <- <-.
  - (* a later row: its predecessor is in the array *)
    simpl in Hi.
    assert (cur <> x) as Hcur.
    { intros ->. apply Hx. by eapply list_elem_of_lookup_2. }
    specialize (IH (Some x) h1 s1). simpl in IH.
    assert (deref h1 cur = deref h cur) as Hsame
      by (by rewrite Eh1, fillStep_other).
    assert (wf h1 (x :: rest)) as Hwf1.
    { unfold wf in *. rewrite Eh1, fillStep_length.
      rewrite Forall_app, Forall_cons in Hwf. constructor; tauto. }
    assert (NoDup (x :: rest)) as Hnd1 by by constructor.
    rewrite <- Hsame. destruct i as [|i]; simpl.
    + apply (IH Hnd1 Hwf1 0 cur Hi).
    + apply (IH Hnd1 Hwf1 (S i) cur Hi).
Qed.

End ForwardFill.

(** C4.  For every deduplicated series (no two rows share a date), after
    the forward fill: a close (volume) that was missing at an index i > 0 is
    the final close (volume) of row i - 1; one that was present is kept; the
    row at index 0 is untouched, so a missing field there stays missing; a
    run of missing closes (volumes) after a present one all receive that
    one; and the counter grows by the number of missing fields at the
    indices i > 0. *)
Theorem forwardFill_spec (h : heap) (cleaned : list loc) (s : Issues) :
  wf h cleaned ->
  NoDup (dates h cleaned) ->
  let h' := (forwardFill JS.nullish cleaned (h, s)).1 in
  let s' := (forwardFill JS.nullish cleaned (h, s)).2 in
  (forall i p cur, cleaned !! i = Some p -> cleaned !! S i = Some cur ->
     close (deref h' cur)
     = (if JS.nullish (close (deref h cur)) then close (deref h' p)
        else close (deref h cur))
     /\ volume (deref h' cur)
        = (if JS.nullish (volume (deref h cur)) then volume (deref h' p)
           else volume (deref h cur)))
  /\ (forall r0, cleaned !! 0 = Some r0 -> deref h' r0 = deref h r0)
  /\ (forall a n x,
        cleaned !! a = Some x ->
        JS.nullish (close (deref h x)) = false ->
        (forall j y, 1 <= j <= n -> cleaned !! (a + j) = Some y ->
           JS.nullish (close (deref h y)) = true) ->
        forall j y, 1 <= j <= n -> cleaned !! (a + j) = Some y ->
          close (deref h' y) = close (deref h x))
  /\ (forall a n x,
        cleaned !! a = Some x ->
        JS.nullish (volume (deref h x)) = false ->
        (forall j y, 1 <= j <= n -> cleaned !! (a + j) = Some y ->
           JS.nullish (volume (deref h y)) = true) ->
        forall j y, 1 <= j <= n -> cleaned !! (a + j) = Some y ->
          volume (deref h' y) = volume (deref h x))
  /\ nulls s' = nulls s + spec_nullsFilled JS.nullish h cleaned.
Proof.
  intros Hwf Hdates h' s'. apply dates_NoDup in Hdates as Hnd.
  pose proof (fillLoop_spec JS.nullish cleaned None h s Hnd Hwf) as Hspec.
  simpl in Hspec. fold (forwardFill JS.nullish cleaned (h, s)) in Hspec.
  fold h' in Hspec.
  assert (forall i p cur, cleaned !! i = Some p -> cleaned !! S i = Some cur ->
     close (deref h' cur)
     = (if JS.nullish (close (deref h cur)) then close (deref h' p)
        else close (deref h cur))
     /\ volume (deref h' cur)
        = (if JS.nullish (volume (deref h cur)) then volume (deref h' p)
           else volume (deref h cur))) as Hstep.
  { intros i p cur Hp Hcur. specialize (Hspec (S i) cur Hcur).
    simpl in Hspec. by rewrite Hp in Hspec. }
  assert (forall r0, cleaned !! 0 = Some r0 -> deref h' r0 = deref h r0)
    as Hhead.
  { intros r0 Hr0. exact (Hspec 0 r0 Hr0). }
  assert (forall a x, cleaned !! a = Some x ->
            (JS.nullish (close (deref h x)) = false ->
             close (deref h' x) = close (deref h x))
            /\ (JS.nullish (volume (deref h x)) = false ->
                volume (deref h' x) = volume (deref h x))) as Hkeep.
  { intros [|a] x Hx; [by rewrite (Hhead x Hx)|].
    destruct (lookup_lt_is_Some_2 cleaned a) as [p Hp].
    { apply lookup_lt_Some in Hx. lia. }
    destruct (Hstep a p x Hp Hx) as [Hc Hv].
    split; intros Hn; [by rewrite Hn in Hc|by rewrite Hn in Hv]. }
  split; [done|]. split; [done|]. split; [|split].
  - intros a n x Hx Hpresent Hrun j. induction j as [|j IHj]; [lia|].
    intros y Hj Hy.
    destruct (lookup_lt_is_Some_2 cleaned (a + j)) as [p Hp].
    { apply lookup_lt_Some in Hy. lia. }
    replace (a + S j) with (S (a + j)) in Hy by lia.
    destruct (Hstep (a + j) p y Hp Hy) as [Hc _].
    rewrite (Hrun (S j) y) in Hc by (done || by rewrite <- Hy; f_equal; lia).
    rewrite Hc. destruct j as [|j].
    + rewrite Nat.add_0_r in Hp. rewrite Hx in Hp. injection Hp as <-.
      by apply (Hkeep a x Hx).
    + apply IHj; [lia|done].
  - intros a n x Hx Hpresent Hrun j. induction j as [|j IHj]; [lia|].
    intros y Hj Hy.
    destruct (lookup_lt_is_Some_2 cleaned (a + j)) as [p Hp].
    { apply lookup_lt_Some in Hy. lia. }
    replace (a + S j) with (S (a + j)) in Hy by lia.
    destruct (Hstep (a + j) p y Hp Hy) as [_ Hv].
    rewrite (Hrun (S j) y) in Hv by (done || by rewrite <- Hy; f_equal; lia).
    rewrite Hv. destruct j as [|j].
    + rewrite Nat.add_0_r in Hp. rewrite Hx in Hp. injection Hp as <-.
      by apply (Hkeep a x Hx).
    + apply IHj; [lia|done].
  - subst s'. unfold forwardFill. by rewrite fillLoop_nulls.
Qed.

(** C10.  The counter counts fields, not records: when exactly one row of a
    series of distinct rows, at an index > 0, misses a field, and it misses
    both close and volume, the fill raises the counter by two. *)
Theorem nulls_counts_fields (missing : value -> bool) (h : heap) (s : Issues)
    (pre post : list loc) (cur : loc) :
  pre <> [] ->
  NoDup (pre ++ cur :: post) ->
  missing (close (deref h cur)) = true ->
  missing (volume (deref h cur)) = true ->
  (forall l, l ∈ pre ++ post -> missingFields missing h l = 0) ->
  nulls (forwardFill missing (pre ++ cur :: post) (h, s)).2 = nulls s + 2.
Proof.
  intros Hpre Hnd Hc Hv Hothers. unfold forwardFill.
  rewrite fillLoop_nulls by done. f_equal.
  destruct pre as [|p0 pre]; [done|]. simpl.
  rewrite sum_list_with_app. simpl.
  rewrite !sum_list_with_zero.
  - unfold missingFields. by rewrite Hc, Hv.
  - intros x Hx. apply Hothers. set_solver.
  - intros x Hx. apply Hothers. set_solver.
Qed.

Lemma sample_raw_NoDup : NoDup sample_raw.
Proof. by apply (bool_decide_unpack _). Qed.

Lemma sample_raw_dates_NoDup : NoDup (dates sample_heap sample_raw).
Proof. by apply (bool_decide_unpack _). Qed.

Lemma forwardFill_spec_witness :
  let h' := (forwardFill JS.nullish sample_raw (sample_heap, noIssues)).1 in
  let s' := (forwardFill JS.nullish sample_raw (sample_heap, noIssues)).2 in
  (forall i p cur, sample_raw !! i = Some p -> sample_raw !! S i = Some cur ->
     close (deref h' cur)
     = (if JS.nullish (close (deref sample_heap cur)) then close (deref h' p)
        else close (deref sample_heap cur))
     /\ volume (deref h' cur)
        = (if JS.nullish (volume (deref sample_heap cur))
           then volume (deref h' p)
           else volume (deref sample_heap cur)))
  /\ (forall r0, sample_raw !! 0 = Some r0 ->
        deref h' r0 = deref sample_heap r0)
  /\ nulls s' = nulls noIssues + spec_nullsFilled JS.nullish sample_heap sample_raw.
Proof.
  intros h' s'.
  destruct (forwardFill_spec sample_heap sample_raw noIssues)
    as (H1 & H2 & _ & _ & H3).
  - repeat constructor.
  - exact sample_raw_dates_NoDup.
  - exact (conj H1 (conj H2 H3)).
Defined.

Lemma nulls_counts_fields_witness :
  nulls (forwardFill JS.nullish ([0] ++ 1 :: [2]) (sample_heap, noIssues)).2
  = nulls noIssues + 2.
Proof.
  apply (nulls_counts_fields JS.nullish sample_heap noIssues [0] [2] 1).
  - discriminate.
  - exact sample_raw_NoDup.
  - reflexivity.
  - reflexivity.
  - intros l Hl. apply list_elem_of_In in Hl. simpl in Hl.
    destruct Hl as [<-|[<-|[]]]; reflexivity.
Defined.

(** ** Cleaning engine: the caller's rows *)

(** C2 fails on the code: [[...rawData]] copies the array, not the row
    objects, and the forward fill assigns to the objects.  After the call the
    caller's second row has the close and the volume of the first. *)
Lemma cleanData_mutates_rawData :
  let h' := (cleanData JS.nullish sample_heap sample_raw).1 in
  closes sample_heap sample_raw = [VNum 10%float; VNull; VNum 12%float]
  /\ closes h' sample_raw = [VNum 10%float; VNum 10%float; VNum 12%float]
  /\ volume (deref sample_heap 1) = VNull
  /\ volume (deref h' 1) = VNum 500%float
  /\ (cleanData JS.nullish sample_heap sample_raw).2
     = (sample_raw, {| nulls := 2; duplicates := 0; outliers := 0 |})
  /\ cleanData JS.is_null sample_heap sample_raw
     = cleanData JS.nullish sample_heap sample_raw.
Proof. repeat split; vm_compute; reflexivity. Qed.

(** ** Evaluator *)

Lemma squaredError_nonneg_nan (actual predicted : list value) :
  nonneg_nan (squaredError actual predicted).
Proof.
  unfold squaredError, reduce.
  apply (reduce_from_nonneg_nan
           (fun v i => JS.sq (toNumber v - toNumber (index predicted i)))).
  - done.
  - intros x k. apply sq_nonneg_nan.
Qed.

(** When every value equals the computed mean, every squared deviation is
    +0 and so is their sum. *)
Lemma ssTot_zero_variance (actual : list value) :
  Forall (fun v => numeric v /\ (toNumber v =? mean actual)%float = true)
    actual ->
  ssTot actual = 0%float.
Proof.
  intros H. unfold ssTot, reduce.
  apply (reduce_from_zero (fun v _ => JS.sq (toNumber v - mean actual))).
  intros j v Hv. destruct (Forall_lookup_1 _ _ _ _ H Hv) as [Hf He].
  apply sq_zero. by apply sub_same.
Qed.

(** C1 (as the code has it).  For every pair of sequences, when every
    actual value is a finite number that equals ([===]) the mean as the
    evaluator computes it, the computed SStot is +0 and the evaluator
    divides all the same: SSres is NaN or has a clear sign bit, and the r2
    that is returned is the formatted NaN when SSres is 0 or NaN, and the
    formatted -Infinity otherwise. *)
Theorem evaluateModel_zero_variance Math_sqrt Number_toString
    (actual predicted : list value) :
  Forall (fun v => numeric v /\ (toNumber v =? mean actual)%float = true)
    actual ->
  let e := squaredError actual predicted in
  nonneg_nan e
  /\ ssTot actual = 0%float
  /\ r2 (evaluateModel Math_sqrt Number_toString actual predicted)
     = if is_nan e || PrimFloat.is_zero e then "NaN" else "-Infinity".
Proof.
  intros Hm e.
  pose proof (squaredError_nonneg_nan actual predicted) as He. fold e in He.
  pose proof (ssTot_zero_variance actual Hm) as Ht.
  split; [done|]. split; [done|].
  unfold evaluateModel. cbn [r2]. fold e. rewrite Ht, (div_zero e He).
  by destruct (is_nan e || PrimFloat.is_zero e).
Qed.

Lemma evaluateModel_zero_variance_witness :
  let actual := [VNum 3%float; VNum 3%float] in
  let predicted := [VNum 3%float; VNum 5%float] in
  let e := squaredError actual predicted in
  nonneg_nan e
  /\ ssTot actual = 0%float
  /\ r2 (evaluateModel PrimFloat.sqrt toString_integer actual predicted)
     = if is_nan e || PrimFloat.is_zero e then "NaN" else "-Infinity".
Proof.
  apply (evaluateModel_zero_variance PrimFloat.sqrt toString_integer
           [VNum 3%float; VNum 3%float] [VNum 3%float; VNum 5%float]).
  repeat constructor.
Defined.

(** C1 (as stated) fails.  On the constant series 1, 1 the evaluator neither
    fails nor returns a sentinel: it divides 1 by 0 and returns the
    formatted result of [1 - Infinity].  On the constant series of six
    closes 100.1 the computed mean is not 100.1, the computed SStot is about
    1.2e-27 and not 0, and r2 is an ordinary number: "1.0000" for perfect
    predictions, and "0.0000" for the predictions of the linear model
    trained on the same series. *)
Lemma evaluateModel_zero_variance_divides :
  let actual := [VNum 1%float; VNum 1%float] in
  let predicted := [VNum 1%float; VNum 2%float] in
  let flat := replicate 6 (VNum 100.1%float) in
  let model := trainLinearRegression (map JS.of_nat (seq 0 6)) flat in
  let fitted := map (fun x => VNum (predict model x)) (map JS.of_nat (seq 0 6)) in
  Forall (fun v => numeric v /\ (toNumber v =? mean actual)%float = true)
    actual
  /\ squaredError actual predicted = 1%float
  /\ ssTot actual = 0%float
  /\ (squaredError actual predicted / ssTot actual)%float = infinity
  /\ evaluateModel PrimFloat.sqrt toString_integer actual predicted
     = {| mse := "0.50"; rmse := "0.71"; r2 := "-Infinity"; mae := "0.50" |}
  /\ Forall (fun v => (toNumber v =? mean flat)%float = false) flat
  /\ ssTot flat = 1.2116903504194741e-27%float
  /\ r2 (evaluateModel PrimFloat.sqrt toString_integer flat flat) = "1.0000"
  /\ r2 (evaluateModel PrimFloat.sqrt toString_integer flat fitted) = "0.0000".
Proof.
  intros actual predicted flat model fitted. split.
  - repeat constructor.
  - repeat split; try (vm_compute; reflexivity). repeat constructor.
Qed.

(** ** Regression trainer *)

Lemma sum_spec (X : list number) : sum X = spec_sum X.
Proof.
  unfold sum, reduce, spec_sum.
  rewrite (reduce_from_sum (fun x _ => x)). by rewrite imap_const, map_id.
Qed.

Lemma sumX2_spec (X : list number) :
  sumX2 X = spec_sum (map (fun x => x * x)%float X).
Proof.
  unfold sumX2, reduce, spec_sum.
  rewrite (reduce_from_sum (fun x _ => (x * x)%float)). by rewrite imap_const.
Qed.

Lemma sumY_spec (y : list value) : sumY y = spec_sum (map toNumber y).
Proof.
  unfold sumY, reduce, spec_sum.
  rewrite (reduce_from_sum (fun v _ => toNumber v)). by rewrite imap_const.
Qed.

Lemma sumXY_spec (X : list number) (y : list value) :
  length X <= length y ->
  sumXY X y = spec_sum (zip_with PrimFloat.mul X (map toNumber y)).
Proof.
  intros Hlen. unfold sumXY, reduce, spec_sum.
  rewrite (reduce_from_sum (fun x i => (x * toNumber (index y i))%float)).
  by rewrite <- imap_index_zip.
Qed.

(** C7 (as the code has it).  For every non-empty partition with as many
    targets as features: the slope denominator is the closed form
    n * sum(x^2) - (sum x)^2 as the loop computes it, and the divisor in use
    is 1 whenever this computed value is 0 or NaN, so that the slope divisor
    is neither zero nor NaN; the intercept divisor [n] is neither zero nor
    NaN; and the slope and the intercept are the closed forms over these
    divisors, each operation rounded. *)
Theorem trainLinearRegression_guarded (X : list number) (y : list value) :
  X <> [] ->
  (Z.of_nat (length X) < 2 ^ 32)%Z ->
  length X = length y ->
  let ys := map toNumber y in
  let D := spec_denominator X in
  let d := if is_nan D || PrimFloat.is_zero D then 1%float else D in
  let n := JS.of_nat (length X) in
  let m := trainLinearRegression X y in
  olsDenominator X = D
  /\ is_nan d = false /\ PrimFloat.is_zero d = false
  /\ is_nan n = false /\ PrimFloat.is_zero n = false
  /\ slope m = spec_slope X ys d
  /\ intercept m = spec_intercept X ys (slope m).
Proof.
  intros Hne Hn Hlen ys D d n m.
  assert (olsDenominator X = D) as HD.
  { unfold olsDenominator, D, spec_denominator. by rewrite sum_spec, sumX2_spec. }
  split; [done|].
  assert (is_nan d = false /\ PrimFloat.is_zero d = false) as [Hd1 Hd2].
  { unfold d. destruct (is_nan D) eqn:E1; [done|].
    destruct (PrimFloat.is_zero D) eqn:E2; done. }
  split; [done|]. split; [done|].
  destruct (of_nat_truthy (length X)) as [Hn1 Hn2];
    [destruct X; [done|simpl; lia]|done|].
  split; [done|]. split; [done|].
  assert (slope m = spec_slope X ys d) as Hs.
  { unfold m, trainLinearRegression, spec_slope. cbn [slope].
    rewrite orElse_spec.
    change (JS.of_nat (length X) * sumX2 X - sum X * sum X)%float
      with (olsDenominator X).
    rewrite HD. fold d.
    by rewrite sum_spec, sumY_spec, sumXY_spec by lia. }
  split; [done|].
  unfold spec_intercept. rewrite Hs.
  unfold m, trainLinearRegression. cbn [intercept].
  rewrite orElse_spec.
  change (JS.of_nat (length X) * sumX2 X - sum X * sum X)%float
    with (olsDenominator X).
  rewrite HD. fold d. unfold spec_slope.
  by rewrite sum_spec, sumY_spec, sumXY_spec by lia.
Qed.

Lemma trainLinearRegression_guarded_witness :
  let X := [7%float] in
  let y := [VNum 5%float] in
  let ys := map toNumber y in
  let D := spec_denominator X in
  let d := if is_nan D || PrimFloat.is_zero D then 1%float else D in
  let n := JS.of_nat (length X) in
  let m := trainLinearRegression X y in
  olsDenominator X = D
  /\ is_nan d = false /\ PrimFloat.is_zero d = false
  /\ is_nan n = false /\ PrimFloat.is_zero n = false
  /\ slope m = spec_slope X ys d
  /\ intercept m = spec_intercept X ys (slope m).
Proof.
  apply (trainLinearRegression_guarded [7%float] [VNum 5%float]).
  - discriminate.
  - reflexivity.
  - reflexivity.
Defined.

(** C7 (as stated) fails on the empty partition, which the pipeline passes
    when the cleaned series has fewer than two rows: the slope denominator
    is guarded, the division by [n] is not, and the intercept is 0/0.  And
    the guard does not catch a constant feature in general: for six
    features 0.1 the denominator is computed as 2^-53, not 0, and the slope
    is 16. *)
Lemma trainLinearRegression_empty_partition :
  let X := replicate 6 0.1%float in
  let y := map (fun k => VNum (JS.of_nat k)) (seq 1 6) in
  JS.of_nat (length (@nil number)) = 0%float
  /\ orElse (olsDenominator []) 1 = 1%float
  /\ slope (trainLinearRegression [] []) = 0%float
  /\ intercept (trainLinearRegression [] []) = nan
  /\ olsDenominator X = 0x1p-53%float
  /\ orElse (olsDenominator X) 1 = 0x1p-53%float
  /\ trainLinearRegression X y
     = {| slope := 16; intercept := 1.9000000000000001 |}.
Proof. repeat split; vm_compute; reflexivity. Qed.

(** The earlier copy in [main.jsx] has no guard at all: a single-point
    partition makes its slope 0/0. *)
Lemma Main_trainLinearRegression_single_point :
  olsDenominator [0%float] = 0%float
  /\ Main.trainLinearRegression [0%float] [VNum 5%float]
     = {| slope := nan; intercept := nan |}
  /\ trainLinearRegression [0%float] [VNum 5%float]
     = {| slope := 0; intercept := 5 |}.
Proof. repeat split; vm_compute; reflexivity. Qed.

(** The specification's test: a perfectly linear series is fitted exactly. *)
Lemma trainLinearRegression_linear_series :
  let X := map JS.of_nat [0; 1; 2; 3] in
  let y := map VNum [5; 7; 9; 11]%float in
  trainLinearRegression X y = {| slope := 2; intercept := 5 |}.
Proof. vm_compute. reflexivity. Qed.

(** ** Indicator engine *)

Lemma Forall_slice {A : Type} (P : A -> Prop) (l : list A) (a b : nat) :
  Forall P l -> Forall P (slice l a b).
Proof. intros H. unfold slice. by apply Forall_take, Forall_drop. Qed.

Lemma lookup_slice {A : Type} (l : list A) (a b j : nat) :
  j < b - a -> slice l a b !! j = l !! (a + j).
Proof. intros H. unfold slice. by rewrite lookup_take_lt, lookup_drop. Qed.

Lemma length_slice {A : Type} (l : list A) (a b : nat) :
  b <= length l -> length (slice l a b) = b - a.
Proof. intros H. unfold slice. rewrite length_take, length_drop. lia. Qed.

Lemma calculateTechnicalIndicators_lookup Math_sqrt (arr : list Row) i row :
  calculateTechnicalIndicators Math_sqrt arr !! i = Some row ->
  exists r0, arr !! i = Some r0 /\ row = indicatorRow Math_sqrt arr i r0.
Proof.
  unfold calculateTechnicalIndicators. rewrite list_lookup_imap.
  destruct (arr !! i) as [r0|]; simpl; [|done].
  intros [= <-]. eauto.
Qed.

(** The array of changes of the 14-row window is a 0 followed by the 13
    changes between consecutive rows of the window. *)
Lemma changes_spec (arr : list Row) (i : nat) :
  13 <= i -> i < length arr ->
  changes (slice arr (i - 13) (i + 1))
  = 0%float :: spec_changes arr (i - 13) 13.
Proof.
  intros Hi Hlen. apply list_eq. intros j. unfold changes, spec_changes.
  rewrite list_lookup_imap.
  destruct (decide (j < 14)) as [Hj|Hj]; cycle 1.
  { rewrite (lookup_ge_None_2 (slice _ _ _)) by (rewrite length_slice; lia).
    simpl. symmetry. apply lookup_ge_None_2. simpl. lia. }
  rewrite lookup_slice by lia.
  destruct (lookup_lt_is_Some_2 arr (i - 13 + j) ltac:(lia)) as [d Hd].
  rewrite Hd. cbn [fmap option_fmap option_map].
  destruct j as [|j]; [done|]. rewrite lookup_cons.
  rewrite list_lookup_fmap, lookup_seq_lt by lia.
  cbn [fmap option_fmap option_map]. do 2 f_equal.
  - rewrite (list_lookup_total_correct arr (i - 13 + 1 + j) d); [done|].
    rewrite <- Hd. f_equal. lia.
  - unfold slice. rewrite lookup_total_take by lia.
    rewrite lookup_total_drop. rewrite decide_True by lia.
    do 3 f_equal. lia.
Qed.

Lemma avgGain_spec (cs : list number) :
  avgGain (0%float :: cs) = spec_average (fun c => (0 <? c)%float) cs.
Proof.
  unfold avgGain, spec_average. rewrite filter_cons_False by done.
  change (filter (fun c => (fun c0 => (0 <? c0)%float) c = true) cs)
    with (filter (fun c => (0 <? c)%float = true) cs).
  assert (Forall (fun c => (0 <? c)%float = true)
            (filter (fun c => (0 <? c)%float = true) cs)) as Hall.
  { apply Forall_forall. by intros c [Hc _]%list_elem_of_filter. }
  destruct (filter (fun c => (0 <? c)%float = true) cs) as [|c gains]; [done|].
  rewrite sum_spec. do 2 f_equal. symmetry.
  rewrite <- (map_id (c :: gains)) at 2. apply map_ext_in.
  intros x Hx%list_elem_of_In. rewrite Forall_forall in Hall.
  by apply abs_positive, Hall.
Qed.

Lemma avgLoss_spec (cs : list number) :
  avgLoss (0%float :: cs) = spec_average (fun c => (c <? 0)%float) cs.
Proof.
  unfold avgLoss, spec_average. rewrite filter_cons_False by done.
  change (filter (fun c => (fun c0 => (c0 <? 0)%float) c = true) cs)
    with (filter (fun c => (c <? 0)%float = true) cs).
  assert (Forall (fun c => (c <? 0)%float = true)
            (filter (fun c => (c <? 0)%float = true) cs)) as Hall.
  { apply Forall_forall. by intros c [Hc _]%list_elem_of_filter. }
  destruct (filter (fun c => (c <? 0)%float = true) cs) as [|c losses]; [done|].
  change (PrimFloat.opp c :: map PrimFloat.opp losses)
    with (map PrimFloat.opp (c :: losses)).
  rewrite sum_spec. do 2 f_equal. symmetry.
  apply map_ext_in.
  intros x Hx%list_elem_of_In. rewrite Forall_forall in Hall.
  by apply abs_negative, Hall.
Qed.

(** An average of magnitudes is not NaN, and not negative. *)
Lemma spec_average_nonneg (keep : number -> bool) (cs : list number) :
  (forall c, keep c = true -> is_nan c = false) ->
  nonneg (spec_average keep cs).
Proof.
  intros Hkeep. unfold spec_average.
  assert (Forall (fun c => keep c = true)
            (filter (fun c => keep c = true) cs)) as Hall.
  { apply Forall_forall. by intros c [Hc _]%list_elem_of_filter. }
  destruct (filter (fun c => keep c = true) cs) as [|c kept]; [done|].
  apply div_nonneg; [|done..]. apply spec_sum_nonneg.
  apply Forall_fmap. eapply Forall_impl; [exact Hall|].
  intros x Hx. simpl. by apply abs_not_nan, Hkeep.
Qed.

Lemma relativeStrength_nonneg (g l : number) :
  nonneg g -> nonneg l ->
  if is_infinity g && is_infinity l
  then relativeStrength g l = nan
  else nonneg (relativeStrength g l).
Proof.
  intros Hg Hl. unfold relativeStrength.
  destruct (l =? 0)%float eqn:E.
  - assert (is_infinity l = false) as ->; [|by rewrite andb_false_r].
    apply eqb_true in E as (_ & _ & E). change (F2Z 0) with 0%Z in E.
    rewrite is_infinity_spec. unfold F2Z in E.
    assert (0 < pow2 1100)%Z by (by apply pow2_pos).
    destruct (Prim2SF l) as [|[]| |]; try done; simpl in E; lia.
  - by apply div_nonneg_or_nan.
Qed.

(** C5 (as the code has it).  For every series and every index i >= 14 of
    it, whatever the closes: the window holds 13 changes, those between the
    consecutive rows i - 13 .. i; the average gain g and the average loss l
    (the sums of the magnitudes of the positive and of the negative changes,
    over 14) are not NaN and not negative; RS is 100 when l is zero and
    g / l otherwise; rsi = 100 - 100 / (1 + RS), each operation rounded;
    and rsi lies between 0 and 100, unless both averages have overflowed to
    Infinity, in which case rsi is NaN. *)
Theorem rsi_bounds Math_sqrt (arr : list Row) (i : nat) (out : Row) :
  14 <= i ->
  calculateTechnicalIndicators Math_sqrt arr !! i = Some out ->
  let cs := spec_changes arr (i - 13) 13 in
  let g := spec_average (fun c => (0 <? c)%float) cs in
  let l := spec_average (fun c => (c <? 0)%float) cs in
  let rs := if (l =? 0)%float then 100%float else (g / l)%float in
  let r := (100 - 100 / (1 + rs))%float in
  rsi out = VNum r
  /\ nonneg g /\ nonneg l
  /\ if is_infinity g && is_infinity l then r = nan
     else ((0 <=? r)%float && (r <=? 100)%float) = true.
Proof.
  intros Hi Hout cs g l rs r.
  apply calculateTechnicalIndicators_lookup in Hout as (r0 & Hr0 & ->).
  apply lookup_lt_Some in Hr0.
  assert (rsi (indicatorRow Math_sqrt arr i r0) = VNum r) as Hrsi.
  { unfold indicatorRow. cbn [rsi]. rewrite bool_decide_eq_true_2 by done.
    unfold rsi14. rewrite changes_spec by lia.
    by rewrite avgGain_spec, avgLoss_spec. }
  assert (nonneg g) as Hg.
  { apply spec_average_nonneg. by intros c (_ & ? & _)%ltb_true. }
  assert (nonneg l) as Hl.
  { apply spec_average_nonneg. by intros c (? & _ & _)%ltb_true. }
  split; [done|]. split; [done|]. split; [done|].
  pose proof (relativeStrength_nonneg g l Hg Hl) as Hrs.
  unfold relativeStrength in Hrs. fold rs in Hrs.
  destruct (is_infinity g && is_infinity l).
  - unfold r. rewrite Hrs. by vm_compute.
  - by apply oscillator_bounds.
Qed.

Lemma rsi_bounds_witness :
  let arr := sample_series in
  let i := 20 in
  let out := indicatorRow PrimFloat.sqrt arr i (arr !!! i) in
  let cs := spec_changes arr (i - 13) 13 in
  let g := spec_average (fun c => (0 <? c)%float) cs in
  let l := spec_average (fun c => (c <? 0)%float) cs in
  let rs := if (l =? 0)%float then 100%float else (g / l)%float in
  let r := (100 - 100 / (1 + rs))%float in
  rsi out = VNum r
  /\ nonneg g /\ nonneg l
  /\ if is_infinity g && is_infinity l then r = nan
     else ((0 <=? r)%float && (r <=? 100)%float) = true.
Proof.
  apply (rsi_bounds PrimFloat.sqrt sample_series 20).
  - lia.
  - reflexivity.
Defined.

(** C5 (as stated) fails.  Twenty finite closes that alternate between 0
    and 1.7e308: in the window of row 14 the gains and the losses both sum
    to Infinity, RS is Infinity / Infinity = NaN and rsi is NaN, which is
    not between 0 and 100.  And the window holds 13 changes, not 14: in the
    fifteen closes 10, 5, 6, ..., 18 the fall from 10 to 5 is the fourteenth
    change before row 14, it is not seen, the average loss is 0 and RS is
    forced to 100. *)
Lemma rsi_out_of_bounds :
  let arr := overflowing_series in
  let cs := spec_changes arr 1 13 in
  let fall := series_of (fun k => match k with
                                  | O => 10%float
                                  | S k' => JS.of_nat (5 + k')
                                  end) 15 in
  Forall (fun r => numeric (close r)) arr
  /\ spec_average (fun c => (0 <? c)%float) cs = infinity
  /\ spec_average (fun c => (c <? 0)%float) cs = infinity
  /\ rsi <$> calculateTechnicalIndicators PrimFloat.sqrt arr !! 14
     = Some (VNum nan)
  /\ (toNumber (close (fall !!! 1%nat)) - toNumber (close (fall !!! 0%nat)) <? 0)%float
     = true
  /\ avgLoss (changes (slice fall 1 15)) = 0%float
  /\ rsi <$> calculateTechnicalIndicators PrimFloat.sqrt fall !! 14
     = Some (VNum (100 - 100 / (1 + 100))%float).
Proof.
  intros arr cs fall. split.
  - repeat constructor.
  - repeat split; vm_compute; reflexivity.
Qed.

(** A flat or rising window has no loss: RS is forced to 100. *)
Lemma rsi_rising :
  rsi <$> calculateTechnicalIndicators PrimFloat.sqrt rising_series !! 14
  = Some (VNum 99.009900990099013%float).
Proof. vm_compute. reflexivity. Qed.

Lemma sumClose_spec (rows : list Row) :
  sumClose rows = spec_sum (map (fun r => toNumber (close r)) rows).
Proof.
  unfold sumClose, reduce, spec_sum.
  rewrite (reduce_from_sum (fun d _ => toNumber (close d))).
  by rewrite imap_const.
Qed.

Lemma sma20_spec (arr : list Row) (i : nat) :
  sma arr 20 i = spec_mean20 (window20 arr i).
Proof. unfold sma, spec_mean20, window20. by rewrite sumClose_spec. Qed.

Lemma std20_spec Math_sqrt (arr : list Row) (mu : number) (i : nat) :
  std20 Math_sqrt arr mu i
  = JS.sqrt Math_sqrt (spec_variance20 (window20 arr i) mu).
Proof.
  unfold std20, spec_variance20, window20, reduce, spec_sum. f_equal. f_equal.
  rewrite (reduce_from_sum (fun v _ => JS.sq (toNumber v - mu))).
  by rewrite imap_const, !map_map.
Qed.

Lemma spec_variance20_nonneg (cs : list number) (mu : number) :
  Forall (fun c => is_finite c = true) cs -> is_nan mu = false ->
  nonneg (spec_variance20 cs mu).
Proof.
  intros Hcs Hmu. unfold spec_variance20.
  apply div_nonneg; [|done..]. apply spec_sum_nonneg.
  apply Forall_fmap, Forall_forall. intros c Hc. simpl.
  apply mul_self_nonneg, sub_not_nan; [|done].
  rewrite Forall_forall in Hcs. by apply Hcs.
Qed.

Lemma window20_lookup (arr : list Row) (i k : nat) :
  19 <= i -> i < length arr -> k < 20 ->
  window20 arr i !! k = (fun r => toNumber (close r)) <$> arr !! (i - 19 + k).
Proof.
  intros Hi Hlen Hk. unfold window20, slice.
  rewrite list_lookup_fmap, lookup_take_lt by lia. by rewrite lookup_drop.
Qed.

Section Bollinger.

Variable Math_sqrt : number -> number.

(** [Math.sqrt] of a positive finite number is not NaN and not negative. *)
Hypothesis Math_sqrt_nonneg :
  forall x, nonneg x -> is_finite x = true -> PrimFloat.is_zero x = false ->
            nonneg (Math_sqrt x).

(** C6 (as the code has it).  For every index i >= 19 whose 20-row window
    has finite closes: the window holds the closes of the 20 rows
    i - 19 .. i; sma20 is the mean of these closes as the loop computes it
    (their sum, added up from 0 in order, over 20); when it is truthy
    (neither NaN nor 0) the bands are set, the volatility is the square
    root of the population variance of the same closes around that mean,
    which is not NaN and not negative, the upper band is
    sma20 + 2 x volatility and the lower band sma20 - 2 x volatility, each
    operation rounded; and when sma20 is finite, lower <= sma20 <= upper.
    When sma20 is not truthy the bands are left as they were. *)
Theorem bollinger_bands (arr : list Row) (i : nat) (row out : Row) :
  19 <= i ->
  arr !! i = Some row ->
  calculateTechnicalIndicators Math_sqrt arr !! i = Some out ->
  Forall (fun c => is_finite c = true) (window20 arr i) ->
  let cs := window20 arr i in
  let mu := spec_mean20 cs in
  let sd := JS.sqrt Math_sqrt (spec_variance20 cs mu) in
  length cs = 20
  /\ (forall k, k < 20 ->
        cs !! k = (fun r => toNumber (close r)) <$> arr !! (i - 19 + k))
  /\ sma20 out = VNum mu
  /\ (JS.truthy_num mu = true ->
      volatility out = VNum sd
      /\ upperBand out = VNum (mu + 2 * sd)%float
      /\ lowerBand out = VNum (mu - 2 * sd)%float
      /\ nonneg sd
      /\ (is_finite mu = true ->
          (mu - 2 * sd <=? mu)%float = true
          /\ (mu <=? mu + 2 * sd)%float = true))
  /\ (JS.truthy_num mu = false ->
      volatility out = volatility row /\ upperBand out = upperBand row
      /\ lowerBand out = lowerBand row).
Proof using Math_sqrt_nonneg.
  intros Hi Hrow Hout Hfin cs mu sd.
  apply calculateTechnicalIndicators_lookup in Hout as (r0 & Hr0 & ->).
  assert (r0 = row) as -> by congruence.
  apply lookup_lt_Some in Hr0.
  split.
  { unfold cs, window20. rewrite length_map, length_slice by lia. lia. }
  split.
  { intros k Hk. by apply window20_lookup. }
  unfold indicatorRow.
  cbn [sma20 volatility upperBand lowerBand].
  rewrite (bool_decide_eq_true_2 (19 <= i)) by done.
  cbn [andb toNumber JS.truthy]. rewrite sma20_spec, std20_spec.
  fold cs mu sd.
  split; [done|]. split.
  - intros Ht. rewrite Ht. split; [done|]. split; [done|]. split; [done|].
    assert (is_nan mu = false) as Nmu.
    { unfold JS.truthy_num in Ht. by destruct (is_nan mu). }
    assert (nonneg sd) as Hsd.
    { apply JS_sqrt_nonneg; [done|]. by apply spec_variance20_nonneg. }
    split; [done|]. intros Fmu.
    assert (nonneg (2 * sd)%float) as Ht2 by (by apply mul_nonneg).
    split; [by apply sub_nonneg_le|by apply add_nonneg_ge].
  - intros Ht. by rewrite Ht.
Qed.

End Bollinger.

Lemma bollinger_bands_witness :
  let arr := sample_series in
  let i := 20 in
  let row := arr !!! i in
  let out := indicatorRow PrimFloat.sqrt arr i row in
  let cs := window20 arr i in
  let mu := spec_mean20 cs in
  let sd := JS.sqrt PrimFloat.sqrt (spec_variance20 cs mu) in
  length cs = 20
  /\ (forall k, k < 20 ->
        cs !! k = (fun r => toNumber (close r)) <$> arr !! (i - 19 + k))
  /\ sma20 out = VNum mu
  /\ (JS.truthy_num mu = true ->
      volatility out = VNum sd
      /\ upperBand out = VNum (mu + 2 * sd)%float
      /\ lowerBand out = VNum (mu - 2 * sd)%float
      /\ nonneg sd
      /\ (is_finite mu = true ->
          (mu - 2 * sd <=? mu)%float = true
          /\ (mu <=? mu + 2 * sd)%float = true))
  /\ (JS.truthy_num mu = false ->
      volatility out = volatility row /\ upperBand out = upperBand row
      /\ lowerBand out = lowerBand row).
Proof.
  apply (bollinger_bands PrimFloat.sqrt
           (fun x H _ _ => sqrt_nonneg x H) sample_series 20).
  - lia.
  - reflexivity.
  - reflexivity.
  - repeat constructor.
Defined.

(** C6 (as stated) fails: the width of the band is not 4 x volatility.  At
    row 19 of the sample series the rounded [upper - lower] and the rounded
    [4 * volatility] are different numbers; only the ordering holds. *)
Lemma bollinger_width_differs :
  let out := indicatorRow PrimFloat.sqrt sample_series 19
               (sample_series !!! 19%nat) in
  let u := toNumber (upperBand out) in
  let l := toNumber (lowerBand out) in
  let sd := toNumber (volatility out) in
  upperBand out = VNum 106.23128156554155%float
  /\ lowerBand out = VNum 97.568718434458461%float
  /\ volatility out = VNum 2.165640782770772%float
  /\ (u - l =? 4 * sd)%float = false
  /\ (l <=? toNumber (sma20 out))%float = true
  /\ (toNumber (sma20 out) <=? u)%float = true.
Proof. repeat split; vm_compute; reflexivity. Qed.

(** ** Cleaning engine: outliers *)








Lemma deref_app_l (h e : heap) (l : loc) :
  l < length h -> deref (h ++ e) l = deref h l.
Proof. intros H. unfold deref. by rewrite lookup_total_app_l. Qed.

Lemma closes_app_l (h e : heap) (rows : list loc) :
  wf h rows -> closes (h ++ e) rows = closes h rows.
Proof.
  intros Hwf. unfold closes. apply map_ext_in. intros l Hl%list_elem_of_In.
  unfold wf in Hwf. rewrite Forall_forall in Hwf.
  by rewrite deref_app_l by by apply Hwf.
Qed.

Lemma windowMedian_app_l (h e : heap) (cleaned : list loc) (idx : nat) :
  wf h cleaned -> windowMedian (h ++ e) cleaned idx = windowMedian h cleaned idx.
Proof.
  intros Hwf. unfold windowMedian. rewrite closes_app_l; [done|].
  by apply Forall_slice.
Qed.

Section Outliers.

Variables (h0 : heap) (cleaned : list loc) (median mad : value).
Hypothesis cleaned_wf : wf h0 cleaned.

#[local] Abbreviation test := (isOutlier h0 median mad).

Lemma outlierStep_spec (row : loc) (idx : nat) (e : heap) (s : Issues) :
  row < length h0 ->
  outlierStep cleaned median mad row idx (h0 ++ e, s)
  = if test row
    then (h0 ++ e ++ [set_close (windowMedian h0 cleaned idx) (deref h0 row)],
          incr_outliers s, length (h0 ++ e))
    else (h0 ++ e, s, row).
Proof using cleaned_wf.
  intros Hrow. unfold outlierStep, isOutlier. rewrite deref_app_l by done.
  destruct (JS.gtb _ threshold); [|done].
  rewrite windowMedian_app_l by done. unfold alloc. by rewrite <- app_assoc.
Qed.

Lemma outlierMap_spec (rest : list loc) (idx : nat) (e : heap) (s : Issues) :
  wf h0 rest ->
  let res := outlierMap cleaned median mad idx rest (h0 ++ e, s) in
  (exists e', res.1.1 = h0 ++ e ++ e')
  /\ length res.2 = length rest
  /\ (forall k row, rest !! k = Some row ->
        if test row
        then exists row',
               res.2 !! k = Some row' /\ length h0 <= row'
               /\ deref res.1.1 row'
                  = set_close (windowMedian h0 cleaned (idx + k)) (deref h0 row)
        else res.2 !! k = Some row)
  /\ outliers res.1.2
     = outliers s + length (filter (fun row => test row = true) rest)
  /\ nulls res.1.2 = nulls s
  /\ duplicates res.1.2 = duplicates s.
Proof using cleaned_wf.
  revert idx e s. induction rest as [|row rest IH]; intros idx e s Hwf res.
  { subst res. simpl. repeat split; try done; try lia.
    exists []. by rewrite app_nil_r. }
  apply Forall_cons in Hwf as [Hrow Hwf]. subst res. cbn [outlierMap].
  rewrite outlierStep_spec by done.
  rewrite filter_cons.
  destruct (test row) eqn:Htest.
  - specialize (IH (S idx)
      (e ++ [set_close (windowMedian h0 cleaned idx) (deref h0 row)])
      (incr_outliers s) Hwf).
    destruct (outlierMap cleaned median mad (S idx) rest _) as [[h' s'] out].
    simpl in *. destruct IH as ([e' He'] & Hlen & Hrows & Hout & Hn & Hd).
    split; [|split; [|split; [|split]]].
    + exists ([set_close (windowMedian h0 cleaned idx) (deref h0 row)] ++ e').
      by rewrite He', <- !app_assoc.
    + by rewrite Hlen.
    + intros [|k] r Hr.
      * injection Hr as <-. rewrite Htest. eexists. split; [done|].
        split; [rewrite length_app; lia|].
        rewrite He', Nat.add_0_r, <- !app_assoc, (app_assoc h0 e).
        unfold deref. rewrite lookup_total_app_r by lia.
        by rewrite Nat.sub_diag.
      * specialize (Hrows k r Hr). by rewrite Nat.add_succ_r.
    + lia.
    + done.
  - specialize (IH (S idx) e s Hwf).
    destruct (outlierMap cleaned median mad (S idx) rest _) as [[h' s'] out].
    simpl in *. destruct IH as ([e' He'] & Hlen & Hrows & Hout & Hn & Hd).
    split; [|split; [|split; [|split]]].
    + by exists e'.
    + by rewrite Hlen.
    + intros [|k] r Hr.
      * injection Hr as <-. by rewrite Htest.
      * specialize (Hrows k r Hr). by rewrite Nat.add_succ_r.
    + lia.
    + done.
Qed.

End Outliers.














#[local] Instance value_le_trans : Transitive value_le.
Proof. intros a b c. unfold value_le. apply Z.le_trans. Qed.









(** The specification's end-to-end scenario, run on the model: one
    duplicate, one fill (index 3 becomes 12), one outlier (index 9 becomes
    18, the middle of 17, 18, 100, in a new object). *)
Lemma cleanData_scenario :
  let res := cleanData JS.nullish scenario_heap scenario_raw in
  res.2 = ([0; 1; 2; 3; 4; 5; 6; 7; 8; 10],
           {| nulls := 1; duplicates := 1; outliers := 1 |})
  /\ closes res.1 res.2.1
     = map VNum [10; 11; 12; 12; 14; 15; 16; 17; 18; 18]%float
  /\ globalMedian res.1 (seq 0 10) = VNum 15%float
  /\ globalMad res.1 (seq 0 10) = VNum 3%float.
Proof. repeat split; vm_compute; reflexivity. Qed.

(** The threshold is tested on the rounded quotient: a close whose exact
    z-score is above 3.5 by less than the rounding keeps its row. *)
Lemma zScore_rounded :
  spec_zScore 0 0.1 0.35000000000000003 = 3.5%float
  /\ spec_isOutlier 0 0.1 0.35000000000000003 = false.
Proof. split; vm_compute; reflexivity. Qed.

(** * Further properties *)

(** ** Indicator engine: shape, windows, extremes *)

Lemma slice_app_l {A : Type} (l k : list A) (a b : nat) :
  b <= length l -> slice (l ++ k) a b = slice l a b.
Proof.
  intros Hb. unfold slice. rewrite drop_app.
  rewrite take_app_le; [done|]. rewrite length_drop. lia.
Qed.

Lemma indicatorRow_prefix Math_sqrt (arr extra : list Row) (i : nat) (r : Row) :
  i < length arr ->
  indicatorRow Math_sqrt (arr ++ extra) i r = indicatorRow Math_sqrt arr i r.
Proof.
  intros Hi. unfold indicatorRow, sma, rsi14, std20.
  by rewrite !slice_app_l by lia.
Qed.

(** X1.  The engine returns one row per input row, in the same order, with
    the date and the OHLCV fields of the input row. *)
Theorem calculateTechnicalIndicators_shape Math_sqrt (arr : list Row) :
  length (calculateTechnicalIndicators Math_sqrt arr) = length arr
  /\ forall i row, arr !! i = Some row ->
       exists out,
         calculateTechnicalIndicators Math_sqrt arr !! i = Some out
         /\ date out = date row /\ open out = open row
         /\ high out = high row /\ low out = low row
         /\ close out = close row /\ volume out = volume row.
Proof.
  unfold calculateTechnicalIndicators. split; [apply length_imap|].
  intros i row Hrow. rewrite list_lookup_imap, Hrow. simpl.
  eexists. split; [reflexivity|]. by repeat split.
Qed.

(** X2.  No look-ahead: the indicators of row [i] are the same whatever
    rows follow it. *)
Theorem calculateTechnicalIndicators_no_lookahead Math_sqrt
    (arr extra : list Row) (i : nat) :
  i < length arr ->
  calculateTechnicalIndicators Math_sqrt (arr ++ extra) !! i
  = calculateTechnicalIndicators Math_sqrt arr !! i.
Proof.
  intros Hi. unfold calculateTechnicalIndicators.
  rewrite !list_lookup_imap, lookup_app_l by done.
  destruct (arr !! i) as [r|]; [|done]. simpl.
  by rewrite indicatorRow_prefix.
Qed.

Lemma calculateTechnicalIndicators_no_lookahead_witness :
  calculateTechnicalIndicators PrimFloat.sqrt
    (take 30 sample_series ++ drop 30 sample_series) !! 25
  = calculateTechnicalIndicators PrimFloat.sqrt (take 30 sample_series) !! 25.
Proof.
  apply (calculateTechnicalIndicators_no_lookahead PrimFloat.sqrt
           (take 30 sample_series) (drop 30 sample_series) 25).
  simpl. lia.
Defined.

Lemma filter_none {A : Type} (f : A -> bool) (l : list A) :
  Forall (fun x => f x <> true) l -> filter (fun x => f x = true) l = [].
Proof.
  induction 1 as [|x l Hx Hl IH]; [done|].
  by rewrite filter_cons_False.
Qed.

(** The oscillator, as the engine computes it at row [i]. *)
Lemma rsi14_spec (arr : list Row) (i : nat) :
  13 <= i -> i < length arr ->
  let cs := spec_changes arr (i - 13) 13 in
  let g := spec_average (fun c => (0 <? c)%float) cs in
  let l := spec_average (fun c => (c <? 0)%float) cs in
  rsi14 arr i
  = (100 - 100 / (1 + (if (l =? 0)%float then 100 else g / l)))%float.
Proof.
  intros Hi Hlen. unfold rsi14. rewrite changes_spec by done.
  by rewrite avgGain_spec, avgLoss_spec.
Qed.

(** X4.  The oscillator on a window that never falls.  When the fourteen
    rows i - 13 .. i have finite closes and none of them is below the one
    before it, there is no loss, RS is forced to 100 and rsi is
    100 - 100 / 101 as rounded, 99.009900990099013. *)
Theorem rsi_extremes Math_sqrt (arr : list Row) (i : nat) (out : Row) :
  14 <= i ->
  calculateTechnicalIndicators Math_sqrt arr !! i = Some out ->
  (forall j, i - 13 <= j <= i -> numeric (close (arr !!! j))) ->
  (forall j, i - 13 < j <= i ->
     (toNumber (close (arr !!! (j - 1)%nat)) <=? toNumber (close (arr !!! j)))%float
     = true) ->
  rsi out = VNum 99.009900990099013%float.
Proof.
  intros Hi Hout Hnum Hrise.
  apply calculateTechnicalIndicators_lookup in Hout as (r0 & Hr0 & ->).
  apply lookup_lt_Some in Hr0.
  unfold indicatorRow. cbn [rsi]. rewrite bool_decide_eq_true_2 by done.
  rewrite rsi14_spec by lia. cbv zeta.
  assert (spec_average (fun c => (c <? 0)%float)
            (spec_changes arr (i - 13) 13) = 0%float) as ->; [|done].
  unfold spec_average.
  assert (filter (fun c => (c <? 0)%float = true)
            (spec_changes arr (i - 13) 13) = []) as ->; [|done].
  apply filter_none. apply Forall_forall.
  intros c Hc. unfold spec_changes in Hc.
  apply list_elem_of_fmap in Hc as (j & -> & Hj).
  apply elem_of_seq in Hj.
  rewrite sub_negative by (apply Hnum; lia).
  specialize (Hrise j ltac:(lia)).
  apply leb_true in Hrise as (N1 & N2 & Hle).
  rewrite ltb_value by done. intros H%Z.ltb_lt. lia.
Qed.

Lemma rsi_extremes_witness :
  rsi (indicatorRow PrimFloat.sqrt rising_series 14 (rising_series !!! 14%nat))
  = VNum 99.009900990099013%float.
Proof.
  apply (rsi_extremes PrimFloat.sqrt rising_series 14).
  - lia.
  - reflexivity.
  - intros j Hj.
    assert (Forall (fun r => numeric (close r)) rising_series) as Hall
      by repeat constructor.
    destruct (lookup_lt_is_Some_2 rising_series j) as [r Hr];
      [simpl; lia|].
    rewrite (list_lookup_total_correct _ _ _ Hr).
    exact (Forall_lookup_1 _ _ _ _ Hall Hr).
  - intros j Hj.
    assert (j ∈ seq 2 13) as Hin by (apply elem_of_seq; lia).
    clear Hj. revert j Hin. apply Forall_forall.
    repeat constructor.
Defined.

Lemma reduce_from_map {A B C : Type} (f : A -> B) (g : C -> B -> nat -> C)
    (l : list A) (i : nat) (a : C) :
  reduce_from g i (map f l) a = reduce_from (fun s x k => g s (f x) k) i l a.
Proof. revert i a. induction l as [|x l IH]; intros i a; simpl; eauto. Qed.

Lemma slice_map {A B : Type} (f : A -> B) (l : list A) (a b : nat) :
  slice (map f l) a b = map f (slice l a b).
Proof.
  unfold slice. change (map f) with (fmap (M := list) f).
  by rewrite fmap_take, fmap_drop.
Qed.

(** The average of the live component, taken over the column of closes, is
    the average of the first component, taken over the rows. *)
Lemma Live_sma_closes (data : list Row) (n i : nat) :
  n - 1 <= i -> Live.sma (map close data) n i = VNum (sma data n i).
Proof.
  intros Hi. unfold Live.sma, sma, sumClose, reduce.
  rewrite bool_decide_true by done.
  by rewrite slice_map, reduce_from_map.
Qed.

(** X6.  The two indicator engines agree.  On rows that carry no averages
    yet, [indicators] of the live-data component returns exactly what
    [calculateTechnicalIndicators] returns: its explicit [undefined] for
    the rows before a window is full is what the other engine leaves
    unset. *)
Theorem indicators_agree Math_sqrt (data : list Row) :
  Forall (fun r => sma10 r = VUndef /\ sma20 r = VUndef /\ sma50 r = VUndef)
    data ->
  Live.indicators Math_sqrt data = calculateTechnicalIndicators Math_sqrt data.
Proof.
  intros Hdata. unfold Live.indicators, calculateTechnicalIndicators.
  apply imap_ext. intros i row Hrow.
  destruct (Forall_lookup_1 _ _ _ _ Hdata Hrow) as (H10 & H20 & H50).
  unfold Live.indicatorRow, indicatorRow.
  assert (forall n, Live.sma (map close data) (S n) i
                    = if bool_decide (n <= i) then VNum (sma data (S n) i)
                      else VUndef) as Hsma.
  { intros n. case_bool_decide as Hn.
    - apply Live_sma_closes. simpl. lia.
    - unfold Live.sma. rewrite bool_decide_false; [done|]. simpl. lia. }
  rewrite !Hsma, H10, H20, H50. done.
Qed.

Lemma indicators_agree_witness :
  Live.indicators PrimFloat.sqrt sample_series
  = calculateTechnicalIndicators PrimFloat.sqrt sample_series.
Proof.
  apply (indicators_agree PrimFloat.sqrt sample_series).
  repeat constructor.
Defined.

(** ** Evaluator *)

Lemma ssTot_nonneg_nan (actual : list value) : nonneg_nan (ssTot actual).
Proof.
  unfold ssTot, reduce.
  apply (reduce_from_nonneg_nan
           (fun v _ => JS.sq (toNumber v - mean actual))).
  - done.
  - intros x k. apply sq_nonneg_nan.
Qed.

(** X14.  Perfect predictions.  When every actual value is a finite number
    and every prediction equals ([===]) its actual value, every error is a
    zero and the evaluator returns mse "0.00", rmse "0.00" and mae "0.00";
    r2 is "1.0000" unless the computed SStot is 0 or NaN (a constant series,
    or deviations whose squares underflow), in which case it is "NaN". *)
Theorem evaluateModel_perfect_fit Math_sqrt Number_toString
    (actual predicted : list value) :
  actual <> [] ->
  (Z.of_nat (length actual) < 2 ^ 32)%Z ->
  Forall numeric actual ->
  Forall2 (fun a p => (toNumber a =? toNumber p)%float = true)
    actual predicted ->
  let t := ssTot actual in
  evaluateModel Math_sqrt Number_toString actual predicted
  = {| mse := "0.00"; rmse := "0.00";
       r2 := if is_nan t || PrimFloat.is_zero t then "NaN" else "1.0000";
       mae := "0.00" |}.
Proof.
  intros Hne Hlen Ha Heq t.
  assert (forall j v, actual !! j = Some v ->
            PrimFloat.is_zero (toNumber v - toNumber (index predicted j))
            = true) as Hpt.
  { intros j v Hv.
    destruct (Forall2_lookup_l _ _ _ _ _ Heq Hv) as (p & Hpj & Hvp).
    unfold index. rewrite Hpj. cbn [default].
    apply sub_same; [|done]. exact (Forall_lookup_1 _ _ _ _ Ha Hv). }
  assert (squaredError actual predicted = 0%float) as He.
  { unfold squaredError, reduce.
    apply (reduce_from_zero
             (fun v i => JS.sq (toNumber v - toNumber (index predicted i)))).
    intros j v Hv. by apply sq_zero, Hpt. }
  assert (reduce (fun s v i =>
                    s + abs (toNumber v - toNumber (index predicted i)))%float
            actual JS.zero = 0%float) as Hmae.
  { unfold reduce.
    apply (reduce_from_zero
             (fun v i => abs (toNumber v - toNumber (index predicted i)))).
    intros j v Hv. by apply abs_zero, Hpt. }
  destruct (of_nat_pos (length actual)) as [Hn _];
    [destruct actual; [done|simpl; lia]|done|].
  destruct (of_nat_truthy (length actual)) as [_ Hnz];
    [destruct actual; [done|simpl; lia]|done|].
  unfold evaluateModel. cbv zeta. rewrite He, Hmae.
  rewrite (zero_div _ Hn Hnz).
  fold t. rewrite (zero_div_nonneg_nan t (ssTot_nonneg_nan actual)).
  by destruct (is_nan t || PrimFloat.is_zero t).
Qed.

Lemma evaluateModel_perfect_fit_witness :
  let actual := [VNum 3%float; VNum 5%float; VNull] in
  let predicted := [VNum 3%float; VNum 5%float; VNum 0%float] in
  let t := ssTot actual in
  evaluateModel PrimFloat.sqrt toString_integer actual predicted
  = {| mse := "0.00"; rmse := "0.00";
       r2 := if is_nan t || PrimFloat.is_zero t then "NaN" else "1.0000";
       mae := "0.00" |}.
Proof.
  apply (evaluateModel_perfect_fit PrimFloat.sqrt toString_integer
           [VNum 3%float; VNum 5%float; VNull]
           [VNum 3%float; VNum 5%float; VNum 0%float]).
  - discriminate.
  - reflexivity.
  - repeat constructor.
  - repeat constructor.
Defined.

(** Perfect predictions of a series whose deviations are too small to
    square: SStot underflows to 0 and r2 is "NaN". *)
Lemma evaluateModel_perfect_fit_underflow :
  let actual := [VNum 1e-200%float; VNum 2e-200%float] in
  ssTot actual = 0%float
  /\ evaluateModel PrimFloat.sqrt toString_integer actual actual
     = {| mse := "0.00"; rmse := "0.00"; r2 := "NaN"; mae := "0.00" |}.
Proof. split; vm_compute; reflexivity. Qed.

(** ** Cleaning engine *)

Lemma dedupe_count (h : heap) (rows : list loc) (seen : gset string)
    (s : Issues) :
  let res := dedupe h seen rows s in
  length res.1 + duplicates res.2 = length rows + duplicates s
  /\ nulls res.2 = nulls s /\ outliers res.2 = outliers s.
Proof.
  revert seen s. induction rows as [|row rows IH]; intros seen s; [done|].
  cbn [dedupe]. case_bool_decide.
  - destruct (IH seen (incr_duplicates s)) as (H1 & H2 & H3).
    cbn [length incr_duplicates duplicates nulls outliers] in *.
    split; [lia|done].
  - specialize (IH ({[date (deref h row)]} ∪ seen) s).
    destruct (dedupe h _ rows s) as [kept s']. simpl in *.
    destruct IH as (H1 & H2 & H3). split; [lia|done].
Qed.

Lemma dedupe_sublist (h : heap) (rows : list loc) (seen : gset string)
    (s : Issues) :
  (dedupe h seen rows s).1 `sublist_of` rows.
Proof.
  revert seen s. induction rows as [|row rows IH]; intros seen s; [done|].
  cbn [dedupe]. case_bool_decide.
  - apply sublist_cons, IH.
  - specialize (IH ({[date (deref h row)]} ∪ seen) s).
    destruct (dedupe h _ rows s) as [kept s']. simpl in *.
    by apply sublist_skip.
Qed.

Lemma dedupe_complete (h : heap) (rows : list loc) (seen : gset string)
    (s : Issues) (l : loc) :
  l ∈ rows ->
  date (deref h l) ∈ seen
  \/ date (deref h l) ∈ dates h (dedupe h seen rows s).1.
Proof.
  revert seen s. induction rows as [|row rows IH]; intros seen s Hl.
  { by apply elem_of_nil in Hl. }
  cbn [dedupe]. apply elem_of_cons in Hl as [->|Hl].
  - case_bool_decide; [by left|right].
    destruct (dedupe h _ rows s) as [kept s']. simpl. by left.
  - case_bool_decide as Hseen.
    + by apply IH.
    + specialize (IH ({[date (deref h row)]} ∪ seen) s Hl).
      destruct (dedupe h _ rows s) as [kept s']. simpl in *.
      destruct IH as [IH|IH]; [|right; by right].
      apply elem_of_union in IH as [IH|IH]; [|by left].
      apply elem_of_singleton in IH. right. rewrite IH. by left.
Qed.

Lemma fillStep_date (missing : value -> bool) prev cur (h : heap) s l :
  date (deref (fillStep missing prev cur (h, s)).1 l) = date (deref h l).
Proof.
  unfold fillStep. destruct prev as [p|]; [|done].
  destruct (missing (close (deref h cur))).
  - destruct (missing (volume _)); simpl; by rewrite ?date_store.
  - destruct (missing (volume _)); simpl; by rewrite ?date_store.
Qed.

Lemma fillStep_counts (missing : value -> bool) prev cur (h : heap) s :
  duplicates (fillStep missing prev cur (h, s)).2 = duplicates s
  /\ outliers (fillStep missing prev cur (h, s)).2 = outliers s.
Proof.
  unfold fillStep. destruct prev as [p|]; [|done].
  destruct (missing (close (deref h cur)));
    destruct (missing (volume _)); done.
Qed.

Lemma fillLoop_date (missing : value -> bool) rest prev (h : heap) s l :
  date (deref (fillLoop missing prev rest (h, s)).1 l) = date (deref h l).
Proof.
  revert prev h s. induction rest as [|cur rest IH]; intros prev h s; [done|].
  cbn [fillLoop].
  destruct (fillStep missing prev cur (h, s)) as [h1 s1] eqn:E.
  rewrite IH. by rewrite <- (fillStep_date missing prev cur h s l), E.
Qed.

Lemma fillLoop_counts (missing : value -> bool) rest prev (h : heap) s :
  duplicates (fillLoop missing prev rest (h, s)).2 = duplicates s
  /\ outliers (fillLoop missing prev rest (h, s)).2 = outliers s.
Proof.
  revert prev h s. induction rest as [|cur rest IH]; intros prev h s; [done|].
  cbn [fillLoop].
  destruct (fillStep missing prev cur (h, s)) as [h1 s1] eqn:E.
  destruct (IH (Some cur) h1 s1) as [-> ->].
  pose proof (fillStep_counts missing prev cur h s) as H.
  by rewrite E in H.
Qed.

Lemma missingFields_le (missing : value -> bool) (h : heap) (l : loc) :
  missingFields missing h l <= 2.
Proof.
  unfold missingFields.
  destruct (missing (close _)), (missing (volume _)); simpl; lia.
Qed.

Lemma sum_list_with_le (f : loc -> nat) (c : nat) (l : list loc) :
  (forall x, f x <= c) -> sum_list_with f l <= c * length l.
Proof.
  intros H. induction l as [|x l IH]; simpl; [lia|].
  specialize (H x). lia.
Qed.

(** The outlier pass keeps the dates: a replaced row is a copy of its row
    with a new close. *)
Lemma fixOutliers_dates (h : heap) (cleaned : list loc) (s : Issues) :
  wf h cleaned ->
  let res := fixOutliers cleaned (h, s) in
  dates res.1.1 res.2 = dates h cleaned
  /\ length res.2 = length cleaned
  /\ outliers res.1.2 <= outliers s + length cleaned
  /\ nulls res.1.2 = nulls s
  /\ duplicates res.1.2 = duplicates s.
Proof.
  intros Hwf res.
  pose proof (outlierMap_spec h cleaned (globalMedian h cleaned)
                (globalMad h cleaned) Hwf cleaned 0 [] s Hwf) as Hspec.
  cbv zeta in Hspec. rewrite app_nil_r in Hspec.
  change (outlierMap cleaned (globalMedian h cleaned) (globalMad h cleaned) 0
            cleaned (h, s)) with res in Hspec.
  destruct Hspec as ([e' He'] & Hlen & Hrows & Hout & Hn & Hd).
  split; [|split; [done|split; [|done]]].
  - apply list_eq. intros k. unfold dates.
    change (map ?f) with (fmap (M := list) f). rewrite !list_lookup_fmap.
    destruct (cleaned !! k) as [row|] eqn:Hk.
    + specialize (Hrows k row Hk).
      destruct (isOutlier h _ _ row).
      * destruct Hrows as (row' & -> & _ & Hderef). simpl.
        by rewrite Hderef.
      * rewrite Hrows. simpl. f_equal. rewrite He'. simpl.
        rewrite deref_app_l; [done|].
        unfold wf in Hwf. rewrite Forall_forall in Hwf.
        apply Hwf. by eapply list_elem_of_lookup_2.
    + apply lookup_ge_None in Hk. rewrite lookup_ge_None_2; [done|]. lia.
  - rewrite Hout. pose proof (length_filter (fun row => isOutlier h (globalMedian h cleaned) (globalMad h cleaned) row = true) cleaned). lia.
Qed.

(** X15.  The accounts of a cleaning run.  For every raw series whose
    references are valid: the rows returned and the duplicates reported add
    up to the rows passed; the dates of the result are pairwise distinct,
    come in the order of the raw series, and miss no date of it; at most two
    fills are reported per row after the first, and at most one outlier per
    row. *)
Theorem cleanData_accounting (missing : value -> bool) (h : heap)
    (rawData : list loc) :
  wf h rawData ->
  let h' := (cleanData missing h rawData).1 in
  let out := (cleanData missing h rawData).2.1 in
  let s := (cleanData missing h rawData).2.2 in
  length out + duplicates s = length rawData
  /\ NoDup (dates h' out)
  /\ dates h' out `sublist_of` dates h rawData
  /\ (forall d, d ∈ dates h rawData -> d ∈ dates h' out)
  /\ nulls s <= 2 * (length out - 1)
  /\ outliers s <= length out.
Proof.
  intros Hwf. unfold cleanData.
  pose proof (dedupe_count h rawData ∅ noIssues) as Hcount.
  pose proof (dedupe_sublist h rawData ∅ noIssues) as Hsub.
  pose proof (dedupe_spec h rawData ∅ noIssues) as [Hnodup Hin].
  pose proof (fun l => dedupe_complete h rawData ∅ noIssues l) as Hall.
  destruct (dedupe h ∅ rawData noIssues) as [kept s0]. simpl in *.
  destruct Hcount as (Hc1 & Hc2 & Hc3).
  assert (wf h kept) as Hwf0.
  { unfold wf in *. rewrite Forall_forall in *. intros l Hl.
    apply Hwf. by apply Hin. }
  pose proof (fillLoop_length missing kept None h s0) as Hlen1.
  pose proof (fillLoop_counts missing kept None h s0) as [Hd1 Ho1].
  pose proof (fillLoop_nulls missing kept None h s0 (dates_NoDup _ _ Hnodup))
    as Hn1.
  pose proof (fun l => fillLoop_date missing kept None h s0 l) as Hdate1.
  unfold forwardFill.
  destruct (fillLoop missing None kept (h, s0)) as [h1 s1]. simpl in *.
  assert (wf h1 kept) as Hwf1 by (unfold wf; by rewrite Hlen1).
  assert (dates h1 kept = dates h kept) as Hdates1.
  { unfold dates. apply map_ext. intros l. apply Hdate1. }
  destruct (fixOutliers_dates h1 kept s1 Hwf1) as (Hdt & Hlen2 & Ho2 & Hn2 & Hd2).
  destruct (fixOutliers kept (h1, s1)) as [[h2 s2] out]. simpl in *.
  rewrite Hdt, Hdates1, Hlen2.
  split; [lia|]. split; [done|]. split.
  { unfold dates. change (map ?f) with (fmap (M := list) f).
    by apply fmap_sublist. }
  split.
  { intros d Hd. unfold dates in Hd.
    apply list_elem_of_fmap in Hd as (l & -> & Hl).
    destruct (Hall l Hl) as [Hs|Hk]; [by apply elem_of_empty in Hs|done]. }
  split; [|unfold noIssues in *; simpl in *; lia].
  rewrite Hn2, Hn1, Hc2. simpl.
  pose proof (sum_list_with_le (missingFields missing h) 2 (tail kept)
                (missingFields_le missing h)) as Hle.
  destruct kept; simpl in *; lia.
Qed.

Lemma cleanData_accounting_witness :
  let h' := (cleanData JS.nullish scenario_heap scenario_raw).1 in
  let out := (cleanData JS.nullish scenario_heap scenario_raw).2.1 in
  let s := (cleanData JS.nullish scenario_heap scenario_raw).2.2 in
  length out + duplicates s = length scenario_raw
  /\ NoDup (dates h' out)
  /\ dates h' out `sublist_of` dates scenario_heap scenario_raw
  /\ (forall d, d ∈ dates scenario_heap scenario_raw -> d ∈ dates h' out)
  /\ nulls s <= 2 * (length out - 1)
  /\ outliers s <= length out.
Proof.
  apply (cleanData_accounting JS.nullish scenario_heap scenario_raw).
  unfold wf. apply Forall_forall. intros l Hl.
  apply (bool_decide_unpack _).
  revert l Hl. apply Forall_forall. by apply (bool_decide_unpack _).
Defined.

(** A field that the first row has is missing from no row after the fill;
    the first row itself is never written. *)
Lemma forwardFill_no_gap (missing : value -> bool) (h : heap)
    (cleaned : list loc) (s : Issues) (r0 : loc) :
  wf h cleaned -> NoDup cleaned -> cleaned !! 0 = Some r0 ->
  let h' := (forwardFill missing cleaned (h, s)).1 in
  (missing (close (deref h r0)) = false ->
   forall l, l ∈ cleaned -> missing (close (deref h' l)) = false)
  /\ (missing (volume (deref h r0)) = false ->
      forall l, l ∈ cleaned -> missing (volume (deref h' l)) = false)
  /\ deref h' r0 = deref h r0.
Proof.
  intros Hwf Hnodup Hr0 h'.
  pose proof (fillLoop_spec missing cleaned None h s Hnodup Hwf) as Hspec.
  cbv zeta in Hspec. fold (forwardFill missing cleaned (h, s)) in Hspec.
  fold h' in Hspec.
  pose proof (Hspec 0 r0 Hr0) as H0. cbv beta iota in H0.
  split; [|split; [|done]].
  - intros Hfirst l Hl. apply list_elem_of_lookup in Hl as [i Hi].
    revert l Hi. induction i as [|i IH]; intros l Hi.
    + rewrite Hr0 in Hi. injection Hi as <-. by rewrite H0.
    + destruct (lookup_lt_is_Some_2 cleaned i) as [p Hp].
      { apply lookup_lt_Some in Hi. lia. }
      pose proof (Hspec (S i) l Hi) as HS. cbv beta iota in HS.
      rewrite Hp in HS. destruct HS as [-> _].
      destruct (missing (close (deref h l))) eqn:E; [by apply IH|done].
  - intros Hfirst l Hl. apply list_elem_of_lookup in Hl as [i Hi].
    revert l Hi. induction i as [|i IH]; intros l Hi.
    + rewrite Hr0 in Hi. injection Hi as <-. by rewrite H0.
    + destruct (lookup_lt_is_Some_2 cleaned i) as [p Hp].
      { apply lookup_lt_Some in Hi. lia. }
      pose proof (Hspec (S i) l Hi) as HS. cbv beta iota in HS.
      rewrite Hp in HS. destruct HS as [_ ->].
      destruct (missing (volume (deref h l))) eqn:E; [by apply IH|done].
Qed.

Lemma nullish_false (v : value) : JS.nullish v = false <-> exists n, v = VNum n.
Proof. destruct v; split; try done; [by intros [? ?]..|eauto]. Qed.

Lemma is_null_false (v : value) : JS.is_null v = false <-> v <> VNull.
Proof. by destruct v. Qed.

(** X16.  The forward fill behind a good first row.  For a series of valid,
    pairwise distinct references: with the test [== null] of the component,
    when the close of the first row is a number, the close of every row is
    a number after the fill, and likewise for the volume.  With the test
    [=== null] of the earlier copies, when the close of the first row is
    not [null], no close is [null] after the fill (an [undefined] close is
    not filled, and stays).  The first row itself is never written. *)
Theorem forwardFill_complete (h : heap) (cleaned : list loc) (s : Issues)
    (r0 : loc) :
  wf h cleaned -> NoDup cleaned -> cleaned !! 0 = Some r0 ->
  let h' := (forwardFill JS.nullish cleaned (h, s)).1 in
  let h'' := (forwardFill JS.is_null cleaned (h, s)).1 in
  ((exists n, close (deref h r0) = VNum n) ->
   forall l, l ∈ cleaned -> exists n, close (deref h' l) = VNum n)
  /\ ((exists n, volume (deref h r0) = VNum n) ->
      forall l, l ∈ cleaned -> exists n, volume (deref h' l) = VNum n)
  /\ deref h' r0 = deref h r0
  /\ (close (deref h r0) <> VNull ->
      forall l, l ∈ cleaned -> close (deref h'' l) <> VNull)
  /\ (volume (deref h r0) <> VNull ->
      forall l, l ∈ cleaned -> volume (deref h'' l) <> VNull)
  /\ deref h'' r0 = deref h r0.
Proof.
  intros Hwf Hnodup Hr0 h' h''.
  destruct (forwardFill_no_gap JS.nullish h cleaned s r0 Hwf Hnodup Hr0)
    as (H1 & H2 & H3).
  destruct (forwardFill_no_gap JS.is_null h cleaned s r0 Hwf Hnodup Hr0)
    as (H4 & H5 & H6).
  repeat split; try done.
  - intros Hn l Hl. apply nullish_false, H1; [|done]. by apply nullish_false.
  - intros Hn l Hl. apply nullish_false, H2; [|done]. by apply nullish_false.
  - intros Hn l Hl. apply is_null_false, H4; [|done]. by apply is_null_false.
  - intros Hn l Hl. apply is_null_false, H5; [|done]. by apply is_null_false.
Qed.

Lemma forwardFill_complete_witness :
  let h' := (forwardFill JS.nullish sample_raw (sample_heap, noIssues)).1 in
  (forall l, l ∈ sample_raw -> exists n, close (deref h' l) = VNum n)
  /\ deref h' 0 = deref sample_heap 0.
Proof.
  destruct (forwardFill_complete sample_heap sample_raw noIssues 0)
    as (H1 & _ & H3 & _).
  - repeat constructor.
  - exact sample_raw_NoDup.
  - reflexivity.
  - split; [|exact H3]. apply H1. by eexists.
Defined.

(** With [=== null] an [undefined] close is not a gap: it is left as it is,
    and it is what the next [null] close is filled with. *)
Lemma forwardFill_undefined_stays :
  let h := [ mkRow "2024-01-02" VNull VNull VNull (VNum 10%float) VNull;
             mkRow "2024-01-03" VNull VNull VNull VUndef VNull;
             mkRow "2024-01-04" VNull VNull VNull VNull VNull ] in
  closes (forwardFill JS.is_null [0; 1; 2] (h, noIssues)).1 [0; 1; 2]
  = [VNum 10%float; VUndef; VUndef]
  /\ closes (forwardFill JS.nullish [0; 1; 2] (h, noIssues)).1 [0; 1; 2]
     = [VNum 10%float; VNum 10%float; VNum 10%float].
Proof. split; reflexivity. Qed.

(** ** The first version of the cleaner ([app.jsx]) *)


Section AppOutliers.

Variables (h0 : heap) (cleaned : list loc) (lower upper : number).
Hypothesis cleaned_wf : wf h0 cleaned.
Hypothesis cleaned_NoDup : NoDup cleaned.

#[local] Abbreviation flagged := (App.isOutlier lower upper h0).
#[local] Abbreviation interior :=
  (fun k : nat => bool_decide (0 < k < length cleaned - 1)).




End AppOutliers.






(** ** Signal engine *)

(** The fields of a signal, read off the last record. *)
Lemma generateSignal_inv Number_toString (rows : list Row) (sig : Signal) :
  generateSignal Number_toString rows = Some sig ->
  exists last,
    at_index rows (Z.of_nat (length rows) - 1) = Some last
    /\ riskPct sig
       = JS.min 3%float
           (JS.max JS.one
              (toNumber (JS.or (volatility last) (VNum JS.one))
               * 0.5%float)%float)
    /\ targetPct sig = (riskPct sig * 2%float)%float
    /\ price sig = close last
    /\ stop sig
       = match action sig with
         | BUY => roundFixed2 (toNumber (close last)
                               * (JS.one - riskPct sig / 100%float))%float
         | _ => roundFixed2 (toNumber (close last)
                             * (JS.one + riskPct sig / 100%float))%float
         end
    /\ target sig
       = match action sig with
         | BUY => roundFixed2 (toNumber (close last)
                               * (JS.one + targetPct sig / 100%float))%float
         | _ => roundFixed2 (toNumber (close last)
                             * (JS.one - targetPct sig / 100%float))%float
         end.
Proof.
  unfold generateSignal.
  destruct (at_index rows (Z.of_nat (length rows) - 1)) as [last|]; [|done].
  cbn [mbind option_bind].
  destruct (crossover JS.gtb PrimFloat.leb last _) as [bull|]; [|done].
  cbn [mbind option_bind].
  destruct (crossover PrimFloat.ltb JS.geb last _) as [bear|]; [|done].
  cbn [mbind option_bind]. intros [= <-]. exists last.
  cbn [riskPct targetPct price stop target action]. done.
Qed.

(** The risk percentage is half the volatility, kept within 1 and 3. *)
Lemma risk_range (v : value) :
  let r :=
    JS.min 3%float
      (JS.max JS.one (toNumber (JS.or v (VNum JS.one)) * 0.5)%float) in
  is_nan r = false /\ (F2Z 1 <= F2Z r <= F2Z 3)%Z.
Proof.
  set (vol := toNumber (JS.or v (VNum JS.one))).
  assert (is_nan vol = false) as Hvol.
  { unfold vol, JS.or. destruct v as [| |n]; try done. cbn [JS.truthy].
    unfold JS.truthy_num. by destruct (is_nan n) eqn:E; [|destruct (PrimFloat.is_zero n); rewrite ?E]. }
  pose proof (mul_not_nan vol 0.5 Hvol eq_refl eq_refl) as Ht.
  set (t := (vol * 0.5)%float) in *. clearbody t. clear vol Hvol.
  assert (F2Z 1 <= F2Z 3)%Z as H13 by (by vm_compute).
  set (m := JS.max JS.one t).
  assert (is_nan m = false /\ (F2Z 1 <= F2Z m)%Z) as [Nm Hm].
  { unfold m, JS.max, JS.one. rewrite Ht. cbn [is_nan orb].
    change (is_nan 1) with false. cbn [orb].
    rewrite (ltb_value 1 t) by done. rewrite (ltb_value t 1) by done.
    destruct (Z.ltb_spec (F2Z 1) (F2Z t)); [split; [done|lia]|].
    change (get_sign 1) with false.
    destruct (Z.ltb_spec (F2Z t) (F2Z 1)); split; (done || lia). }
  clearbody m. cbv zeta. unfold JS.min.
  change (is_nan 3) with false. rewrite Nm. cbn [orb].
  rewrite (ltb_value m 3) by done. rewrite (ltb_value 3 m) by done.
  destruct (Z.ltb_spec (F2Z m) (F2Z 3)); [split; [done|lia]|].
  destruct (Z.ltb_spec (F2Z 3) (F2Z m)); [split; [done|lia]|].
  change (get_sign 3) with false. split; [done|lia].
Qed.

(** X18.  The risk of a signal.  Whenever a signal is produced, its risk
    percentage is a finite number between 1 and 3, whatever the volatility
    of the last record (absent, zero, negative or infinite), and its target
    percentage is twice that. *)
Theorem generateSignal_risk Number_toString (rows : list Row) (sig : Signal) :
  generateSignal Number_toString rows = Some sig ->
  is_finite (riskPct sig) = true
  /\ (1 <=? riskPct sig)%float = true
  /\ (riskPct sig <=? 3)%float = true
  /\ targetPct sig = (riskPct sig * 2)%float.
Proof.
  intros Hsig.
  apply generateSignal_inv in Hsig as (last & _ & Hr & Ht & _).
  destruct (risk_range (volatility last)) as [Nr Hrange].
  rewrite <- Hr in Nr, Hrange.
  split; [|split; [|split; [|done]]].
  - apply value_finite; [done|].
    assert (- pow2 1100 < F2Z 1 /\ F2Z 3 < pow2 1100)%Z as [? ?]
      by (by vm_compute).
    lia.
  - apply leb_true. repeat split; try done. lia.
  - apply leb_true. repeat split; try done. lia.
Qed.

Lemma generateSignal_risk_witness :
  exists sig,
    generateSignal toString_integer
      (calculateTechnicalIndicators PrimFloat.sqrt sample_series) = Some sig
    /\ is_finite (riskPct sig) = true
    /\ (1 <=? riskPct sig)%float = true
    /\ (riskPct sig <=? 3)%float = true
    /\ targetPct sig = (riskPct sig * 2)%float.
Proof.
  destruct (generateSignal toString_integer
              (calculateTechnicalIndicators PrimFloat.sqrt sample_series))
    as [sig|] eqn:E; [|by vm_compute in E].
  exists sig. split; [done|].
  exact (generateSignal_risk toString_integer _ sig E).
Defined.

(** X20.  A signal reads the last two records only: the records before
    them do not change it. *)
Theorem generateSignal_last_two Number_toString (pre : list Row)
    (prev last : Row) :
  generateSignal Number_toString (pre ++ [prev; last])
  = generateSignal Number_toString [prev; last].
Proof.
  unfold generateSignal. rewrite length_app. cbn [length].
  replace (Z.of_nat (length pre + 2) - 1)%Z
    with (Z.of_nat (length pre + 1)) by lia.
  replace (Z.of_nat (length pre + 2) - 2)%Z
    with (Z.of_nat (length pre + 0)) by lia.
  change (Z.of_nat 2 - 1)%Z with (Z.of_nat 1).
  change (Z.of_nat 2 - 2)%Z with (Z.of_nat 0).
  rewrite !at_index_nat, !lookup_app_r by lia.
  replace (length pre + 1 - length pre) with 1 by lia.
  replace (length pre + 0 - length pre) with 0 by lia.
  done.
Qed.

(** X21.  When the signal engine throws.  Reading a property of
    [undefined] is a TypeError, and the engine runs into one in two cases
    only: on the empty series, and on a series of one record whose sma20 and
    sma50 are both truthy and differ, where the crossover rule goes on to
    read the missing previous record.  On every series of two records or
    more a signal is produced. *)
Theorem generateSignal_throws Number_toString (rows : list Row) :
  generateSignal Number_toString rows = None
  <-> rows = []
      \/ exists r, rows = [r]
                   /\ JS.truthy (sma20 r) && JS.truthy (sma50 r)
                      && (JS.gtb (toNumber (sma20 r)) (toNumber (sma50 r))
                          || PrimFloat.ltb (toNumber (sma20 r)) (toNumber (sma50 r)))
                      = true.
Proof.
  destruct rows as [|r rows]; [split; [by left|done]|].
  destruct rows as [|r2 rest].
  - assert (generateSignal Number_toString [r] = None
            <-> JS.truthy (sma20 r) && JS.truthy (sma50 r)
                && (JS.gtb (toNumber (sma20 r)) (toNumber (sma50 r))
                    || PrimFloat.ltb (toNumber (sma20 r)) (toNumber (sma50 r)))
                = true) as Hone.
    { unfold generateSignal. cbn [length].
      change (at_index [r] (Z.of_nat 1 - 1)) with (Some r).
      change (at_index [r] (Z.of_nat 1 - 2)) with (@None Row).
      cbn [mbind option_bind]. unfold crossover.
      destruct (JS.truthy (sma20 r)), (JS.truthy (sma50 r)),
        (JS.gtb (toNumber (sma20 r)) (toNumber (sma50 r))),
        (PrimFloat.ltb (toNumber (sma20 r)) (toNumber (sma50 r)));
        cbn [andb orb mbind option_bind]; done. }
    split.
    + intros H. right. exists r. split; [done|]. by apply Hone.
    + intros [?|(r' & [= <-] & Hc)]; [done|]. by apply Hone.
  - split; [|intros [?|(r' & ? & _)]; done].
    set (rows := r :: r2 :: rest).
    assert (2 <= length rows) as Hlen by (simpl; lia).
    destruct (lookup_lt_is_Some_2 rows (length rows - 1)) as [last Hlast];
      [lia|].
    destruct (lookup_lt_is_Some_2 rows (length rows - 2)) as [prev Hprev];
      [lia|].
    unfold generateSignal.
    replace (Z.of_nat (length rows) - 1)%Z with (Z.of_nat (length rows - 1))
      by lia.
    replace (Z.of_nat (length rows) - 2)%Z with (Z.of_nat (length rows - 2))
      by lia.
    rewrite !at_index_nat, Hlast, Hprev. cbn [mbind option_bind].
    rewrite !crossover_Some. cbn [mbind option_bind]. done.
Qed.

(** ** The pipeline *)

Lemma indexFeature_seq (from : nat) (rows : list Row) :
  indexFeature from rows = map JS.of_nat (seq from (length rows)).
Proof.
  unfold indexFeature. revert from.
  induction rows as [|r rows IH]; intros from; [done|].
  cbn [imap length seq map]. rewrite Nat.add_0_r. f_equal.
  rewrite <- IH. apply imap_ext. intros i x _. simpl. f_equal. lia.
Qed.

Lemma splitIdx_bounds (n : nat) : 5 * splitIdx n <= 4 * n < 5 * splitIdx n + 5.
Proof.
  unfold splitIdx.
  assert (Qfloor (inject_Z (Z.of_nat n) * (8 # 10)) = (Z.of_nat n * 8 / 10)%Z)
    as -> by reflexivity.
  pose proof (Z.div_mod (Z.of_nat n * 8) 10 ltac:(lia)) as Hdm.
  pose proof (Z.mod_pos_bound (Z.of_nat n * 8) 10 ltac:(lia)) as Hmod.
  assert (0 <= Z.of_nat n * 8 / 10)%Z by (apply Z.div_pos; lia).
  lia.
Qed.

Lemma indexFeature_app (from : nat) (l k : list Row) :
  indexFeature from (l ++ k)
  = indexFeature from l ++ indexFeature (from + length l) k.
Proof.
  rewrite !indexFeature_seq, length_app, seq_app, map_app. done.
Qed.

(** X22.  The split.  The train partition is the first
    [floor(0.8 n)] rows and the test partition the rest: together they are
    the cleaned series, in order, and their features together are the
    indices [0 .. n-1].  The test partition is empty only for the empty
    series; the train partition is empty exactly for the series of at most
    one row. *)
Theorem split_partition (cleaned : list Row) :
  let k := splitIdx (length cleaned) in
  let train := slice cleaned 0 k in
  let test := drop k cleaned in
  5 * k <= 4 * length cleaned < 5 * k + 5
  /\ train ++ test = cleaned
  /\ length train = k
  /\ indexFeature 0 train ++ indexFeature k test = indexFeature 0 cleaned
  /\ (test = [] <-> cleaned = [])
  /\ (train = [] <-> length cleaned <= 1).
Proof.
  intros k train test.
  pose proof (splitIdx_bounds (length cleaned)) as Hk. fold k in Hk.
  assert (train = take k cleaned) as Htrain.
  { unfold train, slice. by rewrite Nat.sub_0_r. }
  assert (length train = k) as Hlen.
  { rewrite Htrain, length_take. lia. }
  assert (train ++ test = cleaned) as Hcat.
  { rewrite Htrain. apply take_drop. }
  split; [done|]. split; [done|split; [done|split; [|split]]].
  - transitivity (indexFeature 0 (train ++ test)); [|by rewrite Hcat].
    rewrite indexFeature_app. by rewrite Hlen.
  - split.
    + intros Hnil. apply (f_equal length) in Hnil.
      unfold test in Hnil. rewrite length_drop in Hnil. simpl in Hnil.
      apply nil_length_inv. lia.
    + intros ->. done.
  - split.
    + intros Hnil. rewrite Hnil in Hlen. simpl in Hlen. lia.
    + intros Hshort. apply nil_length_inv. lia.
Qed.

(** Against a NaN prediction every metric of a one-value evaluation is
    "NaN", whatever the actual value. *)
Lemma evaluateModel_nan Math_sqrt Number_toString (v : value) :
  evaluateModel Math_sqrt Number_toString [v] [VNum nan] = nanMetrics.
Proof.
  assert (squaredError [v] [VNum nan] = nan) as Hsq.
  { unfold squaredError, reduce. cbn [reduce_from]. unfold index.
    cbn [lookup list_lookup default from_option toNumber].
    by rewrite sub_nan_r. }
  unfold evaluateModel. rewrite Hsq. unfold reduce. cbn [reduce_from].
  unfold index. cbn [lookup list_lookup default from_option toNumber].
  rewrite sub_nan_r, !div_nan_l. reflexivity.
Qed.

(** X23.  A cleaned series of at most one row leaves the train partition
    empty.  Both trainers then divide zero by [n = 0]: the intercept of the
    linear model and the constant of the quadratic model are NaN, every
    prediction is NaN, all thirty forecast points are NaN in all three
    columns, and all six evaluations report "NaN" for every metric. *)
Theorem runModels_short_series Math_sqrt Number_toString (cleaned : list Row) :
  length cleaned <= 1 ->
  let res := runModels Math_sqrt Number_toString cleaned in
  res_splitIdx res = 0
  /\ intercept (res_linearModel res) = nan
  /\ coef_c (res_polyModel res) = nan
  /\ Forall (fun pt => linear pt = nan /\ polynomial pt = nan
                       /\ ensemble pt = nan) (res_future res)
  /\ res_linear res = {| onTrain := nanMetrics; onTest := nanMetrics |}
  /\ res_polynomial res = {| onTrain := nanMetrics; onTest := nanMetrics |}
  /\ res_ensemble res = {| onTrain := nanMetrics; onTest := nanMetrics |}.
Proof.
  intros Hlen.
  destruct cleaned as [|r [|r' rest]]; [| |simpl in Hlen; lia].
  - cbv zeta. repeat split; try reflexivity.
    apply Forall_forall. intros pt Hpt.
    revert pt Hpt. apply Forall_forall. vm_compute. repeat constructor.
  - cbv zeta.
    assert (splitIdx (length [r]) = 0) as Hk by reflexivity.
    unfold runModels. rewrite Hk.
    change (slice [r] 0 0) with (@nil Row). change (drop 0 [r]) with [r].
    cbn [map indexFeature imap length plus].
    cbv zeta.
    assert (predict (trainLinearRegression [] []) (JS.of_nat 0) = nan)
      as -> by reflexivity.
    assert (predictPoly (trainPolynomialRegression [] []) (JS.of_nat 0) = nan)
      as -> by reflexivity.
    change (map VNum (ensembleOf [nan] [nan])) with [VNum nan].
    cbn [res_splitIdx res_linearModel res_polyModel res_linear
         res_polynomial res_ensemble res_future].
    rewrite !evaluateModel_nan.
    repeat split; try reflexivity.
    apply Forall_forall. intros pt Hpt.
    revert pt Hpt. apply Forall_forall. vm_compute. repeat constructor.
Qed.

Lemma runModels_short_series_witness :
  let res := runModels PrimFloat.sqrt toString_integer (take 1 sample_series) in
  res_splitIdx res = 0
  /\ intercept (res_linearModel res) = nan
  /\ coef_c (res_polyModel res) = nan
  /\ Forall (fun pt => linear pt = nan /\ polynomial pt = nan
                       /\ ensemble pt = nan) (res_future res)
  /\ res_linear res = {| onTrain := nanMetrics; onTest := nanMetrics |}
  /\ res_polynomial res = {| onTrain := nanMetrics; onTest := nanMetrics |}
  /\ res_ensemble res = {| onTrain := nanMetrics; onTest := nanMetrics |}.
Proof.
  apply (runModels_short_series PrimFloat.sqrt toString_integer
           (take 1 sample_series)).
  simpl. lia.
Defined.

(** ** The data source helper *)

(** X25.  The ticker sent to Stooq is always the lower-cased symbol
    followed by ".us": the special case for "googl" returns what the
    general case would. *)
Theorem stooqTicker_spec (toLowerCase : string -> string) (symbol : string) :
  stooqTicker toLowerCase symbol = toLowerCase symbol +:+ ".us".
Proof.
  unfold stooqTicker.
  destruct (String.eqb (toLowerCase symbol) "googl") eqn:E; [|done].
  apply String.eqb_eq in E. by rewrite E.
Qed.

(** ** The signal of the live pipeline: [generateSignal(indicators(rows))] *)

Lemma crossover_no_sma50 here before (last : Row) (prev : option Row) :
  sma50 last = VUndef -> crossover here before last prev = Some false.
Proof.
  intros H. unfold crossover. rewrite H.
  by destruct (JS.truthy (sma20 last)).
Qed.

Lemma generateSignal_two_rows Number_toString (rows : list Row) :
  2 <= length rows -> is_Some (generateSignal Number_toString rows).
Proof.
  intros Hlen.
  destruct (lookup_lt_is_Some_2 rows (length rows - 1)) as [last Hlast];
    [lia|].
  destruct (lookup_lt_is_Some_2 rows (length rows - 2)) as [prev Hprev];
    [lia|].
  unfold generateSignal.
  replace (Z.of_nat (length rows) - 1)%Z with (Z.of_nat (length rows - 1))
    by lia.
  replace (Z.of_nat (length rows) - 2)%Z with (Z.of_nat (length rows - 2))
    by lia.
  rewrite !at_index_nat, Hlast, Hprev. cbn [mbind option_bind].
  rewrite !crossover_Some. cbn [mbind option_bind]. done.
Qed.

(** Without an sma50 on the last record the crossover family is silent:
    the RSI family decides alone. *)
Lemma generateSignal_no_sma50 Number_toString (rows : list Row) (last : Row) :
  rows !! (length rows - 1) = Some last ->
  sma50 last = VUndef ->
  exists sig,
    generateSignal Number_toString rows = Some sig
    /\ action sig = spec_rsiAction last
    /\ probability sig = if spec_rsiVote last then 70%float else 50%float.
Proof.
  intros Hlast H50.
  assert (0 < length rows) as Hlen.
  { apply lookup_lt_Some in Hlast. lia. }
  unfold generateSignal.
  replace (Z.of_nat (length rows) - 1)%Z with (Z.of_nat (length rows - 1))
    by lia.
  rewrite at_index_nat, Hlast. cbn [mbind option_bind].
  rewrite !(crossover_no_sma50 _ _ last _ H50). cbn [mbind option_bind].
  eexists. split; [reflexivity|]. cbn [probability action orb].
  rewrite (rsi_rule_undefined last (fun x => x <? 35)%float eq_refl).
  rewrite (rsi_rule_undefined last (fun x => JS.gtb x 65)%float eq_refl).
  unfold spec_rsiAction, spec_rsiVote, JS.gtb.
  destruct (toNumber (rsi last) <? 35)%float;
    destruct (65 <? toNumber (rsi last))%float; by split.
Qed.

Lemma Live_indicators_last Math_sqrt (rows : list Row) (r : Row) :
  rows !! (length rows - 1) = Some r ->
  Live.indicators Math_sqrt rows !! (length (Live.indicators Math_sqrt rows) - 1)
  = Some (Live.indicatorRow Math_sqrt rows (length rows - 1) r).
Proof.
  intros Hr. unfold Live.indicators.
  by rewrite length_imap, list_lookup_imap, Hr.
Qed.

(** X27.  In the live pipeline the signal engine runs on the output of the
    indicator engine, and there it throws on the empty series only: the
    indicator engine gives the only record of a one-record series an
    [undefined] sma20, so the crossover rule never reaches the missing
    previous record. *)
Theorem live_signal_throws Math_sqrt Number_toString (rows : list Row) :
  generateSignal Number_toString (Live.indicators Math_sqrt rows) = None
  <-> rows = [].
Proof.
  split; [|by intros ->].
  destruct rows as [|r [|r2 rest]]; [done| |].
  - pose proof (generateSignal_no_sma50 Number_toString
                  (Live.indicators Math_sqrt [r])
                  (Live.indicatorRow Math_sqrt [r] 0 r) eq_refl eq_refl)
      as (sig & Hsig & _).
    by rewrite Hsig.
  - destruct (generateSignal_two_rows Number_toString
                (Live.indicators Math_sqrt (r :: r2 :: rest))) as [sig Hsig].
    { unfold Live.indicators. rewrite length_imap. simpl. lia. }
    by rewrite Hsig.
Qed.

(** X28.  In the live pipeline a series of one to forty-nine records has no
    sma50 on its last record, so the crossover family has no vote and the
    RSI family decides alone: a signal is produced; its action is SELL when
    the RSI of the last record is above 65, else BUY when it is below 35,
    else HOLD; its confidence is 70 when the RSI family votes and 50 when it
    does not.  From fifteen records on, the RSI of the last record is the
    one that the indicator engine computes there. *)
Theorem live_signal_warm_up Math_sqrt Number_toString (rows : list Row) :
  0 < length rows < 50 ->
  exists last sig,
    Live.indicators Math_sqrt rows !! (length rows - 1) = Some last
    /\ sma50 last = VUndef
    /\ (15 <= length rows ->
        rsi last = VNum (rsi14 rows (length rows - 1)))
    /\ generateSignal Number_toString (Live.indicators Math_sqrt rows)
       = Some sig
    /\ action sig = spec_rsiAction last
    /\ probability sig = (if spec_rsiVote last then 70%float else 50%float).
Proof.
  intros Hlen.
  destruct (lookup_lt_is_Some_2 rows (length rows - 1)) as [r Hr]; [lia|].
  pose proof (Live_indicators_last Math_sqrt rows r Hr) as Hlast.
  set (last := Live.indicatorRow Math_sqrt rows (length rows - 1) r) in *.
  assert (sma50 last = VUndef) as H50.
  { unfold last. cbn [sma50 Live.indicatorRow]. unfold Live.sma.
    rewrite bool_decide_false; [done|]. simpl. lia. }
  destruct (generateSignal_no_sma50 Number_toString _ last Hlast H50)
    as (sig & Hsig & Hact & Hprob).
  exists last, sig. split; [|split; [done|split; [|done]]].
  - revert Hlast. unfold Live.indicators. by rewrite length_imap.
  - intros H15. unfold last. cbn [rsi Live.indicatorRow].
    rewrite bool_decide_true; [done|lia].
Qed.

Lemma live_signal_warm_up_witness :
  exists last sig,
    Live.indicators PrimFloat.sqrt (take 30 sample_series) !! 29 = Some last
    /\ sma50 last = VUndef
    /\ rsi last = VNum (rsi14 (take 30 sample_series) 29)
    /\ generateSignal toString_integer
         (Live.indicators PrimFloat.sqrt (take 30 sample_series)) = Some sig
    /\ action sig = spec_rsiAction last
    /\ probability sig = (if spec_rsiVote last then 70%float else 50%float).
Proof.
  destruct (live_signal_warm_up PrimFloat.sqrt toString_integer
              (take 30 sample_series)) as (last & sig & H1 & H2 & H3 & H4);
    [simpl; lia|].
  exists last, sig. split; [exact H1|]. split; [exact H2|].
  split; [apply H3; simpl; lia|exact H4].
Defined.

(** ** The moving averages *)

(** The window of [sma]: from [n - 1] on it holds the closes of exactly the
    [n] rows that end at [i], and the average is their sum, added up from 0
    in order, divided by [n]. *)
Lemma sma_window (arr : list Row) (n i : nat) :
  0 < n -> n - 1 <= i -> i < length arr ->
  exists win : list number,
    length win = n
    /\ (forall k, k < n ->
          win !! k = (fun r => toNumber (close r)) <$> arr !! (i + 1 - n + k))
    /\ sma arr n i = (spec_sum win / JS.of_nat n)%float.
Proof.
  intros Hn Hi Hlen.
  exists (map (fun r => toNumber (close r)) (slice arr (i - (n - 1)) (i + 1))).
  split; [|split].
  - rewrite length_map. unfold slice. rewrite length_take, length_drop. lia.
  - intros k Hk. rewrite list_lookup_fmap. unfold slice.
    rewrite lookup_take_lt by lia. rewrite lookup_drop.
    by replace (i - (n - 1) + k) with (i + 1 - n + k) by lia.
  - unfold sma. by rewrite sumClose_spec.
Qed.

(** X3.  The engine sets sma10, sma20 and sma50 of row [i] from the closes of
    exactly the 10, 20 and 50 rows that end at [i], once that many rows
    exist: the sum of the window, added up from 0 in order with every
    addition rounded, divided by the window length.  Before that the field
    is left as the input row had it. *)
Theorem sma_windows Math_sqrt (arr : list Row) (i : nat) (row out : Row) :
  arr !! i = Some row ->
  calculateTechnicalIndicators Math_sqrt arr !! i = Some out ->
  let closes_from := fun j k =>
    (fun r => toNumber (close r)) <$> arr !! (j + k) in
  (9 <= i -> exists win, length win = 10
      /\ (forall k, k < 10 -> win !! k = closes_from (i - 9) k)
      /\ sma10 out = VNum (spec_sum win / 10)%float)
  /\ (i < 9 -> sma10 out = sma10 row)
  /\ (19 <= i -> exists win, length win = 20
      /\ (forall k, k < 20 -> win !! k = closes_from (i - 19) k)
      /\ sma20 out = VNum (spec_sum win / 20)%float)
  /\ (i < 19 -> sma20 out = sma20 row)
  /\ (49 <= i -> exists win, length win = 50
      /\ (forall k, k < 50 -> win !! k = closes_from (i - 49) k)
      /\ sma50 out = VNum (spec_sum win / 50)%float)
  /\ (i < 49 -> sma50 out = sma50 row).
Proof.
  intros Hrow Hout closes_from.
  apply calculateTechnicalIndicators_lookup in Hout as (r0 & Hr0 & ->).
  rewrite Hrow in Hr0. injection Hr0 as <-.
  pose proof (lookup_lt_Some _ _ _ Hrow) as Hlen.
  unfold indicatorRow. cbn [sma10 sma20 sma50].
  repeat split; intros Hi.
  - rewrite bool_decide_eq_true_2 by done.
    destruct (sma_window arr 10 i) as (win & Hw & Hk & ->); [lia..|].
    exists win. split; [done|]. split; [|done].
    intros k Hlt. rewrite (Hk k Hlt). unfold closes_from.
    by replace (i + 1 - 10 + k) with (i - 9 + k) by lia.
  - by rewrite bool_decide_eq_false_2 by lia.
  - rewrite bool_decide_eq_true_2 by done.
    destruct (sma_window arr 20 i) as (win & Hw & Hk & ->); [lia..|].
    exists win. split; [done|]. split; [|done].
    intros k Hlt. rewrite (Hk k Hlt). unfold closes_from.
    by replace (i + 1 - 20 + k) with (i - 19 + k) by lia.
  - by rewrite bool_decide_eq_false_2 by lia.
  - rewrite bool_decide_eq_true_2 by done.
    destruct (sma_window arr 50 i) as (win & Hw & Hk & ->); [lia..|].
    exists win. split; [done|]. split; [|done].
    intros k Hlt. rewrite (Hk k Hlt). unfold closes_from.
    by replace (i + 1 - 50 + k) with (i - 49 + k) by lia.
  - by rewrite bool_decide_eq_false_2 by lia.
Qed.

Lemma sma_windows_witness :
  exists win, length win = 50
    /\ win !! 0 = Some (toNumber (close (sample_series !!! 0%nat)))
    /\ win !! 49 = Some (toNumber (close (sample_series !!! 49%nat)))
    /\ sma50 (indicatorRow PrimFloat.sqrt sample_series 49
                (sample_series !!! 49%nat))
       = VNum (spec_sum win / 50)%float.
Proof.
  destruct (sma_windows PrimFloat.sqrt sample_series 49
              (sample_series !!! 49%nat)
              (indicatorRow PrimFloat.sqrt sample_series 49
                 (sample_series !!! 49%nat)) eq_refl eq_refl)
    as (_ & _ & _ & _ & H & _).
  destruct (H ltac:(lia)) as (win & Hlen & Hk & Hs).
  exists win. split; [exact Hlen|].
  split; [exact (Hk 0 ltac:(lia))|].
  split; [exact (Hk 49 ltac:(lia))|exact Hs].
Defined.

(** ** The trainer on the index feature *)

Lemma spec_sum_snoc (xs : list number) (x : number) :
  spec_sum (xs ++ [x]) = (spec_sum xs + x)%float.
Proof. unfold spec_sum. by rewrite foldl_app. Qed.

Lemma indexSums_spec (n : nat) :
  let X := map JS.of_nat (seq 0 n) in
  indexSums n = (sum X, sumX2 X).
Proof.
  cbv zeta. rewrite sum_spec, sumX2_spec.
  induction n as [|n IH]; [done|].
  cbn [indexSums]. rewrite IH. cbn [fst snd].
  rewrite seq_S, !map_app. cbn [map Nat.add]. by rewrite !spec_sum_snoc.
Qed.

Lemma indexCheck_state (n : nat) :
  (indexCheck n).1 = (Z.of_nat n, indexSums n).
Proof.
  induction n as [|n IH]; [done|].
  cbn [indexCheck indexSums fst]. rewrite IH. cbn [fst snd].
  f_equal. lia.
Qed.

Lemma indexCheck_ok (n m : nat) :
  (indexCheck n).2 = true -> 2 <= m <= n ->
  denominator_ok (Z.of_nat m) (indexSums m) = true.
Proof.
  induction n as [|n IH]; intros Hok Hm; [lia|].
  cbn [indexCheck snd] in Hok. apply andb_true_iff in Hok as [Hn Hlast].
  destruct (decide (m = S n)) as [->|Hne]; [|apply IH; [done|lia]].
  rewrite (indexCheck_state n) in Hlast. cbn [fst snd] in Hlast.
  destruct (Z.leb_spec (Z.of_nat n + 1) 1) as [?|_]; [lia|].
  cbn [orb] in Hlast.
  replace (Z.of_nat (S n)) with (Z.of_nat n + 1)%Z by lia.
  exact Hlast.
Qed.

Lemma indexCheck_10000 : (indexCheck 10000).2 = true.
Proof. vm_compute. reflexivity. Qed.

(** X10.  On the feature the pipeline trains on, the indices [0 .. n-1] of
    a partition of 2 to 10000 rows, every sum is an integer that the format
    holds exactly: the slope denominator as computed is the number
    n^2 (n^2 - 1) / 12, it is neither zero nor NaN, the guard [|| 1] is not
    taken, and the trainer of the component returns the same model as the
    unguarded trainer of main.jsx, whatever the targets. *)
Theorem index_feature_denominator (rows : list Row) (y : list value) :
  2 <= length rows <= 10000 ->
  let n := Z.of_nat (length rows) in
  let X := indexFeature 0 rows in
  (olsDenominator X =? of_Z (n * n * (n * n - 1) / 12))%float = true
  /\ orElse (olsDenominator X) 1 = olsDenominator X
  /\ trainLinearRegression X y = Main.trainLinearRegression X y.
Proof.
  intros Hlen n X.
  pose proof (indexCheck_ok 10000 (length rows) indexCheck_10000 Hlen) as Hok.
  pose proof (indexSums_spec (length rows)) as Hs. cbv zeta in Hs.
  rewrite <- indexFeature_seq in Hs. fold X in Hs.
  unfold denominator_ok in Hok. rewrite Hs in Hok. cbn [fst snd] in Hok.
  change (of_Z (Z.of_nat (length rows))) with (JS.of_nat (length rows)) in Hok.
  fold n in Hok.
  assert (length X = length rows) as HX.
  { unfold X. by rewrite indexFeature_seq, length_map, length_seq. }
  assert (olsDenominator X
          = (JS.of_nat (length rows) * sumX2 X - sum X * sum X)%float) as HD.
  { unfold olsDenominator. by rewrite HX. }
  rewrite <- HD in Hok. apply andb_true_iff in Hok as [Heq Hnz].
  apply negb_true_iff in Hnz.
  destruct (eqb_true_not_nan _ _ Heq) as [Hnan _].
  assert (orElse (olsDenominator X) 1 = olsDenominator X) as Hor.
  { by rewrite orElse_spec, Hnan, Hnz. }
  split; [done|]. split; [done|].
  unfold trainLinearRegression, Main.trainLinearRegression.
  cbv zeta.
  change (orElse (JS.of_nat (length X) * sumX2 X - sum X * sum X) JS.one)
    with (orElse (olsDenominator X) 1).
  rewrite Hor. reflexivity.
Qed.

Lemma index_feature_denominator_witness :
  let rows := take 41 sample_series in
  let y := map close rows in
  let X := indexFeature 0 rows in
  (olsDenominator X =? of_Z (41 * 41 * (41 * 41 - 1) / 12))%float = true
  /\ orElse (olsDenominator X) 1 = olsDenominator X
  /\ trainLinearRegression X y = Main.trainLinearRegression X y.
Proof.
  apply (index_feature_denominator (take 41 sample_series)
           (map close (take 41 sample_series))).
  split; apply Nat.leb_le; reflexivity.
Defined.

(** ** Rounding, overflow and underflow at sample inputs *)

(** Ten closes 0.1 average to a number below 0.1, and ten closes 1.7e308
    to Infinity. *)
Lemma sma_rounds :
  let flat := fun c =>
    map (fun k => mkRow (day_name k) VNull VNull VNull (VNum c) VNull)
      (seq 0 10) in
  sma (flat 0.1%float) 10 9 = 0.099999999999999992%float
  /\ sma (flat 1.7e308%float) 10 9 = infinity.
Proof. split; vm_compute; reflexivity. Qed.

(** Targets on a line are not fitted exactly, and the residuals of a fit do
    not sum to zero. *)
Lemma trainLinearRegression_rounds :
  let X := map JS.of_nat (seq 0 5) in
  let y := map VNum [68.37; 68.9; 67.21; 70.01; 69.53]%float in
  let m := trainLinearRegression X y in
  trainLinearRegression [1; 2; 4]%float (map VNum [0.1; 0.2; 0.4]%float)
  = {| slope := 0.10000000000000002; intercept := -3.7007434154171883e-17 |}
  /\ sum (map (predict m) X) = 344.01999999999992%float
  /\ sumY y = 344.01999999999998%float.
Proof. repeat split; vm_compute; reflexivity. Qed.

(** Large features overflow in the intercept; a constant feature makes the
    unguarded trainer of [main.jsx] divide by a rounding residue, or by a
    negative one. *)
Lemma trainLinearRegression_overflows :
  trainLinearRegression [1e200; 2e200]%float (map VNum [1; 2]%float)
  = {| slope := 9.9999999999999963e+199; intercept := neg_infinity |}
  /\ Main.trainLinearRegression (replicate 6 0.1%float)
       (map (fun k => VNum (JS.of_nat k)) (seq 1 6))
     = {| slope := 16; intercept := 1.9000000000000001 |}
  /\ Main.trainLinearRegression (replicate 3 0.1%float)
       (map VNum [1; 2; 4]%float)
     = {| slope := neg_infinity; intercept := infinity |}.
Proof. repeat split; vm_compute; reflexivity. Qed.

(** The two quadratic trainers on the line y = 0.3 x over the indices
    0, 1, 2. *)
Lemma trainPolynomialRegression_rounds :
  let X := map JS.of_nat [0; 1; 2] in
  let y := map VNum [0; 0.3; 0.6]%float in
  trainPolynomialRegression X y
  = {| coef_a := 6.8321416900009637e-17; coef_b := 0.49999999999999983;
       coef_c := -0.19999999999999998 |}
  /\ MainPoly.trainPolynomialRegression X y
     = {| coef_a := 6.8321416900009637e-17; coef_b := 0.29999999999999993;
          coef_c := -7.6861594012510848e-17 |}.
Proof. split; vm_compute; reflexivity. Qed.

(** Three rows that close at 1e308: the sum of the two train targets
    overflows, the linear model is NaN and the constant of the quadratic
    model is Infinity. *)
Lemma runModels_overflows :
  let rows :=
    map (fun k => mkRow (day_name k) VNull VNull VNull (VNum 1e308%float)
                    VNull) (seq 0 3) in
  let res := runModels PrimFloat.sqrt toString_integer rows in
  res_splitIdx res = 2
  /\ res_linearModel res = {| slope := nan; intercept := nan |}
  /\ coef_c (res_polyModel res) = infinity.
Proof. repeat split; vm_compute; reflexivity. Qed.

(** Formatting and rounding to cents read the binary number, not the
    decimal that was written. *)
Lemma toFixed_rounds :
  JS.toFixed toString_integer 1.005%float 2 = "1.00"
  /\ JS.toFixed toString_integer 0.075%float 2 = "0.07"
  /\ JS.toFixed toString_integer 0.005%float 2 = "0.01"
  /\ roundFixed2 101.505%float = 101.5%float.
Proof. repeat split; vm_compute; reflexivity. Qed.

(** The split index read in binary64, [Math.floor(n * 0.8)] with the product
    rounded, is the floor of the rational 4n/5 for every length up to
    5000. *)
Lemma splitIdx_binary64 :
  forallb (fun n => (floorZ (JS.of_nat n * 0.8) =? Z.of_nat (splitIdx n))%Z)
    (seq 0 5001) = true.
Proof. vm_compute. reflexivity. Qed.
